(** * kitty: sprite atlas allocation, sprite cache, line rendering and
      glyph bitmap composition

    A shallow embedding of the parts of [kitty/fonts.c] and
    [kitty/freetype.c] that allocate sprite positions, cache them per font,
    split a line into runs, recompute cell metrics, derive FreeType load
    flags, trim over-wide italic bitmaps and blit a glyph bitmap into a cell
    canvas; followed by the properties established about them.

    C integers are modelled as [Z] with the wrap-around of their type written
    out: [unsigned int] is 32 bits, [size_t] is 64 bits, [ssize_t] is a signed
    64-bit value.  Pointers into arrays are modelled as indices, raw byte
    buffers as maps from offsets to bytes. *)

From Stdlib Require Import ZArith Lia Bool.
From stdpp Require Import base option list functions relations.

Local Open Scope Z_scope.

(** ** Machine integers *)

Module CInt.

Definition UINT16_MAX : Z := 65535.
Definition UINT_MAX : Z := 4294967295.
Definition SIZE_MAX : Z := 18446744073709551615.

(** Conversion to [unsigned int]. *)
Definition uint (v : Z) : Z := v mod 2 ^ 32.

(** Conversion to [size_t]. *)
Definition size_t (v : Z) : Z := v mod 2 ^ 64.

(** Conversion of a [size_t] to [ssize_t] (two's complement). *)
Definition ssize_t (v : Z) : Z :=
  let r := v mod 2 ^ 64 in if r <? 2 ^ 63 then r else r - 2 ^ 64.

(** Conversion to [uint16_t]. *)
Definition uint16 (v : Z) : Z := v mod 2 ^ 16.

Definition is_uint (v : Z) : Prop := 0 <= v <= UINT_MAX.
Definition is_size_t (v : Z) : Prop := 0 <= v <= SIZE_MAX.

(** The [MIN] and [MAX] macros come from [data-types.h]; on operands that
    have been brought to a common unsigned type they are the mathematical
    minimum and maximum. *)
Definition MIN (a b : Z) : Z := if a <? b then a else b.
Definition MAX (a b : Z) : Z := if a >? b then a else b.

End CInt.

Import CInt.

(** ** The sprite tracker (fonts.c, [GPUSpriteTracker]) *)

Module ST.

Record GPUSpriteTracker : Type := mkTracker {
  max_array_len : Z;      (* size_t *)
  max_texture_size : Z;   (* size_t *)
  max_y : Z;              (* size_t *)
  x : Z; y : Z; z : Z;    (* unsigned int *)
  xnum : Z; ynum : Z      (* unsigned int *)
}.

Definition set_x (v : Z) (t : GPUSpriteTracker) : GPUSpriteTracker :=
  mkTracker (max_array_len t) (max_texture_size t) (max_y t) v (y t) (z t) (xnum t) (ynum t).
Definition set_y (v : Z) (t : GPUSpriteTracker) : GPUSpriteTracker :=
  mkTracker (max_array_len t) (max_texture_size t) (max_y t) (x t) v (z t) (xnum t) (ynum t).
Definition set_z (v : Z) (t : GPUSpriteTracker) : GPUSpriteTracker :=
  mkTracker (max_array_len t) (max_texture_size t) (max_y t) (x t) (y t) v (xnum t) (ynum t).
Definition set_xnum (v : Z) (t : GPUSpriteTracker) : GPUSpriteTracker :=
  mkTracker (max_array_len t) (max_texture_size t) (max_y t) (x t) (y t) (z t) v (ynum t).
Definition set_ynum (v : Z) (t : GPUSpriteTracker) : GPUSpriteTracker :=
  mkTracker (max_array_len t) (max_texture_size t) (max_y t) (x t) (y t) (z t) (xnum t) v.
Definition set_max_y (v : Z) (t : GPUSpriteTracker) : GPUSpriteTracker :=
  mkTracker (max_array_len t) (max_texture_size t) v (x t) (y t) (z t) (xnum t) (ynum t).
Definition set_max_texture_size (v : Z) (t : GPUSpriteTracker) : GPUSpriteTracker :=
  mkTracker (max_array_len t) v (max_y t) (x t) (y t) (z t) (xnum t) (ynum t).
Definition set_max_array_len (v : Z) (t : GPUSpriteTracker) : GPUSpriteTracker :=
  mkTracker v (max_texture_size t) (max_y t) (x t) (y t) (z t) (xnum t) (ynum t).

(** Every field holds a value of its C type. *)
Record well_typed (t : GPUSpriteTracker) : Prop := {
  wt_max_array_len : is_size_t (max_array_len t);
  wt_max_texture_size : is_size_t (max_texture_size t);
  wt_max_y : is_size_t (max_y t);
  wt_x : is_uint (x t);
  wt_y : is_uint (y t);
  wt_z : is_uint (z t);
  wt_xnum : is_uint (xnum t);
  wt_ynum : is_uint (ynum t)
}.

(** The static initialiser of [sprite_tracker]: the three named fields,
    everything else zero. *)
Definition sprite_tracker_init : GPUSpriteTracker :=
  mkTracker 1000 1000 100 0 0 0 0 0.

(** [sprite_tracker_set_limits] *)
Definition sprite_tracker_set_limits (max_texture_size' max_array_len' : Z)
    (t : GPUSpriteTracker) : GPUSpriteTracker :=
  set_max_array_len max_array_len' (set_max_texture_size max_texture_size' t).

(** [do_increment]: the second component is the value of [*error] after
    the call; it is only written when the atlas is exhausted. *)
Definition do_increment (t : GPUSpriteTracker) (error : Z) : GPUSpriteTracker * Z :=
  let t := set_x (uint (x t + 1)) t in
  if x t >=? xnum t then
    let t := set_x 0 t in
    let t := set_y (uint (y t + 1)) t in
    let t := set_ynum (uint (MIN (MAX (ynum t) (uint (y t + 1))) (max_y t))) t in
    if y t >=? max_y t then
      let t := set_y 0 t in
      let t := set_z (uint (z t + 1)) t in
      if z t >=? MIN UINT16_MAX (max_array_len t) then (t, 2) else (t, error)
    else (t, error)
  else (t, error).

(** [sprite_tracker_current_layout] *)
Definition sprite_tracker_current_layout (t : GPUSpriteTracker) : Z * Z * Z :=
  (xnum t, ynum t, z t).

(** [sprite_tracker_set_layout]; the two arguments are [unsigned int]. *)
Definition sprite_tracker_set_layout (cell_width cell_height : Z)
    (t : GPUSpriteTracker) : GPUSpriteTracker :=
  let t := set_xnum (uint (MIN (MAX 1 (max_texture_size t / cell_width)) UINT16_MAX)) t in
  let t := set_max_y (MIN (MAX 1 (max_texture_size t / cell_height)) UINT16_MAX) t in
  let t := set_ynum 1 t in
  set_z 0 (set_y 0 (set_x 0 t)).

(** The cursor of the tracker. *)
Definition cursor (t : GPUSpriteTracker) : Z * Z * Z := (x t, y t, z t).

(** A tracker on which [do_increment] cannot wrap an [unsigned int]: the
    increments of [y] and [z] stay below [UINT_MAX]. *)
Definition no_wrap (t : GPUSpriteTracker) : Prop :=
  max_y t < UINT_MAX ∧ z t < UINT_MAX.

(** The number of the slot under the cursor, counting along a row, then
    down the rows of a layer, then through the layers. *)
Definition slot_number (t : GPUSpriteTracker) : Z :=
  x t + xnum t * (y t + max_y t * z t).

(** The cursor lies inside the layout, on a row the layout reports, and no
    field is near the end of its C type. *)
Record in_layout (t : GPUSpriteTracker) : Prop := {
  il_x : 0 <= x t < xnum t;
  il_y : 0 <= y t < max_y t;
  il_ynum : y t < ynum t <= max_y t;
  il_z : 0 <= z t < UINT_MAX;
  il_xnum : xnum t <= UINT_MAX;
  il_max_y : max_y t < UINT_MAX
}.

(** The order in which slots are handed out: by layer, then row, then
    column. *)
Definition cursor_lt (a b : Z * Z * Z) : Prop :=
  let '(ax, ay, az) := a in
  let '(bx, b_y, bz) := b in
  az < bz ∨ (az = bz ∧ (ay < b_y ∨ (ay = b_y ∧ ax < bx))).

(** [n] calls of [do_increment] in a row, on the same [error] variable. *)
Fixpoint increments (n : nat) (t : GPUSpriteTracker) (error : Z) : GPUSpriteTracker * Z :=
  match n with
  | O => (t, error)
  | S n' => let '(t', error') := do_increment t error in increments n' t' error'
  end.

(** The number of layers [do_increment] allows before it signals. *)
Definition layer_cap (t : GPUSpriteTracker) : Z := MIN UINT16_MAX (max_array_len t).

(** A layout as [sprite_tracker_set_layout] leaves it: at least one column
    and one row, at most 65535 of each, one row reported, the cursor on
    the first slot. *)
Record fresh_layout (t : GPUSpriteTracker) : Prop := {
  fl_xnum : 1 <= xnum t <= UINT16_MAX;
  fl_max_y : 1 <= max_y t <= UINT16_MAX;
  fl_ynum : ynum t = 1;
  fl_cursor : cursor t = (0, 0, 0)
}.

(** The tracker with its cursor on slot number [n] of the layout of [t],
    and as many rows reported as have been started. *)
Definition at_slot (t : GPUSpriteTracker) (n : Z) : GPUSpriteTracker :=
  mkTracker (max_array_len t) (max_texture_size t) (max_y t)
    (n mod xnum t) ((n / xnum t) mod max_y t) (n / (xnum t * max_y t))
    (xnum t) (Z.min (n / xnum t + 1) (max_y t)).

(** The number of slots of the layout that can be left without
    [do_increment] signalling. *)
Definition capacity (t : GPUSpriteTracker) : Z := xnum t * max_y t * layer_cap t.

End ST.

(** ** The per-font sprite cache (fonts.c, [SpritePosition], [Font]) *)

Module SP.

(** [sprite_index] is declared in [data-types.h]; it is 16 bits wide, as
    the [HHH] conversion in [test_sprite_position_for] and the
    [UINT16_MAX] caps of the tracker show. *)
Definition sprite_index (v : Z) : Z := uint16 v.

(** One cache entry.  The [next] pointer is not a field here: the entries
    reachable from a head through [next] are kept as the list [overflow]
    of the bucket. *)
Record SpritePosition : Type := mkSP {
  filled : bool; rendered : bool; is_second : bool;
  x : Z; y : Z; z : Z;     (* sprite_index *)
  glyph : Z;               (* glyph_index, uint16_t *)
  extra_glyphs : Z         (* uint64_t *)
}.

(** An all-zero entry: a slot of a static [Font], or fresh from [calloc]. *)
Definition zeroed : SpritePosition := mkSP false false false 0 0 0 0 0.

Definition set_rendered (b : bool) (s : SpritePosition) : SpritePosition :=
  mkSP (filled s) b (is_second s) (x s) (y s) (z s) (glyph s) (extra_glyphs s).

Definition position (s : SpritePosition) : Z * Z * Z := (x s, y s, z s).

(** A slot of [sprite_map] with its chain. *)
Record Bucket : Type := mkBucket {
  head : SpritePosition;
  overflow : list SpritePosition
}.

Definition empty_bucket : Bucket := mkBucket zeroed [].

(** The entry at depth [d] of a bucket: 0 is the head. *)
Definition entry (b : Bucket) (d : nat) : option SpritePosition :=
  match d with
  | O => Some (head b)
  | S d' => overflow b !! d'
  end.

Definition set_entry (b : Bucket) (d : nat) (s : SpritePosition) : Bucket :=
  match d with
  | O => mkBucket s (overflow b)
  | S d' => mkBucket (head b) (<[d' := s]> (overflow b))
  end.

Definition entries (b : Bucket) : list SpritePosition := head b :: overflow b.

End SP.

Module Fonts.

Import SP.

Definition MISSING_GLYPH : Z := 4.

(** A [PyObject *face] and an [hb_font_t *] are opaque handles; [None] is
    the null pointer. *)
Definition Face : Type := nat.

Record Font : Type := mkFont {
  face : option Face;
  hb_font : option nat;
  sprite_map : list Bucket;     (* SpritePosition sprite_map[1024] *)
  bold : bool;
  italic : bool
}.

Definition sprite_map_size : nat := 1024.

(** [static Font f = {0}] *)
Definition zero_font : Font :=
  mkFont None None (replicate sprite_map_size empty_bucket) false false.

Definition set_sprite_map (m : list Bucket) (f : Font) : Font :=
  mkFont (face f) (hb_font f) m (bold f) (italic f).

(** A [SpritePosition *] into a font: the slot index and the depth in its
    chain. *)
Definition SlotRef : Type := (nat * nat)%type.

Definition deref (f : Font) (r : SlotRef) : option SpritePosition :=
  b ← sprite_map f !! r.1; entry b r.2.

Definition store (f : Font) (r : SlotRef) (s : SpritePosition) : Font :=
  match sprite_map f !! r.1 with
  | Some b => set_sprite_map (<[r.1 := set_entry b r.2 s]> (sprite_map f)) f
  | None => f
  end.

(** Python exceptions raised by this module. *)
Inductive PyErr : Type :=
| MemoryError
| RuntimeError_OutOfTextureSpace
| RuntimeError_UnknownSpriteError
| ValueError_NoCellWidth
| ValueError_LineHeightTooSmall
| ValueError_LineHeightTooLarge
| FreeTypeError.

(** [sprite_map_set_error] *)
Definition sprite_map_set_error (error : Z) : PyErr :=
  if error =? 1 then MemoryError
  else if error =? 2 then RuntimeError_OutOfTextureSpace
  else RuntimeError_UnknownSpriteError.

(** The three comparisons of a cache hit. *)
Definition key_matches (s : SpritePosition) (glyph' extra_glyphs' : Z)
    (is_second' : bool) : bool :=
  (glyph s =? glyph') && (extra_glyphs s =? extra_glyphs')
  && Bool.eqb (is_second s) is_second'.

(** How the [while (true)] loop of [sprite_position_for] is left, with the
    depth of [s] at that point. *)
Inductive walk_result : Type :=
| CacheHit (d : nat)       (* return s *)
| Unfilled (d : nat)       (* break *)
| ChainEnd (d : nat).      (* !s->next: a node has to be allocated *)

Fixpoint walk (rest : list SpritePosition) (s : SpritePosition) (d : nat)
    (glyph' extra_glyphs' : Z) (is_second' : bool) {struct rest} : walk_result :=
  if filled s then
    if key_matches s glyph' extra_glyphs' is_second' then CacheHit d
    else match rest with
         | [] => ChainEnd d
         | s' :: rest' => walk rest' s' (S d) glyph' extra_glyphs' is_second'
         end
  else Unfilled d.

(** The stores after the loop: every field of [*s] but [next] is written. *)
Definition claim (glyph' extra_glyphs' : Z) (is_second' : bool)
    (t : ST.GPUSpriteTracker) : SpritePosition :=
  mkSP true false is_second'
       (sprite_index (ST.x t)) (sprite_index (ST.y t)) (sprite_index (ST.z t))
       glyph' extra_glyphs'.

(** The result of [sprite_position_for]: the returned pointer ([None] is
    [NULL]), the font, the tracker and [*error] after the call. *)
Record spf_result : Type := mkSpf {
  spf_ret : option SlotRef;
  spf_font : Font;
  spf_tracker : ST.GPUSpriteTracker;
  spf_error : Z
}.

(** [sprite_position_for].  [calloc_ok] tells whether the one [calloc] the
    call may perform succeeds; [error] is the value of [*error] on entry.
    [glyph'] is a [glyph_index]. *)
Definition sprite_position_for (f : Font) (t : ST.GPUSpriteTracker)
    (glyph' extra_glyphs' : Z) (is_second' : bool)
    (calloc_ok : bool) (error : Z) : spf_result :=
  let idx := Z.to_nat (Z.land glyph' 0x3ff) in
  let b := default empty_bucket (sprite_map f !! idx) in
  let s := head b in
  if (glyph s =? glyph') && filled s && (extra_glyphs s =? extra_glyphs')
     && Bool.eqb (is_second s) is_second'
  then mkSpf (Some (idx, O)) f t error
  else
    let claim_at (b : Bucket) (d : nat) :=
      let f' := set_sprite_map
                  (<[idx := set_entry b d (claim glyph' extra_glyphs' is_second' t)]>
                     (sprite_map f)) f in
      let '(t', error') := ST.do_increment t error in
      mkSpf (Some (idx, d)) f' t' error' in
    match walk (overflow b) s O glyph' extra_glyphs' is_second' with
    | CacheHit d => mkSpf (Some (idx, d)) f t error
    | Unfilled d => claim_at b d
    | ChainEnd d =>
        if calloc_ok
        then claim_at (mkBucket (head b) (overflow b ++ [zeroed])) (S d)
        else mkSpf None f t 1
    end.

(** [clear_sprite_map]: the [CLEAR] macro on every head and chained entry;
    the chain nodes are kept. *)
Definition clear_sprite_map (f : Font) : Font :=
  set_sprite_map
    ((λ b, mkBucket zeroed ((λ _, zeroed) <$> overflow b)) <$> sprite_map f) f.

(** [test_sprite_position_for], on a font [f] standing for [box_font].
    [error0] is the indeterminate initial value of the local [error]. *)
Definition test_sprite_position_for (f : Font) (t : ST.GPUSpriteTracker)
    (glyph' extra_glyphs' : Z) (calloc_ok : bool) (error0 : Z)
    : (PyErr + Z * Z * Z) * Font * ST.GPUSpriteTracker :=
  let r := sprite_position_for f t glyph' extra_glyphs' false calloc_ok error0 in
  match spf_ret r with
  | None => (inl (sprite_map_set_error (spf_error r)), spf_font r, spf_tracker r)
  | Some pos =>
      let s := default zeroed (deref (spf_font r) pos) in
      (inr (SP.x s, SP.y s, SP.z s), spf_font r, spf_tracker r)
  end.

(** *** The life of a cache

    Between two clearings, the sprite cache of a font is written by
    [sprite_position_for] and, through the pointer it returns, by the
    [sp->rendered = true] of [render_box_cell]. *)
Inductive cache_step (f : Font) : Font → Prop :=
| step_position_for t glyph' extra_glyphs' is_second' calloc_ok error :
    cache_step f
      (spf_font (sprite_position_for f t glyph' extra_glyphs' is_second' calloc_ok error))
| step_rendered r s b :
    deref f r = Some s → cache_step f (store f r (set_rendered b s)).

(** The depth at which the chain walk stopped. *)
Definition depth_of (r : walk_result) : nat :=
  match r with CacheHit d | Unfilled d | ChainEnd d => d end.

(** [sprite_map] has its 1024 slots. *)
Definition sprite_map_ok (f : Font) : Prop := length (sprite_map f) = sprite_map_size.

(** The slot index of a glyph. *)
Definition slot_of (glyph' : Z) : nat := Z.to_nat (Z.land glyph' 0x3ff).

(** The key is found at depth [d] of the bucket [b], with position [p]. *)
Definition bucket_cached (b : Bucket) (glyph' extra_glyphs' : Z) (is_second' : bool)
    (d : nat) (p : Z * Z * Z) : Prop :=
  walk (overflow b) (head b) O glyph' extra_glyphs' is_second' = CacheHit d
  ∧ ∃ s, entry b d = Some s ∧ position s = p.

(** Two entries that the chain walk cannot tell apart. *)
Definition same_key (s s' : SpritePosition) : Prop :=
  filled s = filled s' ∧ glyph s = glyph s' ∧ extra_glyphs s = extra_glyphs s'
  ∧ is_second s = is_second s'.

(** The outcome of the chain walk of [sprite_position_for] for a key in
    the font [f]. *)
Definition find_slot (f : Font) (glyph' extra_glyphs' : Z) (is_second' : bool)
    : walk_result :=
  let b := default empty_bucket (sprite_map f !! slot_of glyph') in
  walk (overflow b) (head b) O glyph' extra_glyphs' is_second'.

(** Two entries hold the same key. *)
Definition key_eq (s s' : SpritePosition) : Prop :=
  glyph s = glyph s' ∧ extra_glyphs s = extra_glyphs s' ∧ is_second s = is_second s'.

(** The bucket at slot [idx] is in order: its filled entries come first,
    no two of them hold the same key, and each holds a glyph of this
    slot. *)
Record bucket_wf (idx : nat) (b : Bucket) : Prop := {
  wf_prefix : ∀ i j ei ej, (i ≤ j)%nat →
    entries b !! i = Some ei → entries b !! j = Some ej →
    filled ej = true → filled ei = true;
  wf_distinct : ∀ i j ei ej,
    entries b !! i = Some ei → entries b !! j = Some ej →
    filled ei = true → filled ej = true → key_eq ei ej → i = j;
  wf_home : ∀ i e, entries b !! i = Some e → filled e = true → slot_of (glyph e) = idx
}.

(** The cache of a font is in order: 1024 slots, each in order. *)
Definition font_wf (f : Font) : Prop :=
  sprite_map_ok f ∧ ∀ idx b, sprite_map f !! idx = Some b → bucket_wf idx b.

(** The key is cached in [f] at depth [d] of its slot, with position [p]:
    the chain walk of [sprite_position_for] ends in a hit there. *)
Definition cached (f : Font) (glyph' extra_glyphs' : Z) (is_second' : bool)
    (d : nat) (p : Z * Z * Z) : Prop :=
  ∃ b, sprite_map f !! slot_of glyph' = Some b
       ∧ bucket_cached b glyph' extra_glyphs' is_second' d p.

(** *** The fonts of the module and the global state *)

(** A [Font *]: the address of one of the static fonts, of an element of
    [fallback_fonts] or of an element of [symbol_map_fonts]. *)
Inductive FontPtr : Type :=
| medium_font | bold_font | italic_font | bi_font
| box_font | missing_font | blank_font
| fallback_fonts (i : nat)
| symbol_map_fonts (i : nat).

#[export] Instance FontPtr_eq_dec : EqDecision FontPtr.
Proof. solve_decision. Defined.

Record SymbolMap : Type := mkSymbolMap {
  left : Z; right : Z;      (* char_type *)
  font_idx : Z              (* size_t *)
}.

(** The file-level variables of [fonts.c]. [fonts] is the storage of all
    [Font] objects, addressed by pointer; [canvas] holds the size of the
    allocated canvas; [gpu] lists the sprites handed to
    [current_send_sprite_to_gpu]; [spf_calls] counts the calls of
    [sprite_position_for] made by the renderer, to index the outcomes of
    [calloc]. *)
Record Globals : Type := mkGlobals {
  sprite_tracker : ST.GPUSpriteTracker;
  fonts : FontPtr → Font;
  symbol_maps : list SymbolMap;
  symbol_map_fonts_count : nat;
  cell_width : Z; cell_height : Z; baseline : Z;
  underline_position : Z; underline_thickness : Z;     (* unsigned int *)
  canvas : option Z;
  gpu : list (Z * Z * Z * Z);
  spf_calls : nat
}.

Definition globals_init : Globals :=
  mkGlobals ST.sprite_tracker_init (λ _, zero_font) [] 0 0 0 0 0 0 None [] 0.

Definition set_sprite_tracker (t : ST.GPUSpriteTracker) (g : Globals) : Globals :=
  mkGlobals t (fonts g) (symbol_maps g) (symbol_map_fonts_count g)
    (cell_width g) (cell_height g) (baseline g) (underline_position g)
    (underline_thickness g) (canvas g) (gpu g) (spf_calls g).

Definition set_font_at (p : FontPtr) (f : Font) (g : Globals) : Globals :=
  mkGlobals (sprite_tracker g) (<[p := f]> (fonts g)) (symbol_maps g)
    (symbol_map_fonts_count g)
    (cell_width g) (cell_height g) (baseline g) (underline_position g)
    (underline_thickness g) (canvas g) (gpu g) (spf_calls g).

Definition set_metrics (cw ch bl up ut : Z) (g : Globals) : Globals :=
  mkGlobals (sprite_tracker g) (fonts g) (symbol_maps g) (symbol_map_fonts_count g)
    cw ch bl up ut (canvas g) (gpu g) (spf_calls g).

Definition set_cell_height (ch : Z) (g : Globals) : Globals :=
  set_metrics (cell_width g) ch (baseline g) (underline_position g)
    (underline_thickness g) g.

Definition set_underline_position (up : Z) (g : Globals) : Globals :=
  set_metrics (cell_width g) (cell_height g) (baseline g) up
    (underline_thickness g) g.

Definition set_canvas (c : option Z) (g : Globals) : Globals :=
  mkGlobals (sprite_tracker g) (fonts g) (symbol_maps g) (symbol_map_fonts_count g)
    (cell_width g) (cell_height g) (baseline g) (underline_position g)
    (underline_thickness g) c (gpu g) (spf_calls g).

Definition send_sprite_to_gpu (x y z buf : Z) (g : Globals) : Globals :=
  mkGlobals (sprite_tracker g) (fonts g) (symbol_maps g) (symbol_map_fonts_count g)
    (cell_width g) (cell_height g) (baseline g) (underline_position g)
    (underline_thickness g) (canvas g) (gpu g ++ [(x, y, z, buf)]) (spf_calls g).

Definition count_spf_call (g : Globals) : Globals :=
  mkGlobals (sprite_tracker g) (fonts g) (symbol_maps g) (symbol_map_fonts_count g)
    (cell_width g) (cell_height g) (baseline g) (underline_position g)
    (underline_thickness g) (canvas g) (gpu g) (S (spf_calls g)).

(** *** A state and error monad over the globals

    A function that returns [NULL] with a Python exception set yields
    [inl] of the exception; the globals written before the failure stay
    written. *)
Definition M (A : Type) : Type := Globals → Globals * (PyErr + A).

#[export] Instance M_ret : MRet M := λ A a g, (g, inr a).
#[export] Instance M_bind : MBind M := λ A B k c g,
  match c g with
  | (g', inr a) => k a g'
  | (g', inl e) => (g', inl e)
  end.

Definition raise {A : Type} (e : PyErr) : M A := λ g, (g, inl e).
Definition get : M Globals := λ g, (g, inr g).
Definition modify (h : Globals → Globals) : M unit := λ g, (h g, inr tt).

(** [for (i = from; fallback_fonts[i].face != NULL; i++) body(i)];
    [fallback_font] never fills the last of the 256 elements, which bounds
    the loop. *)
Fixpoint for_fallback_fonts (fuel : nat) (i : nat) (body : FontPtr → M unit) : M unit :=
  match fuel with
  | O => mret tt
  | S fuel' =>
      g ← get;
      match face (fonts g (fallback_fonts i)) with
      | None => mret tt
      | Some _ => body (fallback_fonts i);; for_fallback_fonts fuel' (S i) body
      end
  end.

(** [for (i = 0; i < symbol_map_fonts_count; i++) body(i)], with [n] the
    number of iterations left. *)
Fixpoint for_symbol_map_fonts (n : nat) (i : nat) (body : FontPtr → M unit) : M unit :=
  match n with
  | O => mret tt
  | S n' => body (symbol_map_fonts i);; for_symbol_map_fonts n' (S i) body
  end.

Section UpdateCellMetrics.

(** What the calls out of [fonts.c] answer during one call of
    [update_cell_metrics]: whether [set_size_for_face] succeeds on a
    face (for the sizes passed in), the five values [cell_metrics]
    stores for the medium face, the two line height options
    ([adjust_line_height_frac] is [None] when the option is [0.f], else
    the effect of [cell_height *= frac] on an [unsigned int]), and
    whether [malloc] of the canvas succeeds. *)
Variable set_size_for_face : Face → bool.
Variable cell_metrics : option Face → Z * Z * Z * Z * Z.
Variable adjust_line_height_px : Z.
Variable adjust_line_height_frac : option (Z → Z).
Variable malloc_ok : bool.

(** The [CALL] macro. *)
Definition CALL (p : FontPtr) : M unit :=
  g ← get;
  match face (fonts g p) with
  | Some fc =>
      if set_size_for_face fc
      then modify (set_font_at p (clear_sprite_map (fonts g p)))
      else raise FreeTypeError
  | None => mret tt
  end.

(** [update_cell_metrics] *)
Definition update_cell_metrics : M (Z * Z * Z * Z * Z) :=
  CALL medium_font;; CALL bold_font;; CALL italic_font;; CALL bi_font;;
  for_fallback_fonts 256 0 CALL;;
  g ← get;
  for_symbol_map_fonts (symbol_map_fonts_count g) 0 CALL;;
  g ← get;
  let '(cw, ch, bl, up, ut) := cell_metrics (face (fonts g medium_font)) in
  modify (set_metrics cw ch bl up ut);;
  if cw =? 0 then raise ValueError_NoCellWidth else
  (if adjust_line_height_px =? 0 then mret tt
   else modify (λ g, set_cell_height (uint (cell_height g + adjust_line_height_px)) g));;
  match adjust_line_height_frac with
  | None => mret tt
  | Some mul => modify (λ g, set_cell_height (mul (cell_height g)) g)
  end;;
  g ← get;
  if cell_height g <? 4 then raise ValueError_LineHeightTooSmall else
  if cell_height g >? 1000 then raise ValueError_LineHeightTooLarge else
  modify (λ g, set_underline_position
                 (MIN (uint (cell_height g - 1)) (underline_position g)) g);;
  modify (λ g, set_sprite_tracker
                 (ST.sprite_tracker_set_layout (cell_width g) (cell_height g)
                    (sprite_tracker g)) g);;
  g ← get;
  if malloc_ok
  then
    modify (set_canvas (Some (uint (cell_width g * cell_height g))));;
    g ← get;
    mret (cell_width g, cell_height g, baseline g, underline_position g,
          underline_thickness g)
  else
    modify (set_canvas None);; raise MemoryError.

End UpdateCellMetrics.

(** The sentinel fonts: they have no face and stand for a kind of cell. *)
Definition is_sentinel (p : FontPtr) : bool :=
  match p with
  | box_font | missing_font | blank_font => true
  | _ => false
  end.

(** The loop over [fallback_fonts] that starts at index [i] with [n]
    iterations allowed reaches index [k] in the state [g]: [k] is in range
    and every element from [i] to [k] has a face. *)
Definition fallback_reached (g : Globals) (i n k : nat) : bool :=
  bool_decide (i ≤ k < i + n)%nat
  && forallb (λ j, bool_decide (is_Some (face (fonts g (fallback_fonts j)))))
       (seq i (S k - i)).

(** The fonts [update_cell_metrics] applies [CALL] to, in the state [g] it
    starts from: the four styled fonts, the elements of [fallback_fonts]
    up to the first one without a face, and the first
    [symbol_map_fonts_count] elements of [symbol_map_fonts]. *)
Definition resized (g : Globals) (p : FontPtr) : bool :=
  match p with
  | medium_font | bold_font | italic_font | bi_font => true
  | fallback_fonts k => fallback_reached g 0 256 k
  | symbol_map_fonts i => bool_decide (i < symbol_map_fonts_count g)%nat
  | box_font | missing_font | blank_font => false
  end.

(** What a run of [update_cell_metrics] may have done to the fonts, the
    symbol maps and the renderer's bookkeeping between [g] and [g']:
    nothing, but for clearing the cache of fonts that are no sentinels and
    have a face. *)
Record resize_footprint (g g' : Globals) : Prop := {
  rf_symbol_maps : symbol_maps g' = symbol_maps g;
  rf_count : symbol_map_fonts_count g' = symbol_map_fonts_count g;
  rf_gpu : gpu g' = gpu g;
  rf_spf_calls : spf_calls g' = spf_calls g;
  rf_fonts : ∀ p,
    fonts g' p = fonts g p
    ∨ (is_sentinel p = false ∧ is_Some (face (fonts g p))
       ∧ fonts g' p = clear_sprite_map (fonts g p))
}.

(** The font at [p] after a successful [update_cell_metrics] started in
    [g]: cleared if it was reached and has a face, untouched otherwise. *)
Definition font_after_resize (g : Globals) (p : FontPtr) : Font :=
  if resized g p && bool_decide (is_Some (face (fonts g p)))
  then clear_sprite_map (fonts g p)
  else fonts g p.

(** Everything but the fonts is the same in [g] and [g']. *)
Record same_but_fonts (g g' : Globals) : Prop := {
  sbf_tracker : sprite_tracker g' = sprite_tracker g;
  sbf_symbol_maps : symbol_maps g' = symbol_maps g;
  sbf_count : symbol_map_fonts_count g' = symbol_map_fonts_count g;
  sbf_cell_width : cell_width g' = cell_width g;
  sbf_cell_height : cell_height g' = cell_height g;
  sbf_baseline : baseline g' = baseline g;
  sbf_underline_position : underline_position g' = underline_position g;
  sbf_underline_thickness : underline_thickness g' = underline_thickness g;
  sbf_canvas : canvas g' = canvas g;
  sbf_gpu : gpu g' = gpu g;
  sbf_spf_calls : spf_calls g' = spf_calls g
}.

(** The fonts of [g'] are those of [g], cleared where [S] holds and the
    font has a face; nothing else differs. *)
Definition cleared_where (S : FontPtr → bool) (g g' : Globals) : Prop :=
  same_but_fonts g g'
  ∧ ∀ p, fonts g' p
         = if S p && bool_decide (is_Some (face (fonts g p)))
           then clear_sprite_map (fonts g p) else fonts g p.

(** A computation that at most clears real fonts, whatever its outcome. *)
Definition footprint_ok {A : Type} (c : M A) : Prop :=
  ∀ g g' r, c g = (g', r) → resize_footprint g g'.

(** *** Cells, lines and the line renderer *)

(** A [Cell] of the screen ([data-types.h]): the renderer reads [ch], [cc]
    and [attrs] and writes the three sprite coordinates. *)
Record Cell : Type := mkCell {
  ch : Z;                                   (* char_type *)
  cc : Z;                                   (* combining_type *)
  attrs : Z;                                (* attrs_type *)
  sprite_x : Z; sprite_y : Z; sprite_z : Z  (* sprite_index *)
}.

(** A [Line] is its array of cells; [line->xnum] is their number. *)
Definition Line : Type := list Cell.
Definition xnum (line : Line) : Z := Z.of_nat (length line).

(** What the renderer reads of a cell. *)
Definition cell_text (cell : Cell) : Z * Z * Z := (ch cell, cc cell, attrs cell).

(** [set_sprite] *)
Definition set_sprite (x y z : Z) (cell : Cell) : Cell :=
  mkCell (ch cell) (cc cell) (attrs cell) x y z.

(** [box_glyph_id] *)
Definition box_glyph_id (ch : Z) : Z :=
  if (0x2500 <=? ch) && (ch <=? 0x257f) then ch - 0x2500
  else if ch =? 0xe0b0 then 0x80
  else if ch =? 0xe0b2 then 0x81
  else 0x82.

(** [in_symbol_maps]: the first map whose range holds [ch]. *)
Fixpoint in_symbol_maps (maps : list SymbolMap) (ch : Z) : option FontPtr :=
  match maps with
  | [] => None
  | m :: maps' =>
      if (left m <=? ch) && (ch <=? right m)
      then Some (symbol_map_fonts (Z.to_nat (font_idx m)))
      else in_symbol_maps maps' ch
  end.

(** The characters of the [case] labels of [font_for_cell] that select
    the box font. *)
Definition box_case (c : Z) : Prop :=
  0x2500 ≤ c ≤ 0x2570 ∨ 0x2574 ≤ c ≤ 0x257f ∨ c = 0xe0b0 ∨ c = 0xe0b2.

(** What [render_line] does that its caller can tell apart: the calls of
    [font_for_cell] (by the index of the cell) and the calls of
    [render_run] (by the index of the cell its first argument points to,
    its count and its font). *)
Inductive Event : Type :=
| FontForCell (i : Z)
| RenderRun (first_cell : Z) (num_cells : Z) (font : FontPtr).

#[export] Instance Event_eq_dec : EqDecision Event.
Proof. solve_decision. Defined.

Section Rendering.

(** [WIDTH_MASK] is a macro of [data-types.h]. *)
Variable WIDTH_MASK : Z.

(** The [default:] branch of [font_for_cell] after the symbol maps: the
    choice among the styled fonts and [fallback_font].  It asks FreeType
    for the coverage of each face and may call the Python fallback
    provider, which can add an element to [fallback_fonts]. *)
Variable styled_or_fallback_font : Globals → Cell → FontPtr * Globals.

(** The Python [box_drawing_function]: the address of the buffer it
    returns, or [None] when the call raises. *)
Variable box_drawing_function : Z → option Z.

(** Whether the [calloc] in the n-th call of [sprite_position_for]
    succeeds, should that call need one. *)
Variable calloc_succeeds : nat → bool.

(** [font_for_cell] *)
Definition font_for_cell (g : Globals) (cell : Cell) : FontPtr * Globals :=
  if ch cell =? 0 then (blank_font, g)
  else if ((0x2500 <=? ch cell) && (ch cell <=? 0x2570))
          || ((0x2574 <=? ch cell) && (ch cell <=? 0x257f))
          || (ch cell =? 0xe0b0) || (ch cell =? 0xe0b2)
  then (box_font, g)
  else match in_symbol_maps (symbol_maps g) (ch cell) with
       | Some ans => (ans, g)
       | None => styled_or_fallback_font g cell
       end.

(** [render_box_cell] on the cell at index [i] of the line.  A cell
    outside the array is not touched here (in C the access is
    undefined). *)
Definition render_box_cell (g : Globals) (line : Line) (i : nat) : Globals * Line :=
  match line !! i with
  | None => (g, line)
  | Some cell =>
      let glyph := uint16 (box_glyph_id (ch cell)) in
      let r := sprite_position_for (fonts g box_font) (sprite_tracker g) glyph 0 false
                 (calloc_succeeds (spf_calls g)) 0 in
      let g := count_spf_call
                 (set_sprite_tracker (spf_tracker r)
                    (set_font_at box_font (spf_font r) g)) in
      match spf_ret r with
      | None => (g, alter (set_sprite 0 0 0) i line)
      | Some ref =>
          let sp := default zeroed (deref (fonts g box_font) ref) in
          let line := alter (set_sprite (SP.x sp) (SP.y sp) (SP.z sp)) i line in
          if rendered sp then (g, line)
          else
            let g := set_font_at box_font
                       (store (fonts g box_font) ref (set_rendered true sp)) g in
            match box_drawing_function (ch cell) with
            | None => (g, line)
            | Some buf => (send_sprite_to_gpu (SP.x sp) (SP.y sp) (SP.z sp) buf g, line)
            end
      end
  end.

(** [while (num_cells--) body(first_cell++)] *)
Fixpoint for_cells (num_cells : nat) (first_cell : nat)
    (body : Globals → Line → nat → Globals * Line)
    (g : Globals) (line : Line) : Globals * Line :=
  match num_cells with
  | O => (g, line)
  | S n =>
      let '(g, line) := body g line first_cell in
      for_cells n (S first_cell) body g line
  end.

(** [render_run]; [first_cell] is the index of the cell pointed to. *)
Definition render_run (g : Globals) (line : Line) (first_cell num_cells : Z)
    (font : FontPtr) : Globals * Line :=
  match face (fonts g font) with
  | Some _ => (g, line)
  | None =>
      let each body := for_cells (Z.to_nat num_cells) (Z.to_nat first_cell) body g line in
      if decide (font = blank_font)
      then each (λ g line i, (g, alter (set_sprite 0 0 0) i line))
      else if decide (font = missing_font)
      then each (λ g line i, (g, alter (set_sprite MISSING_GLYPH 0 0) i line))
      else each render_box_cell
  end.

(** The local variables of [render_line] together with the state its
    calls act on. *)
Record LoopState : Type := mkLoop {
  run_font : option FontPtr;
  first_cell_in_run : Z;        (* index_type *)
  prev_width : Z;               (* attrs_type *)
  globals : Globals;
  cells : Line;
  trace : list Event
}.

(** One iteration of the [for] loop of [render_line], for index [i]. *)
Definition render_line_step (st : LoopState) (i : Z) : LoopState :=
  if prev_width st =? 2 then st
  else
    match cells st !! Z.to_nat i with
    | None => st
    | Some cell =>
        let '(cell_font, g) := font_for_cell (globals st) cell in
        let tr := trace st ++ [FontForCell i] in
        let prev_width' := Z.land (attrs cell) WIDTH_MASK in
        if decide (Some cell_font = run_font st)
        then mkLoop (run_font st) (first_cell_in_run st) prev_width' g (cells st) tr
        else
          let '(g, line, tr) :=
            match run_font st with
            | Some rf =>
                if i >? first_cell_in_run st
                then
                  let '(g, line) :=
                    render_run g (cells st) i (i - first_cell_in_run st) rf in
                  (g, line, tr ++ [RenderRun i (i - first_cell_in_run st) rf])
                else (g, cells st, tr)
            | None => (g, cells st, tr)
            end in
          mkLoop (Some cell_font) i prev_width' g line tr
    end.

(** The [for] loop from index [i], with [n] iterations left. *)
Fixpoint render_line_loop (n : nat) (i : Z) (st : LoopState) : LoopState :=
  match n with
  | O => st
  | S n' => render_line_loop n' (i + 1) (render_line_step st i)
  end.

(** [render_line] *)
Definition render_line (g : Globals) (line : Line) : LoopState :=
  let st := render_line_loop (length line) 0 (mkLoop None 0 0 g line []) in
  let i := xnum line in
  match run_font st with
  | Some rf =>
      if i >? first_cell_in_run st
      then
        let '(g, line') :=
          render_run (globals st) (cells st) (first_cell_in_run st)
            (i - first_cell_in_run st) rf in
        mkLoop (run_font st) (first_cell_in_run st) (prev_width st) g line'
          (trace st ++ [RenderRun (first_cell_in_run st) (i - first_cell_in_run st) rf])
      else st
  | None => st
  end.

(** The indices of the cells [render_line] selected a font for, and the
    runs it handed to [render_run]. *)
Definition fonted_cells (tr : list Event) : list Z :=
  omap (λ e, match e with FontForCell i => Some i | _ => None end) tr.

Definition rendered_runs (tr : list Event) : list (Z * Z * FontPtr) :=
  omap (λ e, match e with RenderRun c n f => Some (c, n, f) | _ => None end) tr.

(** Lines without a cell of width 2. *)
Definition narrow (line : Line) : Prop :=
  Forall (λ cell, Z.land (attrs cell) WIDTH_MASK ≠ 2) line.

(** The loop of [render_line] before index [i] of a narrow line: no cell
    is pending as the second half of a wide one, and every index below
    [i] has had its font selected. *)
Record scanned (line : Line) (i : nat) (st : LoopState) : Prop := {
  sc_width : prev_width st ≠ 2;
  sc_text : cell_text <$> cells st = cell_text <$> line;
  sc_fonted : fonted_cells (trace st) = seqZ 0 (Z.of_nat i)
}.

(** Lines whose cells all select the font [f], whatever the state. *)
Definition uniform (f : FontPtr) (line : Line) : Prop :=
  Forall (λ cell, ∀ g, font_for_cell g cell = (f, g)) line.

(** The loop of [render_line] while the first run is still open. *)
Record in_first_run (g : Globals) (line : Line) (f : FontPtr) (st : LoopState) : Prop := {
  fr_font : run_font st = Some f;
  fr_first : first_cell_in_run st = 0;
  fr_globals : globals st = g;
  fr_cells : cells st = line;
  fr_runs : rendered_runs (trace st) = []
}.

End Rendering.

(** *** [send_prerendered_sprites] *)

(** The loop over the arguments left, each the address of a rendered
    cell; [x] and [error] are the locals of these names. *)
Fixpoint send_sprites (args : list Z) (x : Z) (error : Z) (g : Globals)
    : Globals * (PyErr + Z) :=
  match args with
  | [] => (g, inr x)
  | buf :: args' =>
      let t := sprite_tracker g in
      let x := sprite_index (ST.x t) in
      let y := sprite_index (ST.y t) in
      let z := sprite_index (ST.z t) in
      let '(t', error) := ST.do_increment t error in
      let g := set_sprite_tracker t' g in
      if negb (error =? 0) then (g, inl (sprite_map_set_error error))
      else send_sprites args' x error (send_sprite_to_gpu x y z buf g)
  end.

(** [send_prerendered_sprites]; [canvas_ptr] is the address in [canvas].
    [clear_canvas] zeroes the bytes of the canvas, which the globals of
    this model do not hold. *)
Definition send_prerendered_sprites (canvas_ptr : Z) (args : list Z) : M Z := λ g,
  let error := 0 in
  let g := send_sprite_to_gpu 0 0 0 canvas_ptr g in
  let '(t', error) := ST.do_increment (sprite_tracker g) error in
  let g := set_sprite_tracker t' g in
  if negb (error =? 0) then (g, inl (sprite_map_set_error error))
  else send_sprites args 0 error g.

(** The sprite sent for the slot number [m] of the layout of [t]. *)
Definition sprite_at (t : ST.GPUSpriteTracker) (m : Z) (buf : Z) : Z * Z * Z * Z :=
  (ST.x (ST.at_slot t m), ST.y (ST.at_slot t m), ST.z (ST.at_slot t m), buf).

End Fonts.

(** ** Glyph loading and bitmap composition (freetype.c) *)

Module FreeType.

(** Values of the FreeType 2 public headers ([freetype.h]):
    [FT_LOAD_TARGET_(x)] is [(x & 15) << 16], with [FT_RENDER_MODE_NORMAL]
    0 and [FT_RENDER_MODE_LIGHT] 1, and
    [FT_LOAD_TARGET_MODE(x)] is [(x >> 16) & 15]. *)
Definition FT_LOAD_DEFAULT : Z := 0.
Definition FT_LOAD_NO_HINTING : Z := Z.shiftl 1 1.
Definition FT_LOAD_RENDER : Z := Z.shiftl 1 2.
Definition FT_RENDER_MODE_NORMAL : Z := 0.
Definition FT_RENDER_MODE_LIGHT : Z := 1.
Definition FT_LOAD_TARGET_ (x : Z) : Z := Z.shiftl (Z.land x 15) 16.
Definition FT_LOAD_TARGET_NORMAL : Z := FT_LOAD_TARGET_ FT_RENDER_MODE_NORMAL.
Definition FT_LOAD_TARGET_LIGHT : Z := FT_LOAD_TARGET_ FT_RENDER_MODE_LIGHT.
Definition FT_LOAD_TARGET_MODE (x : Z) : Z := Z.land (Z.shiftr x 16) 15.

(** [get_load_flags] *)
Definition get_load_flags (hinting hintstyle base : Z) : Z :=
  let flags := base in
  if negb (hinting =? 0) then
    if hintstyle >=? 3 then Z.lor flags FT_LOAD_TARGET_NORMAL
    else if (0 <? hintstyle) && (hintstyle <? 3) then Z.lor flags FT_LOAD_TARGET_LIGHT
    else flags
  else Z.lor flags FT_LOAD_NO_HINTING.

(** The fields of [Face] that glyph rendering reads or writes. *)
Record Face : Type := mkFace {
  hinting : Z; hintstyle : Z;                 (* int *)
  is_scalable : bool;
  char_width : Z; char_height : Z;            (* FT_F26Dot6 *)
  xdpi : Z; ydpi : Z                          (* FT_UInt *)
}.

(** The fields of [FT_Bitmap] that are read; [ft_buffer] maps an offset
    from the buffer's address to the byte stored there. *)
Record FT_Bitmap : Type := mkFTBitmap {
  ft_rows : Z; ft_width : Z;                  (* unsigned int *)
  ft_pitch : Z;                               (* int *)
  ft_buffer : Z → Z
}.

Record ProcessedBitmap : Type := mkPB {
  buf : Z → Z;
  start_x : Z; width : Z; stride : Z;         (* size_t *)
  rows : Z                                    (* size_t *)
}.

(** The bitmap of a rendered glyph holds values of its C types, and a row
    is at least as long as it is wide. *)
Record bitmap_ok (bitmap : FT_Bitmap) : Prop := {
  ok_rows : is_uint (ft_rows bitmap);
  ok_width : is_uint (ft_width bitmap);
  ok_pitch : - 2 ^ 31 < ft_pitch bitmap < 2 ^ 31;
  ok_row_length : ft_width bitmap <= Z.abs (ft_pitch bitmap)
}.

(** [*ans] as [render_bitmap] fills it from the glyph slot. *)
Definition view (bitmap : FT_Bitmap) : ProcessedBitmap :=
  mkPB (ft_buffer bitmap) 0 (ft_width bitmap)
    (if ft_pitch bitmap <? 0 then - ft_pitch bitmap else ft_pitch bitmap)
    (ft_rows bitmap).

(** The flags [load_glyph] passes to [FT_Load_Glyph]. *)
Definition load_glyph_flags (self : Face) : Z :=
  get_load_flags (hinting self) (hintstyle self) FT_LOAD_RENDER.

(** *** [trim_borders] *)

(** The inner loop over [y], from [y] with [n] rows left:
    [column_has_text] after it. *)
Fixpoint scan_column (ans : ProcessedBitmap) (x : Z) (n : nat) (y : Z)
    (column_has_text : bool) : bool :=
  match n with
  | O => column_has_text
  | S n' =>
      if column_has_text then column_has_text
      else
        let column_has_text :=
          if buf ans (size_t (x + size_t (y * stride ans))) >? 200
          then true else column_has_text in
        scan_column ans x n' (y + 1) column_has_text
  end.

(** The outer loop; [n] is [x + 1], so that [x > -1] is [n] not being
    zero.  It yields the bitmap, [extra] and [column_has_text]. *)
Fixpoint trim_loop (n : nat) (ans : ProcessedBitmap) (extra : Z)
    (column_has_text : bool) : ProcessedBitmap * Z :=
  match n with
  | O => (ans, extra)
  | S x =>
      if negb column_has_text && (extra >? 0) then
        let column_has_text :=
          scan_column ans (Z.of_nat x) (Z.to_nat (rows ans)) 0 column_has_text in
        if negb column_has_text
        then trim_loop x
               (mkPB (buf ans) (start_x ans) (size_t (width ans - 1)) (stride ans) (rows ans))
               (size_t (extra - 1)) column_has_text
        else trim_loop x ans extra column_has_text
      else (ans, extra)
  end.

Definition trim_borders (ans : ProcessedBitmap) (extra : Z) : ProcessedBitmap :=
  let x := ssize_t (width ans - 1) in
  let '(ans, extra) := trim_loop (Z.to_nat (x + 1)) ans extra false in
  mkPB (buf ans) extra (size_t (width ans - extra)) (stride ans) (rows ans).

(** *** [render_bitmap] *)

Section RenderBitmap.

(** FreeType and the float arithmetic of the rescaling branch:
    [FT_Load_Glyph] gives the bitmap of the glyph slot for the size the
    face is set to, or fails; [FT_Set_Char_Size] succeeds or not;
    [scaled v max_width width] is [(FT_F26Dot6)((float)v * ar)] for
    [ar = (float)max_width / (float)width]. *)
Variable FT_Load_Glyph : Face → Z → Z → option FT_Bitmap.
Variable FT_Set_Char_Size : Face → Z → Z → Z → Z → bool.
Variable scaled : Z → Z → Z → Z.

(** [set_font_size] *)
Definition set_font_size (self : Face) (char_width' char_height' xdpi' ydpi' : Z)
    : bool * Face :=
  if FT_Set_Char_Size self char_width' char_height' xdpi' ydpi'
  then (true, mkFace (hinting self) (hintstyle self) (is_scalable self)
                char_width' char_height' xdpi' ydpi')
  else (false, self).

(** The body of [render_bitmap], with [self_call] for its one recursive
    call (made with [rescale] false). *)
Definition render_bitmap_body
    (self_call : Face → ProcessedBitmap → bool * ProcessedBitmap * Face)
    (self : Face) (glyph_id : Z) (ans : ProcessedBitmap)
    (cell_width num_cells bold italic : Z) (rescale : bool)
    : bool * ProcessedBitmap * Face :=
  match FT_Load_Glyph self glyph_id (load_glyph_flags self) with
  | None => (false, ans, self)
  | Some bitmap =>
      let max_width := uint (cell_width * num_cells) in
      let ans := mkPB (ft_buffer bitmap) 0 (ft_width bitmap)
                   (if ft_pitch bitmap <? 0 then - ft_pitch bitmap else ft_pitch bitmap)
                   (ft_rows bitmap) in
      if width ans >? max_width then
        let extra := uint (ft_width bitmap - max_width) in
        if negb (italic =? 0) && (extra <? cell_width / 2)
        then (true, trim_borders ans extra, self)
        else if rescale && is_scalable self && (extra >? MAX 2 (cell_width / 3))
        then
          let char_width0 := char_width self in
          let char_height0 := char_height self in
          match set_font_size self
                  (scaled (char_width self) max_width (ft_width bitmap))
                  (scaled (char_height self) max_width (ft_width bitmap))
                  (xdpi self) (ydpi self) with
          | (true, self) =>
              match self_call self ans with
              | (false, ans, self) => (false, ans, self)
              | (true, ans, self) =>
                  match set_font_size self char_width0 char_height0
                          (xdpi self) (ydpi self) with
                  | (false, self) => (false, ans, self)
                  | (true, self) => (true, ans, self)
                  end
              end
          | (false, self) => (true, ans, self)
          end
        else (true, ans, self)
      else (true, ans, self)
  end.

(** [render_bitmap]: the result, [*ans] and [*self] after the call.  The
    recursive call passes [rescale] false, and with [rescale] false the
    body makes no further call. *)
Definition render_bitmap (self : Face) (glyph_id : Z) (ans : ProcessedBitmap)
    (cell_width num_cells bold italic : Z) (rescale : bool)
    : bool * ProcessedBitmap * Face :=
  render_bitmap_body
    (λ self ans,
       render_bitmap_body (λ self ans, (false, ans, self))
         self glyph_id ans cell_width num_cells bold italic false)
    self glyph_id ans cell_width num_cells bold italic rescale.

End RenderBitmap.

(** *** [place_bitmap_in_cell] *)

(** The destination buffer and the offsets stored to so far. *)
Record Canvas : Type := mkCanvas {
  mem : Z → Z;
  writes : list Z
}.

(** The inner loop over [sc] and [dc]; [n] is the number of source columns
    left, [bm->width - sc]. *)
Fixpoint blit_row (n : nat) (bm : ProcessedBitmap) (cell_width : Z)
    (sr dr sc dc : Z) (cell : Canvas) : Canvas :=
  match n with
  | O => cell
  | S n' =>
      if dc <? cell_width then
        let off := size_t (size_t (dr * cell_width) + dc) in
        let val := mem cell off in
        let val := (val + buf bm (size_t (size_t (sr * stride bm) + sc))) `mod` 256 in
        blit_row n' bm cell_width sr dr (sc + 1) (dc + 1)
          (mkCanvas (<[off := val]> (mem cell)) (writes cell ++ [off]))
      else cell
  end.

(** The outer loop over [sr] and [dr]; [n] is the number of source rows
    left, [bm->rows - sr]. *)
Fixpoint blit_rows (n : nat) (bm : ProcessedBitmap) (cell_width cell_height : Z)
    (src_start_column dest_start_column : Z) (sr dr : Z) (cell : Canvas) : Canvas :=
  match n with
  | O => cell
  | S n' =>
      if dr <? cell_height then
        blit_rows n' bm cell_width cell_height src_start_column dest_start_column
          (sr + 1) (dr + 1)
          (blit_row (Z.to_nat (width bm - src_start_column)) bm cell_width
             sr dr src_start_column dest_start_column cell)
      else cell
  end.

(** [place_bitmap_in_cell].  [xoff] and [yoff] are the values of the two
    casts to [ssize_t] of the float sums of the offsets and bearings;
    [cell_width], [cell_height] and [baseline] are [size_t]. *)
Definition place_bitmap_in_cell (cell : Z → Z) (bm : ProcessedBitmap)
    (cell_width cell_height : Z) (xoff yoff : Z) (baseline : Z) : Canvas :=
  let src_start_column := start_x bm in
  let dest_start_column := 0 in
  let '(src_start_column, dest_start_column) :=
    if xoff <? 0 then (size_t (src_start_column + size_t (- xoff)), dest_start_column)
    else (src_start_column, size_t xoff) in
  let dest_start_column :=
    if (dest_start_column >? 0) && (size_t (dest_start_column + width bm) >? cell_width)
    then
      let extra := size_t (size_t (dest_start_column + width bm) - cell_width) in
      if extra >? dest_start_column then 0 else size_t (dest_start_column - extra)
    else dest_start_column in
  let '(src_start_row, dest_start_row) :=
    if (yoff >? 0) && (size_t yoff >? baseline) then (0, 0)
    else (0, size_t (baseline - size_t yoff)) in
  blit_rows (Z.to_nat (rows bm - src_start_row)) bm cell_width cell_height
    src_start_column dest_start_column src_start_row dest_start_row
    (mkCanvas cell []).

(** *** [split_cells]

    Memory is a map from addresses to bytes; [src] and the elements of
    [cells] are the addresses the Python caller passes.  The loads go to
    the memory as the earlier stores of the same call have left it. *)

(** The loop over [x], with [n] columns left; [dest] is [cells[i] + y *
    cell_width] and [row] is [y * stride + i * cell_width]. *)
Fixpoint split_x (n : nat) (x : Z) (src dest row : Z) (memory : Z → Z) : Z → Z :=
  match n with
  | O => memory
  | S n' =>
      split_x n' (x + 1) src dest row
        (<[dest + x := memory (src + size_t (row + x))]> memory)
  end.

(** The loop over [i], through the cells left. *)
Fixpoint split_i (cells : list Z) (i : Z) (src : Z) (y stride cell_width : Z)
    (memory : Z → Z) : Z → Z :=
  match cells with
  | [] => memory
  | c :: cells' =>
      let dest := c + size_t (y * cell_width) in
      let row := size_t (size_t (y * stride) + size_t (i * cell_width)) in
      split_i cells' (i + 1) src y stride cell_width
        (split_x (Z.to_nat cell_width) 0 src dest row memory)
  end.

(** The loop over [y], with [n] rows left. *)
Fixpoint split_y (n : nat) (y : Z) (cells : list Z) (src : Z) (stride cell_width : Z)
    (memory : Z → Z) : Z → Z :=
  match n with
  | O => memory
  | S n' =>
      split_y n' (y + 1) cells src stride cell_width
        (split_i cells 0 src y stride cell_width memory)
  end.

(** [split_cells] called with [cell_width], [cell_height], [src] and the
    cells (the two sizes as the [unsigned int] they are stored in): [None]
    when it raises [ValueError], the memory after the call otherwise. *)
Definition split_cells (cell_width cell_height src : Z) (cells : list Z)
    (memory : Z → Z) : option (Z → Z) :=
  let num_cells := Z.of_nat (length cells) in
  if num_cells >? 10 then None
  else
    let stride := size_t (num_cells * cell_width) in
    Some (split_y (Z.to_nat cell_height) 0 cells src stride cell_width memory).

(** The bytes of the cells, and the byte of the source image that belongs
    at an address of a cell: column [x] of row [y] of the [i]-th cell is
    column [i * cell_width + x] of row [y] of the image. *)
Definition in_cells (cell_width cell_height : Z) (cells : list Z) (a : Z) : Prop :=
  ∃ (i : nat) (c : Z),
    cells !! i = Some c ∧ c <= a < c + cell_width * cell_height.

Definition split_target (cell_width cell_height src : Z) (cells : list Z)
    (d s : Z) : Prop :=
  ∃ (i : nat) (c y x : Z),
    cells !! i = Some c ∧ 0 <= y < cell_height ∧ 0 <= x < cell_width ∧
    d = c + (y * cell_width + x) ∧
    s = src + (y * (Z.of_nat (length cells) * cell_width) + Z.of_nat i * cell_width + x).

(** The cells overlap neither each other nor the source image, and the
    image is not larger than a [size_t] can index. *)
Record split_apart (cell_width cell_height src : Z) (cells : list Z) : Prop := {
  sa_width : 0 <= cell_width;
  sa_height : 0 <= cell_height;
  sa_size : Z.of_nat (length cells) * cell_width * cell_height <= SIZE_MAX;
  sa_cells : ∀ (i j : nat) (ci cj : Z),
    i ≠ j → cells !! i = Some ci → cells !! j = Some cj →
    ci + cell_width * cell_height <= cj ∨ cj + cell_width * cell_height <= ci;
  sa_src : ∀ (i : nat) (c : Z),
    cells !! i = Some c →
    c + cell_width * cell_height <= src
    ∨ src + Z.of_nat (length cells) * cell_width * cell_height <= c
}.

(** The memory [memory] comes from [memory0] by copies into the
    destination [D]: outside of [D] nothing has changed, and the addresses
    in [A] hold the bytes [tgt] assigns to them. *)
Definition copied (memory0 : Z → Z) (D : Z → Prop) (tgt : Z → Z → Prop)
    (A : Z → Prop) (memory : Z → Z) : Prop :=
  (∀ a, ¬ D a → memory a = memory0 a)
  ∧ (∀ d s, A d → tgt d s → memory d = memory0 s).


(** The bounds [place_bitmap_in_cell] computes before its loops: the first
    source column, the first destination column and the first destination
    row. *)
Definition src_start_column (bm : ProcessedBitmap) (xoff : Z) : Z :=
  if xoff <? 0 then size_t (start_x bm + size_t (- xoff)) else start_x bm.

Definition dest_start_column (bm : ProcessedBitmap) (cell_width xoff : Z) : Z :=
  let dest_start_column := if xoff <? 0 then 0 else size_t xoff in
  if (dest_start_column >? 0) && (size_t (dest_start_column + width bm) >? cell_width)
  then
    let extra := size_t (size_t (dest_start_column + width bm) - cell_width) in
    if extra >? dest_start_column then 0 else size_t (dest_start_column - extra)
  else dest_start_column.

Definition dest_start_row (yoff baseline : Z) : Z :=
  if (yoff >? 0) && (size_t yoff >? baseline) then 0
  else size_t (baseline - size_t yoff).

(** The sizes and the strides of the buffers are such that no index
    computation of the loops of [place_bitmap_in_cell] wraps around. *)
Record blit_fits (bm : ProcessedBitmap) (cell_width cell_height : Z) : Prop := {
  bf_dest : cell_width * cell_height <= SIZE_MAX;
  bf_start : 0 <= start_x bm;
  bf_rows : 0 <= rows bm;
  bf_stride : 0 <= stride bm;
  bf_src : rows bm * stride bm + width bm <= SIZE_MAX
}.

End FreeType.

(** ** The specification's wording of some operations

    These definitions follow the text of the specification, not the code;
    the theorems below compare them with the code. *)

Module Spec.

(** "[x++]; if [x == xnum], reset [x=0], [y++], and expand
    [ynum = min(max(ynum, y+1), max_y)]; if [y == max_y], reset [y=0],
    [z++], and if [z ≥ min(limit, max_array_len)] signal atlas-full",
    over unbounded integers.  The specification has [limit = 65536]. *)
Definition increment (limit : Z) (t : ST.GPUSpriteTracker) (error : Z)
    : ST.GPUSpriteTracker * Z :=
  let x1 := ST.x t + 1 in
  if x1 =? ST.xnum t then
    let y1 := ST.y t + 1 in
    let ynum1 := Z.min (Z.max (ST.ynum t) (y1 + 1)) (ST.max_y t) in
    if y1 =? ST.max_y t then
      let z1 := ST.z t + 1 in
      (ST.mkTracker (ST.max_array_len t) (ST.max_texture_size t) (ST.max_y t)
         0 0 z1 (ST.xnum t) ynum1,
       if Z.min limit (ST.max_array_len t) <=? z1 then 2 else error)
    else
      (ST.mkTracker (ST.max_array_len t) (ST.max_texture_size t) (ST.max_y t)
         0 y1 (ST.z t) (ST.xnum t) ynum1, error)
  else
    (ST.mkTracker (ST.max_array_len t) (ST.max_texture_size t) (ST.max_y t)
       x1 (ST.y t) (ST.z t) (ST.xnum t) (ST.ynum t), error).

(** "Layout coherence": [xnum × w ≤ max_texture_size] and
    [max_y × h ≤ max_texture_size]. *)
Definition layout_coherent (t : ST.GPUSpriteTracker) (w h : Z) : Prop :=
  ST.xnum t * w <= ST.max_texture_size t ∧ ST.max_y t * h <= ST.max_texture_size t.

(** "[NORMAL] target if [hintstyle ≥ 3], [LIGHT] if [0 < hintstyle < 3],
    [NO_HINTING] otherwise": the flag added to [base]. *)
Definition load_flags (hintstyle base : Z) : Z :=
  if 3 <=? hintstyle then Z.lor base FreeType.FT_LOAD_TARGET_NORMAL
  else if (0 <? hintstyle) && (hintstyle <? 3)
       then Z.lor base FreeType.FT_LOAD_TARGET_LIGHT
  else Z.lor base FreeType.FT_LOAD_NO_HINTING.

(** "A column is empty if no sample exceeds intensity 200": column [x] of
    a bitmap of [rows] rows, [stride] bytes apart. *)
Definition column_empty (buf : Z → Z) (stride rows : Z) (x : Z) : bool :=
  forallb (λ y, buf (x + y * stride) <=? 200) (seqZ 0 rows).

(** The number of empty columns at the right-hand end of the first [n]
    columns. *)
Fixpoint trailing_empty (buf : Z → Z) (stride rows : Z) (n : nat) : nat :=
  match n with
  | O => O
  | S x =>
      if column_empty buf stride rows (Z.of_nat x)
      then S (trailing_empty buf stride rows x)
      else O
  end.

(** "Trim right-hand empty columns up to [extra] pixels": the number of
    columns trimmed. *)
Definition trimmed_columns (bm : FreeType.ProcessedBitmap) (extra : Z) : Z :=
  Z.min extra
    (Z.of_nat (trailing_empty (FreeType.buf bm) (FreeType.stride bm) (FreeType.rows bm)
                 (Z.to_nat (FreeType.width bm)))).

(** "Composition bounds": the offset [off] lies in the destination of
    [total_width × cell_h] bytes, at row [dr] and column [dc]. *)
Definition in_destination (total_width cell_h : Z) (off : Z) : Prop :=
  ∃ dr dc, 0 <= dr < cell_h ∧ 0 <= dc < total_width
           ∧ off = dr * total_width + dc ∧ 0 <= off < total_width * cell_h.

End Spec.

(** ** Concrete states used as examples *)

Module Examples.

(** One slot per layer, the cursor on the last slot of layer 65534, and
    more layers allowed than 16 bits can count. *)
Definition tracker_near_cap : ST.GPUSpriteTracker :=
  ST.mkTracker 100000 1000 1 0 0 65534 1 1.

(** A texture of 4 pixels, smaller than a cell. *)
Definition tracker_tiny_texture : ST.GPUSpriteTracker :=
  ST.sprite_tracker_set_limits 4 2 ST.sprite_tracker_init.

(** [sprite_map_set_limits(16, 2)] then [sprite_map_set_layout(8, 8)]:
    two columns, two rows, two layers. *)
Definition atlas_16_2 : ST.GPUSpriteTracker :=
  ST.sprite_tracker_set_layout 8 8
    (ST.sprite_tracker_set_limits 16 2 ST.sprite_tracker_init).

(** Successive calls of [test_sprite_position_for], one per glyph, every
    [calloc] succeeding.  For each call: the position in the slot
    [sprite_position_for] returned ([None] for [NULL]), the value it left
    in [*error] (0 on entry), and what [test_sprite_position_for] hands
    back to Python. *)
Fixpoint allocate (glyphs : list Z) (f : Fonts.Font) (t : ST.GPUSpriteTracker)
    : list (option (Z * Z * Z) * Z * (Fonts.PyErr + Z * Z * Z)) :=
  match glyphs with
  | [] => []
  | gl :: glyphs' =>
      let r := Fonts.sprite_position_for f t gl 0 false true 0 in
      (SP.position <$> (Fonts.spf_ret r ≫= Fonts.deref (Fonts.spf_font r)),
       Fonts.spf_error r,
       (Fonts.test_sprite_position_for f t gl 0 true 0).1.1)
      :: allocate glyphs' (Fonts.spf_font r) (Fonts.spf_tracker r)
  end.

(** Glyph 5 cached in an empty font, then glyph 5 + 1024, which shares its
    slot. *)
Definition font_with_5 : Fonts.Font :=
  Fonts.spf_font (Fonts.sprite_position_for Fonts.zero_font atlas_16_2 5 0 false true 0).

Definition font_with_5_and_1029 : Fonts.Font :=
  Fonts.spf_font
    (Fonts.sprite_position_for font_with_5
       (Fonts.spf_tracker
          (Fonts.sprite_position_for Fonts.zero_font atlas_16_2 5 0 false true 0))
       1029 0 false true 0).

(** *** Lines and fonts for the renderer *)

(** [WIDTH_MASK] selects the two low bits of [attrs]. *)
Definition WIDTH_MASK : Z := 3.

(** Every cell of text is covered by the medium font. *)
Definition medium_for_text (g : Fonts.Globals) (cell : Fonts.Cell)
    : Fonts.FontPtr * Fonts.Globals :=
  (Fonts.medium_font, g).

(** The box painter returns a buffer at address 4096. *)
Definition box_painter (ch : Z) : option Z := Some 4096.

Definition render_line (g : Fonts.Globals) (line : Fonts.Line) : Fonts.LoopState :=
  Fonts.render_line WIDTH_MASK medium_for_text box_painter (λ _, true) g line.

(** A cell with the given character and width, its sprite still unset
    (marked by 9s). *)
Definition cell_of (ch width : Z) : Fonts.Cell := Fonts.mkCell ch 0 width 9 9 9.

(** [set_font] with only a medium face, as far as the fonts go. *)
Definition globals_medium : Fonts.Globals :=
  Fonts.set_font_at Fonts.medium_font
    (Fonts.mkFont (Some 1%nat) (Some 1%nat)
       (Fonts.sprite_map Fonts.zero_font) false false)
    Fonts.globals_init.

(** [update_cell_metrics] when FreeType accepts every size, no line height
    adjustment is configured, [malloc] succeeds, and the medium face has
    cells [cw] wide and [ch] high. *)
Definition update_cell_metrics (cw ch : Z) : Fonts.M (Z * Z * Z * Z * Z) :=
  Fonts.update_cell_metrics (λ _, true) (λ _, (cw, ch, ch - 2, ch - 1, 1)) 0 None true.

(** After [set_font] with 8 x 8 cells. *)
Definition globals_8x8 : Fonts.Globals := (update_cell_metrics 8 8 globals_medium).1.

(** A wide character, its right half, and a narrow character. *)
Definition line_wide_then_narrow : Fonts.Line :=
  [cell_of 0x4e2d 2; cell_of 0 0; cell_of 0x41 1].

(** A box drawing character followed by a letter. *)
Definition line_box_then_text : Fonts.Line :=
  [cell_of 0x2500 1; cell_of 0x41 1].

(** A line with one box drawing character, rendered with 8 x 8 cells. *)
Definition globals_box_rendered : Fonts.Globals :=
  Fonts.globals (render_line globals_8x8 [cell_of 0x2500 1]).

(** On top of that, glyph 65 of the medium font cached by
    [sprite_position_for]. *)
Definition globals_two_caches : Fonts.Globals :=
  let g := globals_box_rendered in
  let r := Fonts.sprite_position_for (Fonts.fonts g Fonts.medium_font)
             (Fonts.sprite_tracker g) 65 0 false true 0 in
  Fonts.set_sprite_tracker (Fonts.spf_tracker r)
    (Fonts.set_font_at Fonts.medium_font (Fonts.spf_font r) g).

(** The globals after [update_cell_metrics] found cells 16 high, and after
    it found cells 0 wide. *)
Definition globals_resized : Fonts.Globals :=
  (update_cell_metrics 8 16 globals_two_caches).1.

Definition globals_rejected : Fonts.Globals :=
  (update_cell_metrics 0 16 globals_two_caches).1.

(** *** Faces and bitmaps *)

Definition face_hinted (hinting hintstyle : Z) : FreeType.Face :=
  FreeType.mkFace hinting hintstyle true 640 640 96 96.

(** A bitmap of one row and five columns whose last column is inked. *)
Definition bitmap_inked_right : FreeType.FT_Bitmap :=
  FreeType.mkFTBitmap 1 5 5 (λ off, nth (Z.to_nat off) [0; 0; 0; 0; 255] 0).

(** A bitmap of two rows and six columns, rows eight bytes apart, whose
    last two columns are blank. *)
Definition bitmap_blank_right : FreeType.FT_Bitmap :=
  FreeType.mkFTBitmap 2 6 8
    (λ off, nth (Z.to_nat off) [0; 90; 255; 201; 7; 0; 0; 0;
                                30; 255; 255; 10; 200; 0; 0; 0] 0).

(** [render_bitmap] when FreeType renders every glyph as [bitmap] and
    accepts every size. *)
Definition render_bitmap (bitmap : FreeType.FT_Bitmap) (cell_width num_cells italic : Z)
    : bool * FreeType.ProcessedBitmap * FreeType.Face :=
  FreeType.render_bitmap (λ _ _ _, Some bitmap) (λ _ _ _ _ _, true) (λ v _ _, v)
    (face_hinted 1 3) 65 (FreeType.mkPB (λ _, 0) 0 0 0 0)
    cell_width num_cells 0 italic true.

(** A blank canvas, and the composition of [bitmap_blank_right] into a
    canvas 5 wide and 3 high with the given offsets and baseline 1. *)
Definition blank_canvas : Z → Z := λ _, 0.

Definition place_blank_right (xoff yoff : Z) : FreeType.Canvas :=
  FreeType.place_bitmap_in_cell blank_canvas (FreeType.view bitmap_blank_right)
    5 3 xoff yoff 1.

End Examples.

(** * Properties *)

(** ** Machine arithmetic *)

Lemma uint_small (v : Z) : 0 <= v <= UINT_MAX → uint v = v.
Proof. unfold uint, UINT_MAX. intros. apply Z.mod_small. lia. Qed.

Lemma size_t_small (v : Z) : 0 <= v <= SIZE_MAX → size_t v = v.
Proof. unfold size_t, SIZE_MAX. intros. apply Z.mod_small. lia. Qed.

Lemma size_t_range (v : Z) : 0 <= size_t v <= SIZE_MAX.
Proof.
  unfold size_t, SIZE_MAX.
  pose proof (Z.mod_pos_bound v (2 ^ 64) ltac:(lia)). lia.
Qed.

Lemma size_t_nonneg (v : Z) : 0 <= size_t v.
Proof. apply size_t_range. Qed.

Lemma MIN_spec (a b : Z) : MIN a b = Z.min a b.
Proof. unfold MIN. destruct (Z.ltb_spec a b); lia. Qed.

Lemma MAX_spec (a b : Z) : MAX a b = Z.max a b.
Proof. unfold MAX. rewrite Z.gtb_ltb. destruct (Z.ltb_spec b a); lia. Qed.

(** ** The sprite tracker *)

(** C2 (as amended): on a tracker whose fields hold values of their C types,
    with [x < xnum], [y < max_y] and no [unsigned int] about to wrap,
    [do_increment] is the advance the specification describes, with the cap
    [min(65535, max_array_len)] on [z]: [x] is incremented; when it reaches
    [xnum] it is reset, [y] is incremented and
    [ynum = min(max(ynum, y+1), max_y)]; when [y] reaches [max_y] it is
    reset, [z] is incremented, and [*error] becomes 2 exactly when the new
    [z] is at least [min(65535, max_array_len)]; [*error] is untouched in
    every other case. *)
Theorem C2_do_increment_advances (t : ST.GPUSpriteTracker) (error : Z) :
  ST.well_typed t → ST.x t < ST.xnum t → ST.y t < ST.max_y t → ST.no_wrap t →
  ST.do_increment t error = Spec.increment UINT16_MAX t error.
Proof.
  intros [Hal Hts Hmy Hx Hy Hz Hxn Hyn] Hxlt Hylt [Hmy' Hz'].
  unfold is_uint, is_size_t, UINT_MAX, SIZE_MAX in *.
  unfold ST.do_increment, Spec.increment.
  cbn [ST.x ST.y ST.z ST.xnum ST.ynum ST.max_y ST.max_array_len
       ST.max_texture_size ST.set_x ST.set_y ST.set_z ST.set_ynum].
  rewrite !MIN_spec, !MAX_spec.
  rewrite (uint_small (ST.x t + 1)) by (unfold UINT_MAX; lia).
  rewrite (uint_small (ST.y t + 1)) by (unfold UINT_MAX; lia).
  rewrite (uint_small (ST.y t + 1 + 1)) by (unfold UINT_MAX; lia).
  rewrite (uint_small (ST.z t + 1)) by (unfold UINT_MAX; lia).
  rewrite (uint_small (Z.min _ _)) by (unfold UINT_MAX; lia).
  rewrite !Z.geb_leb.
  destruct (Z.leb_spec (ST.xnum t) (ST.x t + 1)),
           (Z.eqb_spec (ST.x t + 1) (ST.xnum t)); try lia; [|reflexivity].
  destruct (Z.leb_spec (ST.max_y t) (ST.y t + 1)),
           (Z.eqb_spec (ST.y t + 1) (ST.max_y t)); try lia; [|reflexivity].
  destruct (_ <=? _); reflexivity.
Qed.

Lemma tracker_near_cap_well_typed : ST.well_typed Examples.tracker_near_cap.
Proof. split; cbn; unfold is_uint, is_size_t, UINT_MAX, SIZE_MAX; lia. Qed.

(** The advance out of the last slot of layer 65534. *)
Lemma C2_do_increment_advances_witness :
  ST.do_increment Examples.tracker_near_cap 0
  = Spec.increment UINT16_MAX Examples.tracker_near_cap 0.
Proof.
  apply (C2_do_increment_advances Examples.tracker_near_cap 0).
  - split; cbn; unfold is_uint, is_size_t, UINT_MAX, SIZE_MAX; lia.
  - cbn; lia.
  - cbn; lia.
  - split; cbn; unfold UINT_MAX; lia.
Defined.

(** C2 (as stated) fails: with the cap written [min(65536, max_array_len)],
    the advance of the specification does not signal atlas-full when [z]
    becomes 65535 under a larger [max_array_len], and [do_increment] does. *)
Lemma C2_cap_65536_counterexample :
  ST.well_typed Examples.tracker_near_cap
  ∧ ST.x Examples.tracker_near_cap < ST.xnum Examples.tracker_near_cap
  ∧ ST.y Examples.tracker_near_cap < ST.max_y Examples.tracker_near_cap
  ∧ snd (ST.do_increment Examples.tracker_near_cap 0) = 2
  ∧ snd (Spec.increment 65536 Examples.tracker_near_cap 0) = 0
  ∧ ST.do_increment Examples.tracker_near_cap 0
    ≠ Spec.increment 65536 Examples.tracker_near_cap 0.
Proof.
  split; [apply tracker_near_cap_well_typed|].
  repeat split; try (cbn; lia); try reflexivity.
  vm_compute. discriminate.
Qed.

(** C7 (as amended): for a cell no wider and no taller than the texture,
    [sprite_tracker_set_layout(w, h)] leaves [xnum × w ≤ max_texture_size]
    and [max_y × h ≤ max_texture_size]. *)
Theorem C7_set_layout_coherent (t : ST.GPUSpriteTracker) (w h : Z) :
  0 < w <= ST.max_texture_size t → 0 < h <= ST.max_texture_size t →
  Spec.layout_coherent (ST.sprite_tracker_set_layout w h t) w h.
Proof.
  intros Hw Hh. unfold Spec.layout_coherent, ST.sprite_tracker_set_layout.
  cbn [ST.x ST.y ST.z ST.xnum ST.ynum ST.max_y ST.max_array_len
       ST.max_texture_size ST.set_x ST.set_y ST.set_z ST.set_ynum
       ST.set_xnum ST.set_max_y].
  rewrite !MIN_spec, !MAX_spec.
  set (m := ST.max_texture_size t) in *.
  assert (Hqw : 1 <= m / w) by (apply Z.div_le_lower_bound; lia).
  assert (Hqh : 1 <= m / h) by (apply Z.div_le_lower_bound; lia).
  assert (Hmw : w * (m / w) <= m) by (apply Z.mul_div_le; lia).
  assert (Hmh : h * (m / h) <= m) by (apply Z.mul_div_le; lia).
  rewrite uint_small by (unfold UINT16_MAX, UINT_MAX; lia).
  unfold UINT16_MAX. split; nia.
Qed.

(** 8 x 16 cells in the default 1000 x 1000 texture. *)
Lemma C7_set_layout_coherent_witness :
  Spec.layout_coherent
    (ST.sprite_tracker_set_layout 8 16 ST.sprite_tracker_init) 8 16.
Proof.
  apply (C7_set_layout_coherent ST.sprite_tracker_init 8 16); cbn; lia.
Defined.

(** C7 (as stated) fails: a cell wider than the texture still gets one
    column, [xnum = 1], so [xnum × w] exceeds [max_texture_size]. *)
Lemma C7_cell_wider_than_texture_counterexample :
  ¬ Spec.layout_coherent
      (ST.sprite_tracker_set_layout 8 8 Examples.tracker_tiny_texture) 8 8.
Proof. unfold Spec.layout_coherent. vm_compute. intros [H _]. apply H. reflexivity. Qed.

(** ** The sprite cache *)

Section CacheFacts.

Import SP Fonts.

Implicit Types (s e : SpritePosition) (rest : list SpritePosition) (b : Bucket)
  (f : Font) (t : ST.GPUSpriteTracker) (gl ex : Z) (sec : bool).

Lemma walk_unfold rest s d gl ex sec :
  walk rest s d gl ex sec =
  if filled s then
    if key_matches s gl ex sec then CacheHit d
    else match rest with
         | [] => ChainEnd d
         | s' :: rest' => walk rest' s' (S d) gl ex sec
         end
  else Unfilled d.
Proof. destruct rest; reflexivity. Qed.

Lemma walk_depth_ge rest : ∀ s d gl ex sec,
  (d ≤ depth_of (walk rest s d gl ex sec))%nat.
Proof.
  induction rest as [|s' rest IH]; intros s d gl ex sec; rewrite walk_unfold.
  - destruct (filled s), (key_matches s gl ex sec); cbn; lia.
  - destruct (filled s); [|cbn; lia].
    destruct (key_matches s gl ex sec); [cbn; lia|].
    specialize (IH s' (S d) gl ex sec). lia.
Qed.

(** A hit or an unfilled slot lies within the chain; the chain end is its
    last node. *)
Lemma walk_entry rest : ∀ s d gl ex sec d',
  walk rest s d gl ex sec = CacheHit d'
  ∨ walk rest s d gl ex sec = Unfilled d' →
  ∃ e, (s :: rest) !! (d' - d)%nat = Some e.
Proof.
  induction rest as [|s' rest IH]; intros s d gl ex sec d'; rewrite walk_unfold.
  - destruct (filled s), (key_matches s gl ex sec); intros [H|H]; inversion H; subst;
      rewrite Nat.sub_diag; eauto.
  - destruct (filled s).
    + destruct (key_matches s gl ex sec).
      * intros [H|H]; inversion H; subst. rewrite Nat.sub_diag; eauto.
      * intros H. pose proof (walk_depth_ge rest s' (S d) gl ex sec) as Hge.
        destruct (IH _ _ _ _ _ _ H) as [e He]. exists e.
        assert (S d ≤ d')%nat by (destruct H as [H|H]; rewrite H in Hge; exact Hge).
        replace (d' - d)%nat with (S (d' - S d)) by lia. exact He.
    + intros [H|H]; inversion H; subst. rewrite Nat.sub_diag; eauto.
Qed.

Lemma walk_chain_end rest : ∀ s d gl ex sec d',
  walk rest s d gl ex sec = ChainEnd d' →
  d' = (d + length rest)%nat.
Proof.
  induction rest as [|s' rest IH]; intros s d gl ex sec d'; rewrite walk_unfold.
  - destruct (filled s), (key_matches s gl ex sec); intros H; inversion H; cbn; lia.
  - destruct (filled s), (key_matches s gl ex sec); intros H; try discriminate.
    apply IH in H. cbn. lia.
Qed.

(** After a claim at the unfilled depth, or at a freshly appended node, the
    key is found there. *)
Lemma walk_unfilled_claim rest : ∀ s d gl ex sec d' t,
  walk rest s d gl ex sec = Unfilled d' →
  let es := <[(d' - d)%nat := claim gl ex sec t]> (s :: rest) in
  ∃ s1 rest1, es = s1 :: rest1
    ∧ walk rest1 s1 d gl ex sec = CacheHit d'.
Proof.
  assert (Hself : ∀ gl ex sec t,
    key_matches (claim gl ex sec t) gl ex sec = true).
  { intros. unfold key_matches, claim; cbn. rewrite !Z.eqb_refl, eqb_reflx. done. }
  induction rest as [|s' rest IH]; intros s d gl ex sec d' t; rewrite walk_unfold.
  - destruct (filled s) eqn:Hf; [destruct (key_matches s gl ex sec); discriminate|].
    intros H; inversion H; subst. rewrite Nat.sub_diag. cbn.
    eexists _, _. split; [reflexivity|]. rewrite walk_unfold. cbn. by rewrite Hself.
  - destruct (filled s) eqn:Hf.
    + destruct (key_matches s gl ex sec) eqn:Hk; [discriminate|].
      intros H. pose proof (walk_depth_ge rest s' (S d) gl ex sec) as Hge.
      rewrite H in Hge. cbn in Hge.
      destruct (IH _ _ _ _ _ _ t H) as (s1 & rest1 & Hes & Hw).
      replace (d' - d)%nat with (S (d' - S d)) by lia.
      change (<[S (d' - S d) := ?c]> (?a :: ?l)) with (a :: <[(d' - S d)%nat := c]> l).
      cbv zeta in Hes. rewrite Hes.
      eexists _, _. split; [reflexivity|].
      rewrite walk_unfold, Hf, Hk. exact Hw.
    + intros H; inversion H; subst. rewrite Nat.sub_diag. cbn.
      eexists _, _. split; [reflexivity|]. rewrite walk_unfold. cbn. by rewrite Hself.
Qed.

Lemma walk_chain_end_claim rest : ∀ s d gl ex sec d' t,
  walk rest s d gl ex sec = ChainEnd d' →
  walk (<[(d' - d)%nat := claim gl ex sec t]> (rest ++ [zeroed]))
    s d gl ex sec = CacheHit (S d').
Proof.
  assert (Hself : ∀ gl ex sec t,
    key_matches (claim gl ex sec t) gl ex sec = true).
  { intros. unfold key_matches, claim; cbn. rewrite !Z.eqb_refl, eqb_reflx. done. }
  induction rest as [|s' rest IH]; intros s d gl ex sec d' t; rewrite walk_unfold.
  - destruct (filled s) eqn:Hf; [|discriminate].
    destruct (key_matches s gl ex sec) eqn:Hk; [discriminate|].
    intros H; inversion H; subst. rewrite Nat.sub_diag. cbn.
    rewrite Hf, Hk. by rewrite Hself.
  - destruct (filled s) eqn:Hf; [|discriminate].
    destruct (key_matches s gl ex sec) eqn:Hk; [discriminate|].
    intros H. pose proof (walk_chain_end _ _ _ _ _ _ _ H) as Hd.
    replace (d' - d)%nat with (S (d' - S d)) by lia.
    cbn [app]. rewrite walk_unfold, Hf, Hk.
    change (<[S (d' - S d) := ?c]> (?a :: ?l)) with (a :: <[(d' - S d)%nat := c]> l).
    by apply IH.
Qed.

(** A hit is not disturbed by what happens deeper in the chain. *)
Lemma walk_hit_insert rest : ∀ s d gl ex sec d' j e,
  walk rest s d gl ex sec = CacheHit d' → (d' < d + S j)%nat →
  walk (<[j := e]> rest) s d gl ex sec = CacheHit d'.
Proof.
  induction rest as [|s' rest IH]; intros s d gl ex sec d' j e; [done|].
  intros H Hlt. destruct j as [|j]; cbn [walk insert list_insert] in *;
    destruct (filled s); try done; destruct (key_matches s gl ex sec); try done.
  - pose proof (walk_depth_ge rest s' (S d) gl ex sec) as Hge.
    rewrite H in Hge. cbn in Hge. lia.
  - apply IH; [done|lia].
Qed.

Lemma walk_hit_app rest : ∀ s d gl ex sec d' l,
  walk rest s d gl ex sec = CacheHit d' →
  walk (rest ++ l) s d gl ex sec = CacheHit d'.
Proof.
  induction rest as [|s' rest IH]; intros s d gl ex sec d' l.
  - rewrite !walk_unfold. destruct (filled s); [|done].
    by destruct (key_matches s gl ex sec).
  - cbn [walk app]. destruct (filled s); [|done].
    destruct (key_matches s gl ex sec); [done|]. apply IH.
Qed.

(** The slot another key would claim lies beyond every hit. *)
Lemma walk_hit_before_unfilled rest : ∀ s d gl ex sec gl2 ex2 sec2 d1 d2,
  walk rest s d gl ex sec = CacheHit d1 →
  walk rest s d gl2 ex2 sec2 = Unfilled d2 → (d1 < d2)%nat.
Proof.
  induction rest as [|s' rest IH]; intros s d gl ex sec gl2 ex2 sec2 d1 d2;
    cbn [walk].
  - destruct (filled s); [|done].
    destruct (key_matches s gl ex sec), (key_matches s gl2 ex2 sec2); done.
  - destruct (filled s); [|done].
    destruct (key_matches s gl2 ex2 sec2); [by destruct (key_matches s gl ex sec)|].
    destruct (key_matches s gl ex sec).
    + intros H1 H2. inversion H1; subst.
      pose proof (walk_depth_ge rest s' (S d1) gl2 ex2 sec2) as Hge.
      rewrite H2 in Hge. cbn in Hge. lia.
    + apply IH.
Qed.

(** The walk reads [filled] and the key of an entry, nothing else. *)
Lemma walk_same_key rest : ∀ rest' s s' d gl ex sec,
  same_key s s' → Forall2 same_key rest rest' →
  walk rest s d gl ex sec = walk rest' s' d gl ex sec.
Proof.
  induction rest as [|r rest IH]; intros rest' s s' d gl ex sec (Hf & Hg & He & Hs) HF;
    inversion HF; subst; cbn [walk]; unfold key_matches;
    rewrite Hf, Hg, He, Hs; [done|].
  destruct (filled s'); [|done].
  destruct (_ && _); [done|]. by apply IH.
Qed.

Lemma same_key_refl s : same_key s s.
Proof. done. Qed.

Lemma same_key_set_rendered s flag : same_key (set_rendered flag s) s.
Proof. done. Qed.

Lemma bucket_cached_depth b gl ex sec d p :
  bucket_cached b gl ex sec d p → (d ≤ length (overflow b))%nat.
Proof.
  intros [Hw _].
  destruct (walk_entry _ _ _ _ _ _ _ (or_introl Hw)) as [e He].
  apply lookup_lt_Some in He. cbn in He. lia.
Qed.

Lemma entry_set_entry_ne b d d' s : d ≠ d' → entry (set_entry b d' s) d = entry b d.
Proof.
  intros Hne. destruct d as [|d], d' as [|d']; cbn; try done.
  apply list_lookup_insert_ne. congruence.
Qed.

(** A claim by another key leaves a cached key where it is. *)
Lemma bucket_cached_claim_unfilled b gl ex sec d p gl2 ex2 sec2 d2 c :
  bucket_cached b gl ex sec d p →
  walk (overflow b) (head b) O gl2 ex2 sec2 = Unfilled d2 →
  bucket_cached (set_entry b d2 c) gl ex sec d p.
Proof.
  intros [Hw Hs] Hu. pose proof (walk_hit_before_unfilled _ _ _ _ _ _ _ _ _ _ _ Hw Hu) as Hlt.
  destruct d2 as [|j]; [lia|]. split.
  - cbn. apply walk_hit_insert; [done|lia].
  - rewrite entry_set_entry_ne by lia. done.
Qed.

Lemma bucket_cached_claim_end b gl ex sec d p d2 c :
  bucket_cached b gl ex sec d p → d2 = length (overflow b) →
  bucket_cached (set_entry (mkBucket (head b) (overflow b ++ [zeroed])) (S d2) c)
    gl ex sec d p.
Proof.
  intros Hc ->. pose proof (bucket_cached_depth _ _ _ _ _ _ Hc) as Hle.
  destruct Hc as [Hw (s & Hs & Hp)]. split.
  - cbn. apply walk_hit_insert; [|lia]. by apply walk_hit_app.
  - exists s. split; [|done]. destruct d as [|d]; [done|]. cbn in *.
    rewrite list_lookup_insert_ne by lia.
    rewrite lookup_app_l; [done|]. by eapply lookup_lt_Some.
Qed.

Lemma bucket_cached_rendered b gl ex sec d p d2 s2 flag :
  bucket_cached b gl ex sec d p → entry b d2 = Some s2 →
  bucket_cached (set_entry b d2 (set_rendered flag s2)) gl ex sec d p.
Proof.
  intros [Hw (s & Hs & Hp)] H2. split.
  - rewrite <- Hw. destruct d2 as [|j]; cbn in *.
    + apply walk_same_key; [inversion H2; apply same_key_set_rendered|].
      apply Forall2_same_length_lookup_2; [done|]. intros; simplify_eq; done.
    + apply walk_same_key; [done|].
      rewrite <- (list_insert_id (overflow b) j s2) at 2 by done.
      apply Forall2_insert; [|apply same_key_set_rendered].
      apply Forall2_same_length_lookup_2; [done|]. intros; simplify_eq; done.
  - destruct (decide (d = d2)) as [->|Hne].
    + exists (set_rendered flag s2). rewrite H2 in Hs. inversion Hs; subst.
      split; [|done]. destruct d2 as [|j]; cbn in *; [done|].
      apply list_lookup_insert_eq. by eapply lookup_lt_Some.
    + exists s. by rewrite entry_set_entry_ne.
Qed.

(** [sprite_position_for] by the outcome of the chain walk: the fast path
    is the hit at depth 0. *)
Lemma sprite_position_for_walk f t gl ex sec (calloc_ok : bool) (error : Z) b :
  sprite_map f !! slot_of gl = Some b →
  sprite_position_for f t gl ex sec calloc_ok error =
  match walk (overflow b) (head b) O gl ex sec with
  | CacheHit d => mkSpf (Some (slot_of gl, d)) f t error
  | Unfilled d =>
      mkSpf (Some (slot_of gl, d))
        (set_sprite_map
           (<[slot_of gl := set_entry b d (claim gl ex sec t)]> (sprite_map f)) f)
        (ST.do_increment t error).1 (ST.do_increment t error).2
  | ChainEnd d =>
      if calloc_ok then
        mkSpf (Some (slot_of gl, S d))
          (set_sprite_map
             (<[slot_of gl := set_entry (mkBucket (head b) (overflow b ++ [zeroed])) (S d)
                                (claim gl ex sec t)]> (sprite_map f)) f)
          (ST.do_increment t error).1 (ST.do_increment t error).2
      else mkSpf None f t 1
  end.
Proof.
  intros Hb. unfold sprite_position_for. fold (slot_of gl). rewrite Hb.
  change (default empty_bucket (Some b)) with b.
  destruct (ST.do_increment t error) as [t' error'] eqn:Hinc. cbn [fst snd].
  destruct ((glyph (head b) =? gl) && filled (head b) && (extra_glyphs (head b) =? ex)
            && Bool.eqb (is_second (head b)) sec) eqn:Hfast; [|reflexivity].
  apply andb_prop in Hfast as [Hfast Hsec]. apply andb_prop in Hfast as [Hfast Hex].
  apply andb_prop in Hfast as [Hgl Hfilled].
  rewrite walk_unfold, Hfilled. unfold key_matches. by rewrite Hgl, Hex, Hsec.
Qed.

Lemma slot_of_lt gl : (slot_of gl < sprite_map_size)%nat.
Proof.
  unfold slot_of, sprite_map_size.
  assert (0 <= Z.land gl 1023 < 1024); [|lia].
  change 1023 with (Z.ones 10). rewrite Z.land_ones by lia.
  apply Z.mod_pos_bound. lia.
Qed.

(** A call that returns a slot leaves its key cached there. *)
Lemma cached_after_call f t gl ex sec (calloc_ok : bool) (error : Z) r :
  sprite_map_ok f →
  spf_ret (sprite_position_for f t gl ex sec calloc_ok error) = Some r →
  ∃ d s, r = (slot_of gl, d)
    ∧ deref (spf_font (sprite_position_for f t gl ex sec calloc_ok error)) r = Some s
    ∧ cached (spf_font (sprite_position_for f t gl ex sec calloc_ok error))
        gl ex sec d (position s).
Proof.
  intros Hok. pose proof (slot_of_lt gl) as Hlt. rewrite <- Hok in Hlt.
  destruct (lookup_lt_is_Some_2 _ _ Hlt) as [b Hb].
  rewrite (sprite_position_for_walk _ _ _ _ _ _ _ _ Hb).
  destruct (walk (overflow b) (head b) O gl ex sec) as [d|d|d] eqn:Hw.
  - cbn. intros [= <-].
    destruct (walk_entry _ _ _ _ _ _ _ (or_introl Hw)) as [s Hs].
    rewrite Nat.sub_0_r in Hs.
    assert (entry b d = Some s) as He by (by destruct d).
    exists d, s. split; [done|]. unfold deref; cbn. rewrite Hb; cbn.
    split; [done|]. exists b. split; [done|]. split; [done|]. by exists s.
  - cbn. intros [= <-].
    destruct (walk_unfilled_claim _ _ _ _ _ _ _ t Hw) as (s1 & rest1 & Hes & Hw1).
    cbv zeta in Hes. rewrite Nat.sub_0_r in Hes.
    assert (set_entry b d (claim gl ex sec t) = mkBucket s1 rest1) as Hset.
    { destruct d; cbn in *; by inversion Hes. }
    destruct (walk_entry _ _ _ _ _ _ _ (or_intror Hw)) as [s0 Hs0].
    rewrite Nat.sub_0_r in Hs0.
    assert (entry (mkBucket s1 rest1) d = Some (claim gl ex sec t)) as He.
    { rewrite <- Hset. destruct d as [|d]; cbn in *; [done|].
      apply list_lookup_insert_eq. by eapply lookup_lt_Some. }
    exists d, (claim gl ex sec t). split; [done|]. unfold deref, cached; cbn.
    rewrite list_lookup_insert_eq by done. cbn. rewrite Hset.
    split; [done|]. eexists. split; [done|]. split; [done|]. by eexists.
  - destruct calloc_ok; [|done]. cbn. intros [= <-].
    pose proof (walk_chain_end _ _ _ _ _ _ _ Hw) as Hd. cbn in Hd.
    pose proof (walk_chain_end_claim _ _ _ _ _ _ _ t Hw) as Hw1.
    rewrite Nat.sub_0_r in Hw1.
    assert ((<[d := claim gl ex sec t]> (overflow b ++ [zeroed])) !! d
            = Some (claim gl ex sec t)) as He.
    { apply list_lookup_insert_eq. rewrite length_app. cbn. lia. }
    exists (S d), (claim gl ex sec t). split; [done|]. unfold deref, cached; cbn.
    rewrite list_lookup_insert_eq by done. cbn.
    split; [done|]. eexists. split; [done|]. split; [done|]. by eexists.
Qed.

(** A cached key stays cached, at the same place and with the same
    position, through every step of the life of the cache. *)
Lemma cached_step f f' gl ex sec d p :
  cached f gl ex sec d p → cache_step f f' → cached f' gl ex sec d p.
Proof.
  intros (b & Hb & Hc) Hstep. destruct Hstep as [t gl2 ex2 sec2 c e|r s flag Hr].
  - destruct (sprite_map f !! slot_of gl2) as [b2|] eqn:Hb2.
    + rewrite (sprite_position_for_walk _ _ _ _ _ _ _ _ Hb2).
      destruct (walk (overflow b2) (head b2) O gl2 ex2 sec2) as [d2|d2|d2] eqn:Hw2;
        [by exists b| |destruct c; [|by exists b]]; cbn; unfold cached; cbn.
      * destruct (decide (slot_of gl2 = slot_of gl)) as [Heq|Hne].
        -- rewrite Heq in *. simplify_eq.
           rewrite list_lookup_insert_eq by (by eapply lookup_lt_Some).
           eexists; split; [done|]. by eapply bucket_cached_claim_unfilled.
        -- rewrite list_lookup_insert_ne by done. by exists b.
      * destruct (decide (slot_of gl2 = slot_of gl)) as [Heq|Hne].
        -- rewrite Heq in *. simplify_eq.
           rewrite list_lookup_insert_eq by (by eapply lookup_lt_Some).
           eexists; split; [done|]. apply bucket_cached_claim_end; [done|].
           by apply walk_chain_end in Hw2.
        -- rewrite list_lookup_insert_ne by done. by exists b.
    + assert (sprite_map (spf_font (sprite_position_for f t gl2 ex2 sec2 c e))
              = sprite_map f) as Hsame.
      { unfold sprite_position_for. fold (slot_of gl2). rewrite Hb2.
        change (default empty_bucket None) with empty_bucket.
        apply lookup_ge_None in Hb2.
        destruct (ST.do_increment t e).
        repeat (match goal with |- context [if ?c then _ else _] => destruct c end
                || match goal with |- context [match ?w with CacheHit _ => _ | _ => _ end] =>
                     destruct w end);
          cbn; try done; by rewrite list_insert_ge. }
      unfold cached. rewrite Hsame. by exists b.
  - unfold deref in Hr. unfold store, cached.
    destruct (sprite_map f !! r.1) as [b2|] eqn:Hb2; [|by exists b]. cbn in Hr. cbn.
    destruct (decide (r.1 = slot_of gl)) as [Heq|Hne].
    + rewrite Heq in *. simplify_eq.
      rewrite list_lookup_insert_eq by (by eapply lookup_lt_Some).
      eexists; split; [done|]. by apply bucket_cached_rendered.
    + rewrite list_lookup_insert_ne by done. by exists b.
Qed.

Lemma cached_lives f f' gl ex sec d p :
  cached f gl ex sec d p → rtc cache_step f f' → cached f' gl ex sec d p.
Proof. intros Hc Hrtc. induction Hrtc; eauto using cached_step. Qed.

(** A cached key is answered from the cache: the same slot, and neither the
    font nor the tracker nor [*error] is written. *)
Lemma cached_lookup f t gl ex sec (calloc_ok : bool) (error : Z) d p :
  cached f gl ex sec d p →
  sprite_position_for f t gl ex sec calloc_ok error
  = mkSpf (Some (slot_of gl, d)) f t error.
Proof.
  intros (b & Hb & Hw & _). by rewrite (sprite_position_for_walk _ _ _ _ _ _ _ _ Hb), Hw.
Qed.

End CacheFacts.

(** [sprite_position_for] returns [NULL] only when [calloc] failed, with
    [*error] set to 1; whenever it leaves another value in [*error], the
    atlas-full 2 of [do_increment] included, it returns a slot. *)
Lemma sprite_position_for_null f t gl ex sec (calloc_ok : bool) (error : Z) :
  Fonts.spf_ret (Fonts.sprite_position_for f t gl ex sec calloc_ok error) = None →
  Fonts.spf_error (Fonts.sprite_position_for f t gl ex sec calloc_ok error) = 1
  ∧ calloc_ok = false.
Proof.
  unfold Fonts.sprite_position_for.
  destruct (ST.do_increment t error).
  repeat (match goal with |- context [if ?c then _ else _] => destruct c end
          || match goal with
             | |- context [match ?w with Fonts.CacheHit _ => _ | _ => _ end] => destruct w
             end); cbn; done.
Qed.

(** C6: a key for which [sprite_position_for] returned a slot keeps being
    answered with that slot and the same [(x, y, z)], by every later call
    with the same key, whatever calls of [sprite_position_for] and
    [rendered] marks happened on the font in between (the cache being
    neither cleared nor freed), and whatever the tracker has become; the
    later call writes nothing. *)
Theorem C6_sprite_position_for_idempotent
    (f : Fonts.Font) (t : ST.GPUSpriteTracker) (gl ex : Z) (sec : bool)
    (calloc_ok : bool) (error : Z) (r : Fonts.SlotRef)
    (f2 : Fonts.Font) (t2 : ST.GPUSpriteTracker) (calloc_ok2 : bool) (error2 : Z) :
  Fonts.sprite_map_ok f →
  Fonts.spf_ret (Fonts.sprite_position_for f t gl ex sec calloc_ok error) = Some r →
  rtc Fonts.cache_step
    (Fonts.spf_font (Fonts.sprite_position_for f t gl ex sec calloc_ok error)) f2 →
  ∃ s s2,
    Fonts.deref (Fonts.spf_font (Fonts.sprite_position_for f t gl ex sec calloc_ok error)) r
    = Some s
    ∧ Fonts.sprite_position_for f2 t2 gl ex sec calloc_ok2 error2
      = Fonts.mkSpf (Some r) f2 t2 error2
    ∧ Fonts.deref f2 r = Some s2
    ∧ SP.position s2 = SP.position s.
Proof.
  intros Hok Hret Hlives.
  destruct (cached_after_call _ _ _ _ _ _ _ _ Hok Hret) as (d & s & -> & Hs & Hc).
  pose proof (cached_lives _ _ _ _ _ _ _ Hc Hlives) as Hc2.
  pose proof Hc2 as (b & Hb & _ & s2 & Hs2 & Hp).
  exists s, s2. split; [done|]. split; [by eapply cached_lookup|].
  split; [|done]. unfold Fonts.deref. cbn. by rewrite Hb.
Qed.

(** Glyph 5, then glyph 1029 in the same slot, then glyph 5 again with
    another tracker and a failing [calloc]. *)
Lemma C6_sprite_position_for_idempotent_witness :
  ∃ s s2,
    Fonts.deref Examples.font_with_5 (5%nat, 0%nat) = Some s
    ∧ Fonts.sprite_position_for Examples.font_with_5_and_1029
        ST.sprite_tracker_init 5 0 false false 7
      = Fonts.mkSpf (Some (5%nat, 0%nat)) Examples.font_with_5_and_1029
          ST.sprite_tracker_init 7
    ∧ Fonts.deref Examples.font_with_5_and_1029 (5%nat, 0%nat) = Some s2
    ∧ SP.position s2 = SP.position s.
Proof.
  apply (C6_sprite_position_for_idempotent Fonts.zero_font Examples.atlas_16_2
           5 0 false true 0 (5%nat, 0%nat)
           Examples.font_with_5_and_1029 ST.sprite_tracker_init false 7).
  - reflexivity.
  - reflexivity.
  - apply rtc_once. apply Fonts.step_position_for.
Defined.

(** C1 (the code departs from it): with [max_texture_size = 16],
    [max_array_len = 2] and 8 x 8 cells, nine allocations in a row.  The
    eighth returns the slot [(1, 1, 1)] and it is this call whose advance
    sets [*error] to 2; the pointer it returns is not [NULL], so its caller
    sees a claimed slot.  The ninth returns the slot [(0, 0, 2)], beyond the
    two layers, with [*error] untouched, and [test_sprite_position_for]
    reports a position, not "Out of texture space for sprites". *)
Theorem C1_atlas_full_not_reported :
  Examples.allocate [0; 1; 2; 3; 4; 5; 6; 7; 8] Fonts.zero_font Examples.atlas_16_2
  = [ (Some (0, 0, 0), 0, inr (0, 0, 0));
      (Some (1, 0, 0), 0, inr (1, 0, 0));
      (Some (0, 1, 0), 0, inr (0, 1, 0));
      (Some (1, 1, 0), 0, inr (1, 1, 0));
      (Some (0, 0, 1), 0, inr (0, 0, 1));
      (Some (1, 0, 1), 0, inr (1, 0, 1));
      (Some (0, 1, 1), 0, inr (0, 1, 1));
      (Some (1, 1, 1), 2, inr (1, 1, 1));
      (Some (0, 0, 2), 0, inr (0, 0, 2)) ].
Proof. vm_compute. reflexivity. Qed.

(** ** The line renderer *)

(** Once the cell before was wide, an iteration of the loop of
    [render_line] changes nothing, [prev_width] included: the remaining
    iterations all skip. *)
Lemma render_line_loop_after_wide WIDTH_MASK styled box_fn calloc_fn n i st :
  Fonts.prev_width st = 2 →
  Fonts.render_line_loop WIDTH_MASK styled box_fn calloc_fn n i st = st.
Proof.
  intros Hw. revert i. induction n as [|n IH]; intros i; [done|]. cbn.
  unfold Fonts.render_line_step at 1. rewrite Hw. cbn. apply IH.
Qed.

(** C3 (the code departs from it): on a line made of a wide character, its
    right half and a narrow character, [render_line] selects a font for
    cell 0 only.  Cell 2 follows a cell of width 0 and is skipped all the
    same, and the one run handed to [render_run] covers all three cells. *)
Theorem C3_cells_after_wide_all_skipped :
  Fonts.attrs <$> Examples.line_wide_then_narrow = [2; 0; 1]
  ∧ Fonts.trace (Examples.render_line Examples.globals_8x8 Examples.line_wide_then_narrow)
    = [Fonts.FontForCell 0; Fonts.RenderRun 0 3 Fonts.medium_font]
  ∧ Fonts.fonted_cells
      (Fonts.trace
         (Examples.render_line Examples.globals_8x8 Examples.line_wide_then_narrow))
    = [0].
Proof. vm_compute. done. Qed.

(** C4 (the code departs from it): on a box drawing character followed by
    a letter, the font changes at index 1 with the run of the box font
    starting at index 0; [render_run] is called for that run with the cell
    at index 1, not the cell at index 0, and count 1.  The box character
    keeps its unset sprite and the letter gets the sprite of a box. *)
Theorem C4_run_emitted_from_current_cell :
  Fonts.trace (Examples.render_line Examples.globals_8x8 Examples.line_box_then_text)
  = [Fonts.FontForCell 0; Fonts.FontForCell 1;
     Fonts.RenderRun 1 1 Fonts.box_font; Fonts.RenderRun 1 1 Fonts.medium_font]
  ∧ Fonts.cells (Examples.render_line Examples.globals_8x8 Examples.line_box_then_text)
    = [Fonts.mkCell 0x2500 0 1 9 9 9; Fonts.mkCell 0x41 0 1 0 0 0].
Proof. vm_compute. done. Qed.

(** ** Cell metrics *)

(** C5 (the code departs from it): a box drawing character has been
    rendered with 8 x 8 cells, so that [box_font] caches its glyph at
    [(0, 0, 0)], and the medium font caches a glyph at [(1, 0, 0)]; then
    [update_cell_metrics] succeeds with cells 16 high.  The tracker cursor
    is back at [(0, 0, 0)] and the entry of the medium font is cleared, but
    the head of slot 0 of [box_font] is still filled, with the position it
    had. *)
Theorem C5_box_font_cache_survives :
  Fonts.cell_height Examples.globals_two_caches = 8
  ∧ SP.position <$> Fonts.deref
      (Fonts.fonts Examples.globals_two_caches Fonts.medium_font) (65%nat, 0%nat)
    = Some (1, 0, 0)
  ∧ (Examples.update_cell_metrics 8 16 Examples.globals_two_caches).2
    = inr (8, 16, 14, 15, 1)
  ∧ ST.cursor (Fonts.sprite_tracker
                 (Examples.update_cell_metrics 8 16 Examples.globals_two_caches).1)
    = (0, 0, 0)
  ∧ Fonts.deref
      (Fonts.fonts (Examples.update_cell_metrics 8 16 Examples.globals_two_caches).1
         Fonts.medium_font) (65%nat, 0%nat)
    = Some SP.zeroed
  ∧ Fonts.deref
      (Fonts.fonts (Examples.update_cell_metrics 8 16 Examples.globals_two_caches).1
         Fonts.box_font) (0%nat, 0%nat)
    = Some (SP.mkSP true true false 0 0 0 0 0).
Proof. vm_compute. done. Qed.

(** ** Load flags *)

(** C10 (as amended): the flags [load_glyph] renders with hold
    [FT_LOAD_NO_HINTING] exactly when [hinting] is 0, whatever the hint
    style; their target is [LIGHT] exactly when [hinting] is not 0 and
    [0 < hintstyle < 3]; with [hinting] not 0 and any other hint style,
    3 and above but also 0 and below, they are [FT_LOAD_RENDER] alone,
    whose target is [NORMAL] (the value 0).  They are the flags of the
    specification exactly when hinting is on with a positive hint style, or
    off with a hint style of 0 or below. *)
Theorem C10_load_flags_by_hinting (self : FreeType.Face) :
  let fl := FreeType.load_glyph_flags self in
  let hinting := FreeType.hinting self in
  let hintstyle := FreeType.hintstyle self in
  (Z.land fl FreeType.FT_LOAD_NO_HINTING = FreeType.FT_LOAD_NO_HINTING ↔ hinting = 0)
  ∧ (FreeType.FT_LOAD_TARGET_MODE fl = FreeType.FT_RENDER_MODE_LIGHT
     ↔ hinting ≠ 0 ∧ 0 < hintstyle < 3)
  ∧ (fl = Z.lor FreeType.FT_LOAD_RENDER FreeType.FT_LOAD_TARGET_NORMAL
     ∧ FreeType.FT_LOAD_TARGET_MODE fl = FreeType.FT_RENDER_MODE_NORMAL
     ↔ hinting ≠ 0 ∧ ¬ (0 < hintstyle < 3))
  ∧ (fl = Spec.load_flags hintstyle FreeType.FT_LOAD_RENDER
     ↔ (hinting ≠ 0 ∧ 0 < hintstyle) ∨ (hinting = 0 ∧ hintstyle <= 0)).
Proof.
  destruct self as [h hs sc cw ch xd yd].
  unfold FreeType.load_glyph_flags, FreeType.get_load_flags, Spec.load_flags.
  cbn [FreeType.hinting FreeType.hintstyle].
  change FreeType.FT_RENDER_MODE_LIGHT with 1.
  change FreeType.FT_RENDER_MODE_NORMAL with 0.
  change (Z.lor FreeType.FT_LOAD_RENDER FreeType.FT_LOAD_NO_HINTING) with 6.
  change (Z.lor FreeType.FT_LOAD_RENDER FreeType.FT_LOAD_TARGET_LIGHT) with 65540.
  change (Z.lor FreeType.FT_LOAD_RENDER FreeType.FT_LOAD_TARGET_NORMAL) with 4.
  change FreeType.FT_LOAD_RENDER with 4.
  change FreeType.FT_LOAD_NO_HINTING with 2.
  rewrite Z.geb_leb.
  destruct (Z.eqb_spec h 0), (Z.leb_spec 3 hs), (Z.ltb_spec 0 hs), (Z.ltb_spec hs 3);
    cbv zeta; cbn [negb andb];
    repeat match goal with
           | |- context [FreeType.FT_LOAD_TARGET_MODE ?v] =>
               let r := eval vm_compute in (FreeType.FT_LOAD_TARGET_MODE v) in
               change (FreeType.FT_LOAD_TARGET_MODE v) with r
           | |- context [Z.land ?a ?b] =>
               let r := eval vm_compute in (Z.land a b) in
               change (Z.land a b) with r
           end;
    intuition lia.
Qed.

(** C10 (as stated) fails: with hinting on and hint style 0 the flags are
    [FT_LOAD_RENDER] alone, without [FT_LOAD_NO_HINTING]; with hinting off
    and hint style 1 they hold [FT_LOAD_NO_HINTING] and not the [LIGHT]
    target. *)
Lemma C10_hinting_gate_counterexample :
  FreeType.load_glyph_flags (Examples.face_hinted 1 0) = FreeType.FT_LOAD_RENDER
  ∧ Z.land (FreeType.load_glyph_flags (Examples.face_hinted 1 0))
      FreeType.FT_LOAD_NO_HINTING = 0
  ∧ FreeType.load_glyph_flags (Examples.face_hinted 1 0)
    ≠ Spec.load_flags 0 FreeType.FT_LOAD_RENDER
  ∧ FreeType.FT_LOAD_TARGET_MODE (FreeType.load_glyph_flags (Examples.face_hinted 0 1))
    ≠ FreeType.FT_RENDER_MODE_LIGHT
  ∧ FreeType.load_glyph_flags (Examples.face_hinted 0 1)
    ≠ Spec.load_flags 1 FreeType.FT_LOAD_RENDER.
Proof. vm_compute. repeat split; discriminate. Qed.

(** ** Trimming an over-wide italic bitmap *)

Section TrimFacts.

Import FreeType.

(** The inner loop of [trim_borders] looks for a sample above 200 in the
    rows from [y] on. *)
Lemma scan_column_spec (ans : ProcessedBitmap) (x : Z) (n : nat) :
  ∀ (y : Z) (h : bool),
  0 <= x → 0 <= y → 0 <= stride ans →
  x + (y + Z.of_nat n) * stride ans <= SIZE_MAX →
  scan_column ans x n y h
  = h || negb (forallb (λ y', buf ans (x + y' * stride ans) <=? 200)
                 (seqZ y (Z.of_nat n))).
Proof.
  induction n as [|n IH]; intros y h Hx Hy Hs Hfit.
  - cbn. by rewrite orb_false_r.
  - cbn [scan_column]. destruct h; [done|].
    rewrite seqZ_cons by lia.
    replace (Z.pred (Z.of_nat (S n))) with (Z.of_nat n) by lia.
    cbn [forallb]. rewrite IH by nia.
    assert (0 <= y * stride ans <= SIZE_MAX) by nia.
    rewrite (size_t_small (y * stride ans)) by done.
    rewrite (size_t_small (x + y * stride ans)) by nia.
    rewrite Z.gtb_ltb. cbn [orb].
    destruct (Z.ltb_spec 200 (buf ans (x + y * stride ans))),
             (Z.leb_spec (buf ans (x + y * stride ans)) 200); try lia; done.
Qed.

Lemma trim_loop_has_text (n : nat) (ans : ProcessedBitmap) (extra : Z) :
  trim_loop n ans extra true = (ans, extra).
Proof. by destruct n. Qed.

(** The outer loop removes the empty columns at the right-hand end, up to
    [extra] of them. *)
Lemma trim_loop_spec (n : nat) :
  ∀ (ans : ProcessedBitmap) (extra : Z),
  0 <= extra <= SIZE_MAX → Z.of_nat n <= width ans →
  0 <= stride ans → 0 <= rows ans →
  width ans + rows ans * stride ans <= SIZE_MAX →
  trim_loop n ans extra false
  = (mkPB (buf ans) (start_x ans)
       (width ans
        - Z.min extra (Z.of_nat (Spec.trailing_empty (buf ans) (stride ans) (rows ans) n)))
       (stride ans) (rows ans),
     extra
     - Z.min extra (Z.of_nat (Spec.trailing_empty (buf ans) (stride ans) (rows ans) n))).
Proof.
  induction n as [|x IH]; intros ans extra Hextra Hn Hs Hr Hfit.
  - cbn. rewrite Z.min_r by lia. rewrite !Z.sub_0_r. by destruct ans.
  - cbn [trim_loop Spec.trailing_empty negb andb]. rewrite Z.gtb_ltb.
    destruct (Z.ltb_spec 0 extra) as [Hpos|Hzero].
    + rewrite scan_column_spec by (rewrite ?Z2Nat.id; nia).
      rewrite Z2Nat.id by done. cbn [orb]. fold (Spec.column_empty (buf ans) (stride ans) (rows ans) (Z.of_nat x)).
      destruct (Spec.column_empty (buf ans) (stride ans) (rows ans) (Z.of_nat x)); cbn [negb].
      * rewrite (size_t_small (width ans - 1)) by lia.
        rewrite (size_t_small (extra - 1)) by lia.
        rewrite IH by (cbn; lia). cbn [buf start_x width stride rows].
        f_equal; [f_equal|]; lia.
      * rewrite trim_loop_has_text. rewrite Z.min_r by lia.
        rewrite !Z.sub_0_r. by destruct ans.
    + rewrite Z.min_l by lia. replace extra with 0 by lia.
      rewrite !Z.sub_0_r. by destruct ans.
Qed.

End TrimFacts.

(** C9 (as amended): when the rendered bitmap is wider than
    [max_width = cell_width × num_cells] by [extra], the glyph is italic
    and [extra < cell_width / 2], [render_bitmap] succeeds with the empty
    right-hand columns trimmed, at most [extra] of them; [start_x] is the
    rest of [extra], and the width is [max_width]: it has decreased by
    [extra], the trimmed columns and the rest of [extra] together. *)
Theorem C9_italic_overflow_trimmed
    (FT_Load_Glyph : FreeType.Face → Z → Z → option FreeType.FT_Bitmap)
    (FT_Set_Char_Size : FreeType.Face → Z → Z → Z → Z → bool)
    (scaled : Z → Z → Z → Z)
    (self : FreeType.Face) (glyph_id : Z) (ans : FreeType.ProcessedBitmap)
    (cell_width num_cells bold italic : Z) (rescale : bool)
    (bitmap : FreeType.FT_Bitmap) :
  FT_Load_Glyph self glyph_id (FreeType.load_glyph_flags self) = Some bitmap →
  FreeType.bitmap_ok bitmap →
  let max_width := uint (cell_width * num_cells) in
  let extra := FreeType.ft_width bitmap - max_width in
  max_width < FreeType.ft_width bitmap →
  italic ≠ 0 →
  extra < cell_width / 2 →
  let trimmed := Spec.trimmed_columns (FreeType.view bitmap) extra in
  0 <= trimmed <= extra
  ∧ FreeType.render_bitmap FT_Load_Glyph FT_Set_Char_Size scaled
      self glyph_id ans cell_width num_cells bold italic rescale
    = (true,
       FreeType.mkPB (FreeType.ft_buffer bitmap) (extra - trimmed) max_width
         (FreeType.stride (FreeType.view bitmap)) (FreeType.ft_rows bitmap),
       self).
Proof.
  intros Hload [Hrows Hwidth Hpitch Hrow] max_width extra Hwide Hitalic Hextra trimmed.
  unfold is_uint, UINT_MAX in *.
  assert (0 <= max_width) as Hmax.
  { unfold max_width, uint. apply Z.mod_pos_bound. lia. }
  assert (0 <= FreeType.stride (FreeType.view bitmap) < 2 ^ 31
          ∧ FreeType.ft_width bitmap <= FreeType.stride (FreeType.view bitmap)) as [Hs Hws].
  { cbn. destruct (Z.ltb_spec (FreeType.ft_pitch bitmap) 0); lia. }
  assert (0 <= trimmed <= extra) as Htrim.
  { unfold trimmed, Spec.trimmed_columns. lia. }
  split; [done|].
  unfold FreeType.render_bitmap, FreeType.render_bitmap_body. rewrite Hload.
  fold max_width. fold (FreeType.view bitmap).
  change (FreeType.width (FreeType.view bitmap)) with (FreeType.ft_width bitmap).
  rewrite Z.gtb_ltb. destruct (Z.ltb_spec max_width (FreeType.ft_width bitmap)); [|lia].
  fold extra. rewrite (uint_small extra) by (unfold UINT_MAX; lia).
  destruct (Z.eqb_spec italic 0); [done|].
  destruct (Z.ltb_spec extra (cell_width / 2)); [|lia]. cbn [negb andb].
  unfold FreeType.trim_borders.
  change (FreeType.width (FreeType.view bitmap)) with (FreeType.ft_width bitmap).
  assert (ssize_t (FreeType.ft_width bitmap - 1) = FreeType.ft_width bitmap - 1) as ->.
  { unfold ssize_t. rewrite Z.mod_small by lia.
    destruct (Z.ltb_spec (FreeType.ft_width bitmap - 1) (2 ^ 63)); lia. }
  replace (FreeType.ft_width bitmap - 1 + 1) with (FreeType.ft_width bitmap) by lia.
  rewrite trim_loop_spec; unfold SIZE_MAX;
    cbn [FreeType.view FreeType.width FreeType.rows]; try lia; [|nia].
  cbn [FreeType.buf FreeType.stride FreeType.start_x FreeType.width].
  fold (FreeType.view bitmap).
  change (FreeType.buf (FreeType.view bitmap)) with (FreeType.ft_buffer bitmap).
  unfold trimmed, Spec.trimmed_columns.
  change (FreeType.width (FreeType.view bitmap)) with (FreeType.ft_width bitmap).
  change (FreeType.rows (FreeType.view bitmap)) with (FreeType.ft_rows bitmap).
  change (FreeType.buf (FreeType.view bitmap)) with (FreeType.ft_buffer bitmap).
  set (te := Z.min extra _) in *.
  f_equal. f_equal. f_equal.
  rewrite size_t_small by (unfold SIZE_MAX; lia). lia.
Qed.

(** A bitmap 6 wide for an italic cell 5 wide, its last two columns blank. *)
Lemma C9_italic_overflow_trimmed_witness :
  let trimmed := Spec.trimmed_columns (FreeType.view Examples.bitmap_blank_right) 1 in
  0 <= trimmed <= 1
  ∧ Examples.render_bitmap Examples.bitmap_blank_right 5 1 1
    = (true,
       FreeType.mkPB (FreeType.ft_buffer Examples.bitmap_blank_right) (1 - trimmed) 5 8 2,
       Examples.face_hinted 1 3).
Proof.
  apply (C9_italic_overflow_trimmed
           (λ _ _ _, Some Examples.bitmap_blank_right) (λ _ _ _ _ _, true) (λ v _ _, v)
           (Examples.face_hinted 1 3) 65 (FreeType.mkPB (λ _, 0) 0 0 0 0)
           5 1 0 1 true Examples.bitmap_blank_right).
  - reflexivity.
  - split; cbn; unfold is_uint, UINT_MAX; lia.
  - vm_compute. reflexivity.
  - lia.
  - vm_compute. reflexivity.
Defined.

(** C9 (as stated) fails: a bitmap 5 wide for a cell 4 wide, its last
    column inked.  No column is trimmed, [start_x] is 1, and the width has
    become 4: it decreased by one although no column was trimmed. *)
Lemma C9_width_counterexample :
  FreeType.ft_width Examples.bitmap_inked_right = 5
  ∧ Spec.trimmed_columns (FreeType.view Examples.bitmap_inked_right) 1 = 0
  ∧ (Examples.render_bitmap Examples.bitmap_inked_right 4 1 1).1.1 = true
  ∧ FreeType.start_x (Examples.render_bitmap Examples.bitmap_inked_right 4 1 1).1.2 = 1
  ∧ FreeType.width (Examples.render_bitmap Examples.bitmap_inked_right 4 1 1).1.2 = 4
  ∧ FreeType.width (Examples.render_bitmap Examples.bitmap_inked_right 4 1 1).1.2
    ≠ FreeType.ft_width Examples.bitmap_inked_right
      - Spec.trimmed_columns (FreeType.view Examples.bitmap_inked_right) 1.
Proof. vm_compute. repeat split; discriminate. Qed.

(** ** Composition bounds *)

Section BlitFacts.

Import FreeType.

Lemma blit_row_writes (W H : Z) (bm : ProcessedBitmap) (n : nat) :
  ∀ (sr dr sc dc : Z) (cell : Canvas),
  W * H <= SIZE_MAX → 0 <= dr < H → 0 <= dc →
  Forall (Spec.in_destination W H) (writes cell) →
  Forall (Spec.in_destination W H) (writes (blit_row n bm W sr dr sc dc cell)).
Proof.
  induction n as [|n IH]; intros sr dr sc dc cell Hfit Hdr Hdc Hw; [done|].
  cbn [blit_row]. destruct (Z.ltb_spec dc W) as [Hlt|]; [|done].
  assert (0 <= dr * W + dc < W * H) as Hoff by nia.
  rewrite (size_t_small (dr * W)) by nia.
  rewrite (size_t_small (dr * W + dc)) by lia.
  apply IH; [done|done|lia|]. cbn [writes].
  apply Forall_app. split; [done|]. apply Forall_singleton.
  exists dr, dc. split; [done|]. split; [lia|]. done.
Qed.

Lemma blit_rows_writes (W H : Z) (bm : ProcessedBitmap) (n : nat) :
  ∀ (ssc dsc sr dr : Z) (cell : Canvas),
  W * H <= SIZE_MAX → 0 <= dr → 0 <= dsc →
  Forall (Spec.in_destination W H) (writes cell) →
  Forall (Spec.in_destination W H) (writes (blit_rows n bm W H ssc dsc sr dr cell)).
Proof.
  induction n as [|n IH]; intros ssc dsc sr dr cell Hfit Hdr Hdsc Hw; [done|].
  cbn [blit_rows]. destruct (Z.ltb_spec dr H) as [Hlt|]; [|done].
  apply IH; [done|lia|done|]. apply blit_row_writes; [done|lia|done|done].
Qed.

End BlitFacts.

(** C8: whatever the bitmap, the offsets and the baseline, every store of
    [place_bitmap_in_cell] into a destination of [cell_width × cell_height]
    bytes goes to an offset [dr × cell_width + dc] with
    [0 ≤ dr < cell_height] and [0 ≤ dc < cell_width], which lies inside
    the destination. *)
Theorem C8_place_bitmap_in_cell_in_bounds
    (cell : Z → Z) (bm : FreeType.ProcessedBitmap)
    (cell_width cell_height xoff yoff baseline : Z) :
  cell_width * cell_height <= SIZE_MAX →
  Forall (Spec.in_destination cell_width cell_height)
    (FreeType.writes
       (FreeType.place_bitmap_in_cell cell bm cell_width cell_height xoff yoff baseline)).
Proof.
  intros Hfit. unfold FreeType.place_bitmap_in_cell.
  destruct (xoff <? 0); destruct ((yoff >? 0) && (size_t yoff >? baseline));
    apply blit_rows_writes; try done;
    repeat match goal with |- context [if ?c then _ else _] => destruct c end;
    first [lia | apply size_t_nonneg].
Qed.

(** A bitmap 6 wide placed two columns in, on a canvas 5 wide and 3 high. *)
Lemma C8_place_bitmap_in_cell_in_bounds_witness :
  Forall (Spec.in_destination 5 3) (FreeType.writes (Examples.place_blank_right 2 1)).
Proof.
  apply (C8_place_bitmap_in_cell_in_bounds Examples.blank_canvas
           (FreeType.view Examples.bitmap_blank_right) 5 3 2 1 1).
  unfold SIZE_MAX. lia.
Defined.

(** The stores of two compositions: the bitmap clipped on the right and
    pulled back to the left edge, and the bitmap shifted off the left and
    below the baseline. *)
Example place_blank_right_writes :
  FreeType.writes (Examples.place_blank_right 2 1) = [0; 1; 2; 3; 4; 5; 6; 7; 8; 9]
  ∧ FreeType.writes (Examples.place_blank_right (-3) (-1)) = [10; 11; 12].
Proof. vm_compute. done. Qed.

(** * Further properties of the code *)

(** ** The sprite tracker: order and capacity *)

Section TrackerOrder.

Import ST.

Lemma uint_id_small (v : Z) : 0 <= v < 2 ^ 32 → uint v = v.
Proof. intros. unfold uint. by apply Z.mod_small. Qed.

(** [do_increment] by cases, on a cursor inside its layout. *)
Lemma do_increment_cases (t : GPUSpriteTracker) (error : Z) :
  in_layout t →
  do_increment t error =
  if x t + 1 <? xnum t then (set_x (x t + 1) t, error)
  else if y t + 1 <? max_y t
  then (mkTracker (max_array_len t) (max_texture_size t) (max_y t) 0 (y t + 1) (z t)
          (xnum t) (Z.max (ynum t) (y t + 2)), error)
  else (mkTracker (max_array_len t) (max_texture_size t) (max_y t) 0 0 (z t + 1)
          (xnum t) (max_y t),
        if layer_cap t <=? z t + 1 then 2 else error).
Proof.
  intros [Hx Hy Hyn Hz Hxn Hmy]. unfold UINT_MAX in *.
  unfold do_increment, layer_cap.
  cbn [x y z xnum ynum max_y max_array_len max_texture_size set_x set_y set_z set_ynum].
  rewrite !MIN_spec, !MAX_spec, !Z.geb_leb.
  rewrite (uint_id_small (x t + 1)) by lia.
  rewrite (uint_id_small (y t + 1)) by lia.
  rewrite (uint_id_small (y t + 1 + 1)) by lia.
  rewrite (uint_id_small (z t + 1)) by lia.
  rewrite (uint_id_small (Z.min _ _)) by lia.
  destruct (Z.leb_spec (xnum t) (x t + 1)), (Z.ltb_spec (x t + 1) (xnum t)); try lia;
    [|done].
  destruct (Z.leb_spec (max_y t) (y t + 1)), (Z.ltb_spec (y t + 1) (max_y t)); try lia.
  - rewrite (Z.min_r (Z.max _ _)) by lia. destruct (_ <=? _); done.
  - rewrite (Z.min_l (Z.max _ _)) by lia.
    replace (y t + 1 + 1) with (y t + 2) by lia. done.
Qed.

End TrackerOrder.

(** X1: on a cursor inside its layout, [do_increment] moves to the next
    slot in row, then row-of-layer, then layer order: the slot number grows
    by exactly one, the layout and the limits are kept, and the new cursor
    comes strictly later in (layer, row, column) order. *)
Theorem X1_do_increment_next_slot (t : ST.GPUSpriteTracker) (error : Z) :
  ST.in_layout t →
  ST.slot_number (ST.do_increment t error).1 = ST.slot_number t + 1
  ∧ ST.xnum (ST.do_increment t error).1 = ST.xnum t
  ∧ ST.max_y (ST.do_increment t error).1 = ST.max_y t
  ∧ ST.max_array_len (ST.do_increment t error).1 = ST.max_array_len t
  ∧ ST.max_texture_size (ST.do_increment t error).1 = ST.max_texture_size t
  ∧ ST.cursor_lt (ST.cursor t) (ST.cursor (ST.do_increment t error).1).
Proof.
  intros Hin. rewrite (do_increment_cases _ _ Hin).
  destruct Hin as [Hx Hy Hyn Hz Hxn Hmy]. unfold ST.slot_number, ST.cursor_lt, ST.cursor.
  destruct (Z.ltb_spec (ST.x t + 1) (ST.xnum t));
    [|destruct (Z.ltb_spec (ST.y t + 1) (ST.max_y t))]; cbn; repeat split; try lia; nia.
Qed.

(** The advance out of the last slot of layer 65534. *)
Lemma X1_do_increment_next_slot_witness :
  ST.slot_number (ST.do_increment Examples.tracker_near_cap 0).1
  = ST.slot_number Examples.tracker_near_cap + 1
  ∧ ST.xnum (ST.do_increment Examples.tracker_near_cap 0).1
    = ST.xnum Examples.tracker_near_cap
  ∧ ST.max_y (ST.do_increment Examples.tracker_near_cap 0).1
    = ST.max_y Examples.tracker_near_cap
  ∧ ST.max_array_len (ST.do_increment Examples.tracker_near_cap 0).1
    = ST.max_array_len Examples.tracker_near_cap
  ∧ ST.max_texture_size (ST.do_increment Examples.tracker_near_cap 0).1
    = ST.max_texture_size Examples.tracker_near_cap
  ∧ ST.cursor_lt (ST.cursor Examples.tracker_near_cap)
      (ST.cursor (ST.do_increment Examples.tracker_near_cap 0).1).
Proof.
  apply (X1_do_increment_next_slot Examples.tracker_near_cap 0).
  split; cbn; unfold UINT_MAX; lia.
Defined.

Section TrackerCapacity.

Import ST.

Lemma div_mod_succ (n b : Z) :
  0 <= n → 0 < b →
  (n mod b + 1 < b ∧ (n + 1) mod b = n mod b + 1 ∧ (n + 1) / b = n / b)
  ∨ (n mod b + 1 = b ∧ (n + 1) mod b = 0 ∧ (n + 1) / b = n / b + 1).
Proof.
  intros Hn Hb. pose proof (Z.div_mod n b ltac:(lia)) as Hdm.
  pose proof (Z.mod_pos_bound n b Hb) as Hr.
  destruct (decide (n mod b + 1 < b)) as [Hlt|Hge]; [left|right].
  - split; [done|]. split.
    + symmetry. apply Z.mod_unique with (q := n / b); lia.
    + symmetry. apply Z.div_unique with (r := n mod b + 1); lia.
  - split; [lia|]. split.
    + symmetry. apply Z.mod_unique with (q := n / b + 1); lia.
    + symmetry. apply Z.div_unique with (r := 0); lia.
Qed.

Lemma increments_succ (n : nat) :
  ∀ (t : GPUSpriteTracker) (error : Z),
  increments (S n) t error
  = do_increment (increments n t error).1 (increments n t error).2.
Proof.
  induction n as [|n IH]; intros t error.
  - cbn. by destruct (do_increment t error).
  - change (increments (S (S n)) t error)
      with (let '(t', error') := do_increment t error in increments (S n) t' error').
    destruct (do_increment t error) as [t' error'] eqn:Hd.
    rewrite IH. cbn [increments]. by rewrite Hd.
Qed.

Lemma at_slot_in_layout (t : GPUSpriteTracker) (n : Z) :
  fresh_layout t → 0 <= n < capacity t → in_layout (at_slot t n).
Proof.
  intros [Hx Hy _ _] [Hn Hcap]. unfold capacity, layer_cap in Hcap.
  rewrite MIN_spec in Hcap. unfold UINT16_MAX in *.
  pose proof (Z.mod_pos_bound n (xnum t) ltac:(lia)).
  pose proof (Z.mod_pos_bound (n / xnum t) (max_y t) ltac:(lia)).
  assert (0 <= n / xnum t) by (apply Z.div_pos; lia).
  assert (0 <= n / (xnum t * max_y t)) by (apply Z.div_pos; nia).
  assert (n / (xnum t * max_y t) < 65535).
  { apply Z.div_lt_upper_bound; nia. }
  assert ((n / xnum t) mod max_y t <= n / xnum t) by (apply Z.mod_le; lia).
  split; cbn; unfold UINT_MAX; lia.
Qed.

Lemma at_slot_0 (t : GPUSpriteTracker) : fresh_layout t → at_slot t 0 = t.
Proof.
  intros [Hx Hy Hyn Hc]. unfold cursor in Hc. inversion Hc as [[Hx0 Hy0 Hz0]].
  destruct t as [a m my x0 y0 z0 xn yn]. cbn in *. subst.
  unfold at_slot. cbn. rewrite !Z.mod_0_l, !Z.div_0_l by nia. cbn.
  rewrite Z.min_l by lia. done.
Qed.

(** One step of the sequence: from slot [n] to slot [n + 1], silently as
    long as the next slot is below the capacity. *)
Lemma do_increment_at_slot (t : GPUSpriteTracker) (n : Z) (error : Z) :
  fresh_layout t → 0 <= n < capacity t →
  do_increment (at_slot t n) error
  = (at_slot t (n + 1),
     if (n + 1) mod (xnum t * max_y t) =? 0
     then if layer_cap t <=? (n + 1) / (xnum t * max_y t) then 2 else error
     else error).
Proof.
  intros Hf Hn. rewrite (do_increment_cases _ _ (at_slot_in_layout _ _ Hf Hn)).
  destruct Hf as [Hx Hy _ _]. destruct Hn as [Hn Hcap]. unfold UINT16_MAX in *.
  unfold at_slot, layer_cap, set_x.
  cbn [x y z xnum ynum max_y max_array_len max_texture_size].
  set (X := xnum t) in *. set (Y := max_y t) in *.
  assert (0 <= n / X) as Hm by (apply Z.div_pos; lia).
  rewrite <- !(Z.div_div _ X Y) by lia.
  assert ((n + 1) mod (X * Y) = (n + 1) mod X + X * (((n + 1) / X) mod Y)) as HmodXY.
  { rewrite Z.rem_mul_r by lia. done. }
  pose proof (Z.mod_pos_bound (n + 1) X ltac:(lia)).
  pose proof (Z.mod_pos_bound n X ltac:(lia)).
  pose proof (Z.mod_pos_bound ((n + 1) / X) Y ltac:(lia)).
  pose proof (Z.mod_pos_bound (n / X) Y ltac:(lia)).
  assert ((n / X) mod Y <= n / X) by (apply Z.mod_le; lia).
  destruct (div_mod_succ n X Hn ltac:(lia)) as [(Hlt & Hmod & Hdiv)|(Heq & Hmod & Hdiv)].
  - destruct (Z.ltb_spec (n mod X + 1) X); [|lia].
    rewrite Hmod, Hdiv in HmodXY |- *.
    destruct (Z.eqb_spec ((n + 1) mod (X * Y)) 0) as [Hz0|_]; [nia|]. done.
  - destruct (Z.ltb_spec (n mod X + 1) X); [lia|].
    rewrite Hmod, Hdiv in HmodXY |- *.
    destruct (div_mod_succ (n / X) Y Hm ltac:(lia))
      as [(Hlt2 & Hmod2 & Hdiv2)|(Heq2 & Hmod2 & Hdiv2)].
    + destruct (Z.ltb_spec ((n / X) mod Y + 1) Y); [|lia].
      rewrite Hmod2 in HmodXY |- *. rewrite Hdiv2.
      destruct (Z.eqb_spec ((n + 1) mod (X * Y)) 0) as [Hz0|_]; [nia|].
      pose proof (Z.mod_small (n / X) Y) as Hsmall.
      f_equal. f_equal. lia.
    + destruct (Z.ltb_spec ((n / X) mod Y + 1) Y); [lia|].
      rewrite Hmod2 in HmodXY |- *. rewrite Hdiv2.
      assert (Y <= n / X + 1).
      { pose proof (Z.div_mod (n / X) Y ltac:(lia)).
        assert (0 <= n / X / Y) by (apply Z.div_pos; lia). nia. }
      destruct (Z.eqb_spec ((n + 1) mod (X * Y)) 0) as [_|Hz0]; [|nia].
      f_equal. f_equal. lia.
Qed.

End TrackerCapacity.

Lemma set_layout_fresh (t : ST.GPUSpriteTracker) (w h : Z) :
  ST.fresh_layout (ST.sprite_tracker_set_layout w h t).
Proof.
  unfold ST.sprite_tracker_set_layout. split; cbn; rewrite ?MIN_spec, ?MAX_spec;
    unfold UINT16_MAX; try done; try lia.
  rewrite uint_id_small by lia. lia.
Qed.

(** Below the capacity of a fresh layout, [n] increments lead to slot [n]
    in silence. *)
Lemma increments_below_capacity (t : ST.GPUSpriteTracker) (n : nat) (error : Z) :
  ST.fresh_layout t → Z.of_nat n < ST.capacity t →
  ST.increments n t error = (ST.at_slot t (Z.of_nat n), error).
Proof.
  intros Hf. induction n as [|n IH]; intros Hn.
  - cbn [ST.increments]. change (Z.of_nat 0) with 0. by rewrite at_slot_0.
  - rewrite increments_succ, IH by lia. cbn [fst snd].
    rewrite do_increment_at_slot by (try done; lia).
    replace (Z.of_nat n + 1) with (Z.of_nat (S n)) by lia.
    destruct (Z.eqb_spec (Z.of_nat (S n) mod (ST.xnum t * ST.max_y t)) 0); [|done].
    destruct Hf as [Hx Hy _ _]. unfold ST.capacity in Hn.
    destruct (Z.leb_spec (ST.layer_cap t) (Z.of_nat (S n) / (ST.xnum t * ST.max_y t)));
      [|done].
    assert (Z.of_nat (S n) / (ST.xnum t * ST.max_y t) < ST.layer_cap t); [|lia].
    apply Z.div_lt_upper_bound; nia.
Qed.

(** X2: from a fresh layout, as long as fewer calls of [do_increment] have
    been made than the layout has slots in the layers allowed, the [n]-th
    call leaves the cursor on slot number [n], that is on column
    [n mod xnum], row [(n / xnum) mod max_y], layer [n / (xnum × max_y)],
    reports [min(n / xnum + 1, max_y)] rows, and has not written [*error]. *)
Theorem X2_increments_closed_form (t : ST.GPUSpriteTracker) (n : nat) (error : Z) :
  ST.fresh_layout t → Z.of_nat n < ST.capacity t →
  ST.increments n t error = (ST.at_slot t (Z.of_nat n), error).
Proof. apply increments_below_capacity. Qed.

(** Five allocations in the atlas of two columns, two rows and two layers. *)
Lemma X2_increments_closed_form_witness :
  ST.increments 5 Examples.atlas_16_2 0 = (ST.at_slot Examples.atlas_16_2 5, 0).
Proof.
  apply (X2_increments_closed_form Examples.atlas_16_2 5 0).
  - split; vm_compute; done.
  - vm_compute. reflexivity.
Defined.

(** X3: from a fresh layout that allows at least one layer, the call of
    [do_increment] that leaves the last slot of the last allowed layer is
    the first to signal: after [xnum × max_y × min(65535, max_array_len)]
    calls [*error] is 2, and the cursor is on the first slot of the layer
    beyond. *)
Theorem X3_atlas_full_at_capacity (t : ST.GPUSpriteTracker) (error : Z) :
  ST.fresh_layout t → 0 < ST.capacity t →
  ST.increments (Z.to_nat (ST.capacity t)) t error
  = (ST.at_slot t (ST.capacity t), 2)
  ∧ ST.cursor (ST.at_slot t (ST.capacity t)) = (0, 0, ST.layer_cap t).
Proof.
  intros Hf Hcap. pose proof Hf as [Hx Hy _ _]. unfold UINT16_MAX in *.
  assert (ST.capacity t mod (ST.xnum t * ST.max_y t) = 0) as Hmod.
  { unfold ST.capacity. rewrite Z.mul_comm. apply Z.mod_mul. nia. }
  assert (ST.capacity t / (ST.xnum t * ST.max_y t) = ST.layer_cap t) as Hdiv.
  { unfold ST.capacity. rewrite Z.mul_comm. apply Z.div_mul. nia. }
  split.
  - replace (Z.to_nat (ST.capacity t)) with (S (Z.to_nat (ST.capacity t - 1))) by lia.
    rewrite increments_succ, increments_below_capacity by (try done; lia).
    cbn [fst snd]. rewrite Z2Nat.id by lia.
    rewrite do_increment_at_slot by (try done; lia).
    replace (ST.capacity t - 1 + 1) with (ST.capacity t) by lia.
    rewrite Hmod, Hdiv, Z.leb_refl. done.
  - unfold ST.cursor, ST.at_slot. cbn. rewrite Hdiv.
    rewrite <- Z.div_div, Z.rem_mul_r in * by lia.
    pose proof (Z.mod_pos_bound (ST.capacity t) (ST.xnum t) ltac:(lia)).
    pose proof (Z.mod_pos_bound (ST.capacity t / ST.xnum t) (ST.max_y t) ltac:(lia)).
    assert (ST.capacity t mod ST.xnum t = 0) as -> by nia.
    assert ((ST.capacity t / ST.xnum t) mod ST.max_y t = 0) as -> by nia.
    done.
Qed.

(** The eight slots of the atlas of two columns, two rows and two layers. *)
Lemma X3_atlas_full_at_capacity_witness :
  ST.increments (Z.to_nat (ST.capacity Examples.atlas_16_2)) Examples.atlas_16_2 0
  = (ST.at_slot Examples.atlas_16_2 (ST.capacity Examples.atlas_16_2), 2)
  ∧ ST.cursor (ST.at_slot Examples.atlas_16_2 (ST.capacity Examples.atlas_16_2))
    = (0, 0, ST.layer_cap Examples.atlas_16_2).
Proof.
  apply (X3_atlas_full_at_capacity Examples.atlas_16_2 0).
  - split; vm_compute; done.
  - vm_compute. reflexivity.
Defined.

(** X4: [sprite_tracker_set_layout(w, h)] always leaves between 1 and
    65535 columns and rows, one row reported and the cursor on the first
    slot, and keeps the limits; and it leaves as many columns (rows) as fit:
    unless capped at 65535, one more would not fit in [max_texture_size]. *)
Theorem X4_set_layout_largest_fit (t : ST.GPUSpriteTracker) (w h : Z) :
  0 < w → 0 < h →
  let t' := ST.sprite_tracker_set_layout w h t in
  ST.fresh_layout t'
  ∧ ST.max_texture_size t' = ST.max_texture_size t
  ∧ ST.max_array_len t' = ST.max_array_len t
  ∧ (ST.xnum t' < UINT16_MAX → ST.max_texture_size t < (ST.xnum t' + 1) * w)
  ∧ (ST.max_y t' < UINT16_MAX → ST.max_texture_size t < (ST.max_y t' + 1) * h).
Proof.
  intros Hw Hh t'. split; [apply set_layout_fresh|]. do 2 (split; [done|]).
  unfold t', ST.sprite_tracker_set_layout. cbn. rewrite !MIN_spec, !MAX_spec.
  unfold UINT16_MAX. rewrite uint_id_small by lia.
  set (m := ST.max_texture_size t).
  pose proof (Z.div_mod m w ltac:(lia)). pose proof (Z.mod_pos_bound m w Hw).
  pose proof (Z.div_mod m h ltac:(lia)). pose proof (Z.mod_pos_bound m h Hh).
  split; intros; nia.
Qed.

(** The default texture of 1000 pixels and 8 x 16 cells: 125 columns and
    62 rows. *)
Lemma X4_set_layout_largest_fit_witness :
  let t' := ST.sprite_tracker_set_layout 8 16 ST.sprite_tracker_init in
  ST.fresh_layout t'
  ∧ ST.max_texture_size t' = ST.max_texture_size ST.sprite_tracker_init
  ∧ ST.max_array_len t' = ST.max_array_len ST.sprite_tracker_init
  ∧ (ST.xnum t' < UINT16_MAX
     → ST.max_texture_size ST.sprite_tracker_init < (ST.xnum t' + 1) * 8)
  ∧ (ST.max_y t' < UINT16_MAX
     → ST.max_texture_size ST.sprite_tracker_init < (ST.max_y t' + 1) * 16).
Proof.
  apply (X4_set_layout_largest_fit ST.sprite_tracker_init 8 16); lia.
Defined.

(** ** The sprite cache: misses, failure, uniqueness, clearing *)

Section CacheMore.

Import SP Fonts.

Implicit Types (s e : SpritePosition) (rest : list SpritePosition) (b : Bucket)
  (f : Font) (t : ST.GPUSpriteTracker) (gl ex : Z) (sec : bool).

Lemma key_matches_spec s gl ex sec :
  key_matches s gl ex sec = true
  ↔ glyph s = gl ∧ extra_glyphs s = ex ∧ is_second s = sec.
Proof.
  unfold key_matches. rewrite !andb_true_iff, !Z.eqb_eq, eqb_true_iff. tauto.
Qed.

Lemma entry_entries b d : entry b d = entries b !! d.
Proof. by destruct d. Qed.

(** What the chain walk has seen when it stops at depth [d]: the entries
    before are filled and hold other keys; the entry at [d] is a filled
    match on a hit, is unfilled on a break, and is the filled, unmatched
    last node when a node has to be allocated. *)
Lemma walk_seen rest : ∀ s d0 gl ex sec,
  let r := walk rest s d0 gl ex sec in
  (∀ i e, (i < depth_of r - d0)%nat → (s :: rest) !! i = Some e →
     filled e = true ∧ key_matches e gl ex sec = false)
  ∧ ∃ e, (s :: rest) !! (depth_of r - d0)%nat = Some e
      ∧ match r with
        | CacheHit _ => filled e = true ∧ key_matches e gl ex sec = true
        | Unfilled _ => filled e = false
        | ChainEnd _ => filled e = true ∧ key_matches e gl ex sec = false
                        ∧ (depth_of r - d0)%nat = length rest
        end.
Proof.
  induction rest as [|s' rest IH]; intros s d0 gl ex sec; cbn zeta; cbn [walk].
  - destruct (filled s) eqn:Hf; [destruct (key_matches s gl ex sec) eqn:Hk|];
      cbn [depth_of]; rewrite Nat.sub_diag; (split; [intros; lia|]);
      exists s; by repeat split.
  - destruct (filled s) eqn:Hf; [destruct (key_matches s gl ex sec) eqn:Hk|];
      cbn [depth_of]; rewrite ?Nat.sub_diag;
      try ((split; [intros; lia|]); exists s; by repeat split).
    specialize (IH s' (S d0) gl ex sec). cbn zeta in IH.
    pose proof (walk_depth_ge rest s' (S d0) gl ex sec) as Hge.
    set (r := walk rest s' (S d0) gl ex sec) in *.
    destruct IH as [IH1 (e & He & Hr)].
    replace (depth_of r - d0)%nat with (S (depth_of r - S d0)) by lia. split.
    + intros [|i] e' Hi He'; cbn in He'; [by inversion He'; subst|].
      apply (IH1 i); [lia|done].
    + exists e. split; [done|]. destruct r; try done.
      destruct Hr as (? & ? & ->). done.
Qed.

Lemma entry_set_entry_eq b d e c :
  entries b !! d = Some e → entry (set_entry b d c) d = Some c.
Proof.
  destruct d as [|d]; cbn; [done|]. intros He.
  apply list_lookup_insert_eq. by eapply lookup_lt_Some.
Qed.

(** [sprite_position_for] by the outcome of [find_slot], without any
    assumption on the font. *)
Lemma sprite_position_for_find f t gl ex sec (calloc_ok : bool) (error : Z) :
  let b := default empty_bucket (sprite_map f !! slot_of gl) in
  sprite_position_for f t gl ex sec calloc_ok error =
  match find_slot f gl ex sec with
  | CacheHit d => mkSpf (Some (slot_of gl, d)) f t error
  | Unfilled d =>
      mkSpf (Some (slot_of gl, d))
        (set_sprite_map
           (<[slot_of gl := set_entry b d (claim gl ex sec t)]> (sprite_map f)) f)
        (ST.do_increment t error).1 (ST.do_increment t error).2
  | ChainEnd d =>
      if calloc_ok then
        mkSpf (Some (slot_of gl, S d))
          (set_sprite_map
             (<[slot_of gl := set_entry (mkBucket (head b) (overflow b ++ [zeroed])) (S d)
                                (claim gl ex sec t)]> (sprite_map f)) f)
          (ST.do_increment t error).1 (ST.do_increment t error).2
      else mkSpf None f t 1
  end.
Proof.
  intros b. unfold sprite_position_for, find_slot. fold (slot_of gl). fold b.
  destruct (ST.do_increment t error) as [t' error'] eqn:Hinc. cbn [fst snd].
  destruct ((glyph (head b) =? gl) && filled (head b) && (extra_glyphs (head b) =? ex)
            && Bool.eqb (is_second (head b)) sec) eqn:Hfast; [|reflexivity].
  apply andb_prop in Hfast as [Hfast Hsec]. apply andb_prop in Hfast as [Hfast Hex].
  apply andb_prop in Hfast as [Hgl Hfilled].
  rewrite walk_unfold, Hfilled. unfold key_matches. by rewrite Hgl, Hex, Hsec.
Qed.

Lemma sprite_map_ok_lookup f gl :
  sprite_map_ok f → ∃ b, sprite_map f !! slot_of gl = Some b.
Proof.
  intros Hok. apply lookup_lt_is_Some_2. rewrite Hok. apply slot_of_lt.
Qed.

(** A call that does not find its key claims a slot at the cursor. *)
Lemma miss_claims_cursor f t gl ex sec (calloc_ok : bool) (error : Z) r :
  sprite_map_ok f →
  (∀ d, find_slot f gl ex sec ≠ CacheHit d) →
  spf_ret (sprite_position_for f t gl ex sec calloc_ok error) = Some r →
  deref (spf_font (sprite_position_for f t gl ex sec calloc_ok error)) r
  = Some (claim gl ex sec t)
  ∧ spf_tracker (sprite_position_for f t gl ex sec calloc_ok error)
    = (ST.do_increment t error).1
  ∧ spf_error (sprite_position_for f t gl ex sec calloc_ok error)
    = (ST.do_increment t error).2.
Proof.
  intros Hok Hmiss. destruct (sprite_map_ok_lookup f gl Hok) as [b Hb].
  pose proof (sprite_position_for_find f t gl ex sec calloc_ok error) as Hspf.
  cbv zeta in Hspf. rewrite Hspf. clear Hspf.
  unfold find_slot in *. rewrite Hb in *. change (default empty_bucket (Some b)) with b in *.
  pose proof (walk_seen (overflow b) (head b) O gl ex sec) as [_ (e & He & Hr)].
  cbv zeta in He, Hr. rewrite Nat.sub_0_r in *.
  destruct (walk (overflow b) (head b) O gl ex sec) as [d|d|d] eqn:Hw; cbn [depth_of] in *.
  - by destruct (Hmiss d).
  - cbn. intros [= <-]. unfold deref; cbn.
    rewrite list_lookup_insert_eq by (by eapply lookup_lt_Some). cbn.
    split; [|done]. by eapply entry_set_entry_eq.
  - destruct calloc_ok; [|done]. cbn. intros [= <-]. unfold deref; cbn.
    rewrite list_lookup_insert_eq by (by eapply lookup_lt_Some). cbn.
    split; [|done]. destruct Hr as (_ & _ & ->).
    apply list_lookup_insert_eq. rewrite length_app. cbn. lia.
Qed.

(** A [NULL] return leaves everything as it was, but for [*error]. *)
Lemma null_changes_nothing f t gl ex sec (calloc_ok : bool) (error : Z) :
  spf_ret (sprite_position_for f t gl ex sec calloc_ok error) = None →
  sprite_position_for f t gl ex sec calloc_ok error = mkSpf None f t 1
  ∧ calloc_ok = false
  ∧ ∃ d, find_slot f gl ex sec = ChainEnd d.
Proof.
  pose proof (sprite_position_for_find f t gl ex sec calloc_ok error) as Hspf.
  cbv zeta in Hspf. rewrite Hspf.
  destruct (find_slot f gl ex sec) as [d|d|d]; try done.
  destruct calloc_ok; [done|]. eauto.
Qed.

(** Two keys found in the same entry are the same key. *)
Lemma hits_share_no_entry f gl ex sec gl2 ex2 sec2 d d2 :
  find_slot f gl ex sec = CacheHit d →
  find_slot f gl2 ex2 sec2 = CacheHit d2 →
  (slot_of gl, d) = (slot_of gl2, d2) →
  (gl, ex, sec) = (gl2, ex2, sec2).
Proof.
  unfold find_slot. intros H1 H2 [= Hslot <-]. rewrite <- Hslot in H2.
  set (b := default empty_bucket (sprite_map f !! slot_of gl)) in *.
  pose proof (walk_seen (overflow b) (head b) O gl ex sec) as [_ (e & He & Hr)].
  pose proof (walk_seen (overflow b) (head b) O gl2 ex2 sec2) as [_ (e2 & He2 & Hr2)].
  cbv zeta in *. rewrite H1 in *. rewrite H2 in *. cbn [depth_of] in *.
  rewrite He in He2. inversion He2; subst e2.
  destruct Hr as [_ Hk]. destruct Hr2 as [_ Hk2].
  apply key_matches_spec in Hk as (<- & <- & <-).
  apply key_matches_spec in Hk2 as (<- & <- & <-). done.
Qed.

End CacheMore.

(** X5: a call of [sprite_position_for] whose key is not in the cache, and
    which returns a slot, has stored in that slot the key, [filled = true],
    [rendered = false] and the cursor of the tracker (each coordinate cut
    to 16 bits), and has advanced the tracker by one [do_increment], which
    also decides [*error]. *)
Theorem X5_miss_claims_cursor
    (f : Fonts.Font) (t : ST.GPUSpriteTracker) (gl ex : Z) (sec : bool)
    (calloc_ok : bool) (error : Z) (r : Fonts.SlotRef) :
  Fonts.sprite_map_ok f →
  (∀ d, Fonts.find_slot f gl ex sec ≠ Fonts.CacheHit d) →
  Fonts.spf_ret (Fonts.sprite_position_for f t gl ex sec calloc_ok error) = Some r →
  Fonts.deref (Fonts.spf_font (Fonts.sprite_position_for f t gl ex sec calloc_ok error)) r
  = Some (SP.mkSP true false sec (ST.x t mod 2 ^ 16) (ST.y t mod 2 ^ 16)
            (ST.z t mod 2 ^ 16) gl ex)
  ∧ Fonts.spf_tracker (Fonts.sprite_position_for f t gl ex sec calloc_ok error)
    = (ST.do_increment t error).1
  ∧ Fonts.spf_error (Fonts.sprite_position_for f t gl ex sec calloc_ok error)
    = (ST.do_increment t error).2.
Proof. apply miss_claims_cursor. Qed.

(** Glyph 1029 in the font that caches glyph 5 in the same slot. *)
Lemma X5_miss_claims_cursor_witness :
  Fonts.deref
    (Fonts.spf_font
       (Fonts.sprite_position_for Examples.font_with_5 Examples.atlas_16_2
          1029 0 false true 0)) (5%nat, 1%nat)
  = Some (SP.mkSP true false false
            (ST.x Examples.atlas_16_2 mod 2 ^ 16) (ST.y Examples.atlas_16_2 mod 2 ^ 16)
            (ST.z Examples.atlas_16_2 mod 2 ^ 16) 1029 0)
  ∧ Fonts.spf_tracker
      (Fonts.sprite_position_for Examples.font_with_5 Examples.atlas_16_2
         1029 0 false true 0)
    = (ST.do_increment Examples.atlas_16_2 0).1
  ∧ Fonts.spf_error
      (Fonts.sprite_position_for Examples.font_with_5 Examples.atlas_16_2
         1029 0 false true 0)
    = (ST.do_increment Examples.atlas_16_2 0).2.
Proof.
  apply (X5_miss_claims_cursor Examples.font_with_5 Examples.atlas_16_2
           1029 0 false true 0 (5%nat, 1%nat)).
  - reflexivity.
  - intros d. vm_compute. discriminate.
  - reflexivity.
Defined.

(** X6: [sprite_position_for] returns [NULL] only when the chain of the
    slot is full of other keys and [calloc] fails; it has then written 1 to
    [*error] and nothing else: the font and the tracker are as before. *)
Theorem X6_null_changes_nothing
    (f : Fonts.Font) (t : ST.GPUSpriteTracker) (gl ex : Z) (sec : bool)
    (calloc_ok : bool) (error : Z) :
  Fonts.spf_ret (Fonts.sprite_position_for f t gl ex sec calloc_ok error) = None →
  Fonts.sprite_position_for f t gl ex sec calloc_ok error = Fonts.mkSpf None f t 1
  ∧ calloc_ok = false
  ∧ ∃ d, Fonts.find_slot f gl ex sec = Fonts.ChainEnd d.
Proof. apply null_changes_nothing. Qed.

(** Glyph 1029 when glyph 5 fills the head of its slot and [calloc] fails. *)
Lemma X6_null_changes_nothing_witness :
  Fonts.sprite_position_for Examples.font_with_5 Examples.atlas_16_2 1029 0 false false 0
  = Fonts.mkSpf None Examples.font_with_5 Examples.atlas_16_2 1
  ∧ false = false
  ∧ ∃ d, Fonts.find_slot Examples.font_with_5 1029 0 false = Fonts.ChainEnd d.
Proof.
  apply (X6_null_changes_nothing Examples.font_with_5 Examples.atlas_16_2
           1029 0 false false 0).
  reflexivity.
Defined.

(** X7: two different keys are never answered from the same cache entry:
    if both are found in a font, they are found in different slots or at
    different depths of the chain. *)
Theorem X7_keys_in_different_entries
    (f : Fonts.Font) (gl ex : Z) (sec : bool) (gl2 ex2 : Z) (sec2 : bool) (d d2 : nat) :
  Fonts.find_slot f gl ex sec = Fonts.CacheHit d →
  Fonts.find_slot f gl2 ex2 sec2 = Fonts.CacheHit d2 →
  (gl, ex, sec) ≠ (gl2, ex2, sec2) →
  (Fonts.slot_of gl, d) ≠ (Fonts.slot_of gl2, d2).
Proof. intros H1 H2 Hne Heq. apply Hne. by eapply hits_share_no_entry. Qed.

(** Glyphs 5 and 1029, which share a slot. *)
Lemma X7_keys_in_different_entries_witness :
  (Fonts.slot_of 5, 0%nat) ≠ (Fonts.slot_of 1029, 1%nat).
Proof.
  apply (X7_keys_in_different_entries Examples.font_with_5_and_1029
           5 0 false 1029 0 false 0 1).
  - reflexivity.
  - reflexivity.
  - discriminate.
Defined.

Section CacheOrder.

Import SP Fonts.

Implicit Types (s e : SpritePosition) (rest : list SpritePosition) (b : Bucket)
  (f : Font) (t : ST.GPUSpriteTracker) (gl ex : Z) (sec : bool).

Lemma entries_set_entry b d c : entries (set_entry b d c) = <[d := c]> (entries b).
Proof. by destruct d. Qed.

Lemma claim_key gl ex sec t e :
  key_eq (claim gl ex sec t) e → key_matches e gl ex sec = true.
Proof. intros (Hg & He & Hs). cbn in *. apply key_matches_spec. done. Qed.

Lemma claim_key_r gl ex sec t e :
  key_eq e (claim gl ex sec t) → key_matches e gl ex sec = true.
Proof. intros (Hg & He & Hs). cbn in *. apply key_matches_spec. done. Qed.

(** Claiming the first unfilled entry of a bucket in order keeps it in
    order. *)
Lemma bucket_wf_claim_unfilled idx b gl ex sec t d :
  bucket_wf idx b → slot_of gl = idx →
  walk (overflow b) (head b) O gl ex sec = Unfilled d →
  bucket_wf idx (set_entry b d (claim gl ex sec t)).
Proof.
  intros [Hpre Hdis Hhome] Hslot Hw.
  pose proof (walk_seen (overflow b) (head b) O gl ex sec) as [Hbefore (ed & Hed & Hr)].
  cbv zeta in *. rewrite Hw in *. cbn [depth_of] in *. rewrite Nat.sub_0_r in *.
  fold (entries b) in *.
  assert (∀ j ej, entries b !! j = Some ej → filled ej = true → (j < d)%nat) as Hlt.
  { intros j ej Hj Hf. destruct (decide (j < d)%nat); [done|].
    assert (filled ed = true); [|congruence]. eapply (Hpre d j); [lia|done..]. }
  split; intros *; rewrite !entries_set_entry, !list_lookup_insert_Some.
  - intros Hij [(-> & <- & _)|(Hi & Hei)] [(-> & <- & _)|(Hj & Hej)] Hf; try done.
    + apply (Hbefore i); [|done]. lia.
    + by eapply (Hpre i j).
  - intros [(-> & <- & _)|(Hi & Hei)] [(-> & <- & _)|(Hj & Hej)] Hfi Hfj Hk; try done.
    + apply claim_key in Hk. pose proof (Hlt _ _ Hej Hfj).
      destruct (Hbefore j ej); [done..|congruence].
    + apply claim_key_r in Hk. pose proof (Hlt _ _ Hei Hfi).
      destruct (Hbefore i ei); [done..|congruence].
    + by eapply Hdis.
  - intros [(-> & <- & _)|(Hi & Hei)] Hf; [done|]. by eapply Hhome.
Qed.

(** Appending a claimed node to a bucket in order whose walk reached the
    chain end keeps it in order. *)
Lemma bucket_wf_claim_end idx b gl ex sec t d :
  bucket_wf idx b → slot_of gl = idx →
  walk (overflow b) (head b) O gl ex sec = ChainEnd d →
  bucket_wf idx (set_entry (mkBucket (head b) (overflow b ++ [zeroed])) (S d)
                   (claim gl ex sec t)).
Proof.
  intros [Hpre Hdis Hhome] Hslot Hw.
  pose proof (walk_seen (overflow b) (head b) O gl ex sec) as [Hbefore (ed & Hed & Hr)].
  cbv zeta in *. rewrite Hw in *. cbn [depth_of] in *. rewrite Nat.sub_0_r in *.
  destruct Hr as (Hfd & Hkd & Hd). fold (entries b) in *.
  assert (entries (set_entry (mkBucket (head b) (overflow b ++ [zeroed])) (S d)
                     (claim gl ex sec t))
          = entries b ++ [claim gl ex sec t]) as Hentries.
  { cbn. f_equal. rewrite Hd.
    rewrite <- (Nat.add_0_r (length (overflow b))). by rewrite insert_app_r. }
  assert (∀ j ej, entries b !! j = Some ej →
            filled ej = true ∧ key_matches ej gl ex sec = false) as Hall.
  { intros j ej Hj. destruct (decide (j < d)%nat); [by eapply Hbefore|].
    apply lookup_lt_Some in Hj as Hlen. cbn in Hlen.
    assert (j = d) as -> by lia. by simplify_eq. }
  split; intros *; rewrite !Hentries, !lookup_snoc_Some.
  - intros Hij [(_ & Hei)|(-> & <-)] [(Hj & Hej)|(-> & <-)] Hf; try done;
      by eapply Hall.
  - intros [(Hi & Hei)|(-> & <-)] [(Hj & Hej)|(-> & <-)] Hfi Hfj Hk; try done.
    + by eapply Hdis.
    + apply claim_key_r in Hk. destruct (Hall _ _ Hei). congruence.
    + apply claim_key in Hk. destruct (Hall _ _ Hej). congruence.
  - intros [(_ & Hei)|(-> & <-)] Hf; [by eapply Hhome|done].
Qed.

(** Marking an entry rendered keeps the bucket in order. *)
Lemma bucket_wf_rendered idx b d s flag :
  bucket_wf idx b → entry b d = Some s →
  bucket_wf idx (set_entry b d (set_rendered flag s)).
Proof.
  intros [Hpre Hdis Hhome] Hs. rewrite entry_entries in Hs.
  assert (∀ i e', <[d := set_rendered flag s]> (entries b) !! i = Some e' →
            ∃ e, entries b !! i = Some e ∧ filled e' = filled e ∧ key_eq e' e
                 ∧ glyph e' = glyph e) as Hold.
  { intros i e' [(-> & <- & _)|(Hi & Hei)]%list_lookup_insert_Some.
    - exists s. by split_and!.
    - exists e'. by split_and!. }
  split; intros *; rewrite !entries_set_entry.
  - intros Hij (ei' & Hei & Hfi & _)%Hold (ej' & Hej & Hfj & _)%Hold Hf.
    rewrite Hfi. rewrite Hfj in Hf. by eapply (Hpre i j).
  - intros (ei' & Hei & Hfi & Hki & _)%Hold (ej' & Hej & Hfj & Hkj & _)%Hold Hf1 Hf2 Hk.
    eapply Hdis; [done..|congruence|congruence|].
    destruct Hki as (? & ? & ?), Hkj as (? & ? & ?), Hk as (? & ? & ?).
    split_and!; congruence.
  - intros (e0 & He0 & Hf0 & _ & Hg)%Hold Hf. rewrite Hg. eapply Hhome; [done|congruence].
Qed.

Lemma bucket_wf_empty idx b :
  (∀ i e, entries b !! i = Some e → filled e = false) → bucket_wf idx b.
Proof.
  intros Hall. split; intros *.
  - intros _ _ Hj Hf. apply Hall in Hj. congruence.
  - intros Hi _ Hf. apply Hall in Hi. congruence.
  - intros Hi Hf. apply Hall in Hi. congruence.
Qed.

Lemma font_wf_zero : font_wf zero_font.
Proof.
  split; [reflexivity|]. intros idx b Hb. apply bucket_wf_empty.
  unfold zero_font in Hb. cbn [sprite_map] in Hb.
  apply lookup_replicate in Hb as [-> _].
  intros [|i] e; cbn; [by intros [= <-]|done].
Qed.

Lemma clear_sprite_map_deref f r :
  deref (clear_sprite_map f) r = (λ _, zeroed) <$> deref f r.
Proof.
  unfold deref, clear_sprite_map. cbn. rewrite list_lookup_fmap.
  destruct (sprite_map f !! r.1) as [b|]; [|done]. cbn.
  destruct r.2 as [|d]; cbn; [done|]. by rewrite list_lookup_fmap.
Qed.

Lemma font_wf_clear f : sprite_map_ok f → font_wf (clear_sprite_map f).
Proof.
  intros Hok. split.
  - unfold sprite_map_ok, clear_sprite_map in *. cbn. by rewrite length_fmap.
  - intros idx b Hb. apply bucket_wf_empty. intros i e He.
    pose proof (clear_sprite_map_deref f (idx, i)) as Hd.
    unfold deref in Hd at 1. cbn [fst snd] in Hd. rewrite Hb in Hd. cbn in Hd.
    rewrite entry_entries, He in Hd.
    destruct (deref f (idx, i)); cbn in Hd; by inversion Hd.
Qed.

(** Every step of the life of a cache keeps it in order. *)
Lemma font_wf_step f f' : font_wf f → cache_step f f' → font_wf f'.
Proof.
  intros [Hok Hwf] Hstep. destruct Hstep as [t gl ex sec c e|r s flag Hr].
  - destruct (sprite_map_ok_lookup f gl Hok) as [b Hb].
    rewrite (sprite_position_for_walk _ _ _ _ _ _ _ _ Hb).
    destruct (walk (overflow b) (head b) O gl ex sec) as [d|d|d] eqn:Hw;
      [done| |destruct c; [|done]]; cbn.
    + split; [unfold sprite_map_ok in *; cbn; by rewrite length_insert|].
      intros idx b' [(<- & <- & _)|(Hne & Hb')]%list_lookup_insert_Some; [|by eapply Hwf].
      apply bucket_wf_claim_unfilled; eauto.
    + split; [unfold sprite_map_ok in *; cbn; by rewrite length_insert|].
      intros idx b' [(<- & <- & _)|(Hne & Hb')]%list_lookup_insert_Some; [|by eapply Hwf].
      apply bucket_wf_claim_end; eauto.
  - unfold deref in Hr. unfold store.
    destruct (sprite_map f !! r.1) as [b|] eqn:Hb; [|done]. cbn in Hr.
    split; [unfold sprite_map_ok in *; cbn; by rewrite length_insert|].
    intros idx b' [(<- & <- & _)|(Hne & Hb')]%list_lookup_insert_Some; [|by eapply Hwf].
    apply bucket_wf_rendered; eauto.
Qed.

Lemma font_wf_unique f r1 r2 s1 s2 :
  font_wf f → deref f r1 = Some s1 → deref f r2 = Some s2 →
  filled s1 = true → filled s2 = true → key_eq s1 s2 → r1 = r2.
Proof.
  intros [_ Hwf] H1 H2 Hf1 Hf2 Hk. destruct r1 as [i1 d1], r2 as [i2 d2].
  unfold deref in *. cbn [fst snd] in *.
  destruct (sprite_map f !! i1) as [b1|] eqn:Hb1; [|done].
  destruct (sprite_map f !! i2) as [b2|] eqn:Hb2; [|done]. cbn in H1, H2.
  rewrite entry_entries in H1, H2.
  pose proof (wf_home _ _ (Hwf _ _ Hb1) _ _ H1 Hf1) as Hh1.
  pose proof (wf_home _ _ (Hwf _ _ Hb2) _ _ H2 Hf2) as Hh2.
  destruct Hk as (Hg & He & Hs). rewrite Hg in Hh1. rewrite Hh1 in Hh2. subst i2.
  simplify_eq. f_equal.
  eapply (wf_distinct _ _ (Hwf _ _ Hb1)); [done..|]. by split_and!.
Qed.

End CacheOrder.

Lemma font_wf_lives (f f' : Fonts.Font) :
  Fonts.font_wf f → rtc Fonts.cache_step f f' → Fonts.font_wf f'.
Proof. intros Hwf Hrtc. induction Hrtc; eauto using font_wf_step. Qed.

(** X8: in a font whose cache started all zero or freshly cleared and has
    since been written only by [sprite_position_for] and by [rendered]
    marks, no two filled entries hold the same key
    [(glyph, extra_glyphs, is_second)]: two pointers to filled entries with
    equal keys are the same pointer. *)
Theorem X8_filled_keys_unique
    (g f : Fonts.Font) (r1 r2 : Fonts.SlotRef) (s1 s2 : SP.SpritePosition) :
  Fonts.sprite_map_ok g →
  rtc Fonts.cache_step (Fonts.clear_sprite_map g) f →
  Fonts.deref f r1 = Some s1 → Fonts.deref f r2 = Some s2 →
  SP.filled s1 = true → SP.filled s2 = true →
  Fonts.key_eq s1 s2 →
  r1 = r2.
Proof.
  intros Hok Hlives. eapply font_wf_unique, font_wf_lives; [|done].
  by apply font_wf_clear.
Qed.

(** The all-zero font after glyphs 5 and 1029: the entry of glyph 1029. *)
Lemma X8_filled_keys_unique_witness : (5%nat, 1%nat) = (5%nat, 1%nat).
Proof.
  apply (X8_filled_keys_unique Fonts.zero_font Examples.font_with_5_and_1029
           (5%nat, 1%nat) (5%nat, 1%nat)
           (SP.mkSP true false false 1 0 0 1029 0)
           (SP.mkSP true false false 1 0 0 1029 0)).
  - reflexivity.
  - eapply rtc_l; [apply Fonts.step_position_for|].
    apply rtc_once. apply Fonts.step_position_for.
  - reflexivity.
  - reflexivity.
  - reflexivity.
  - reflexivity.
  - done.
Defined.

(** X9: [clear_sprite_map] keeps every entry of the cache, heads and chain
    nodes alike, and makes each of them all zero.  On a cleared font every
    key is a miss that claims the head of its slot at the cursor of the
    tracker, without any allocation. *)
Theorem X9_clear_sprite_map_resets
    (f : Fonts.Font) (t : ST.GPUSpriteTracker) (gl ex : Z) (sec : bool)
    (calloc_ok : bool) (error : Z) (r : Fonts.SlotRef) :
  Fonts.sprite_map_ok f →
  Fonts.deref (Fonts.clear_sprite_map f) r = (λ _, SP.zeroed) <$> Fonts.deref f r
  ∧ Fonts.spf_ret
      (Fonts.sprite_position_for (Fonts.clear_sprite_map f) t gl ex sec calloc_ok error)
    = Some (Fonts.slot_of gl, 0%nat)
  ∧ Fonts.deref
      (Fonts.spf_font
         (Fonts.sprite_position_for (Fonts.clear_sprite_map f) t gl ex sec calloc_ok error))
      (Fonts.slot_of gl, 0%nat)
    = Some (Fonts.claim gl ex sec t)
  ∧ Fonts.spf_tracker
      (Fonts.sprite_position_for (Fonts.clear_sprite_map f) t gl ex sec calloc_ok error)
    = (ST.do_increment t error).1.
Proof.
  intros Hok. split; [apply clear_sprite_map_deref|].
  pose proof (font_wf_clear f Hok) as [Hok' _].
  destruct (sprite_map_ok_lookup _ gl Hok') as [b Hb].
  assert (Fonts.find_slot (Fonts.clear_sprite_map f) gl ex sec = Fonts.Unfilled 0) as Hfind.
  { unfold Fonts.find_slot. rewrite Hb.
    change (default SP.empty_bucket (Some b)) with b.
    pose proof (clear_sprite_map_deref f (Fonts.slot_of gl, 0%nat)) as Hd.
    unfold Fonts.deref in Hd at 1. cbn [fst snd] in Hd. rewrite Hb in Hd. cbn in Hd.
    rewrite walk_unfold.
    destruct (Fonts.deref f (Fonts.slot_of gl, 0%nat)); cbn in Hd; [|done].
    inversion Hd as [Hhead]. by rewrite Hhead. }
  assert (Fonts.spf_ret
            (Fonts.sprite_position_for (Fonts.clear_sprite_map f) t gl ex sec
               calloc_ok error) = Some (Fonts.slot_of gl, 0%nat)) as Hret.
  { pose proof (sprite_position_for_find (Fonts.clear_sprite_map f) t gl ex sec
                  calloc_ok error) as Hspf.
    cbv zeta in Hspf. rewrite Hspf, Hfind. done. }
  split; [done|].
  destruct (miss_claims_cursor _ t gl ex sec calloc_ok error _ Hok'
              ltac:(intros d; by rewrite Hfind) Hret) as (Hd & Ht & _).
  done.
Qed.

(** Clearing the font that caches glyphs 5 and 1029, then asking for glyph
    1029 with a failing [calloc]. *)
Lemma X9_clear_sprite_map_resets_witness :
  Fonts.deref (Fonts.clear_sprite_map Examples.font_with_5_and_1029) (5%nat, 1%nat)
  = (λ _, SP.zeroed) <$> Fonts.deref Examples.font_with_5_and_1029 (5%nat, 1%nat)
  ∧ Fonts.spf_ret
      (Fonts.sprite_position_for (Fonts.clear_sprite_map Examples.font_with_5_and_1029)
         Examples.atlas_16_2 1029 0 false false 0)
    = Some (Fonts.slot_of 1029, 0%nat)
  ∧ Fonts.deref
      (Fonts.spf_font
         (Fonts.sprite_position_for (Fonts.clear_sprite_map Examples.font_with_5_and_1029)
            Examples.atlas_16_2 1029 0 false false 0))
      (Fonts.slot_of 1029, 0%nat)
    = Some (Fonts.claim 1029 0 false Examples.atlas_16_2)
  ∧ Fonts.spf_tracker
      (Fonts.sprite_position_for (Fonts.clear_sprite_map Examples.font_with_5_and_1029)
         Examples.atlas_16_2 1029 0 false false 0)
    = (ST.do_increment Examples.atlas_16_2 0).1.
Proof.
  apply (X9_clear_sprite_map_resets Examples.font_with_5_and_1029 Examples.atlas_16_2
           1029 0 false false 0 (5%nat, 1%nat)).
  reflexivity.
Defined.

(** ** Cell metrics: what [update_cell_metrics] writes *)

Section MetricsFacts.

Import SP Fonts.

Variable set_size_for_face : Face → bool.
Variable cell_metrics : option Face → Z * Z * Z * Z * Z.
Variable adjust_line_height_px : Z.
Variable adjust_line_height_frac : option (Z → Z).
Variable malloc_ok : bool.

Lemma clear_sprite_map_idemp (f : Font) :
  clear_sprite_map (clear_sprite_map f) = clear_sprite_map f.
Proof.
  unfold clear_sprite_map, set_sprite_map. cbn. f_equal.
  rewrite <- list_fmap_compose. apply list_fmap_ext. intros i b _. cbn. f_equal.
  by rewrite <- list_fmap_compose.
Qed.

Lemma same_but_fonts_refl (g : Globals) : same_but_fonts g g.
Proof. by split. Qed.

Lemma same_but_fonts_trans (g1 g2 g3 : Globals) :
  same_but_fonts g1 g2 → same_but_fonts g2 g3 → same_but_fonts g1 g3.
Proof. intros [] []. split; congruence. Qed.

Lemma cleared_where_faces S g g' p :
  cleared_where S g g' → face (fonts g' p) = face (fonts g p).
Proof. intros [_ H]. rewrite H. by destruct (_ && _). Qed.

Lemma cleared_where_none g : cleared_where (λ _, false) g g.
Proof. split; [apply same_but_fonts_refl|done]. Qed.

Lemma cleared_where_trans S1 S2 g1 g2 g3 :
  cleared_where S1 g1 g2 → cleared_where S2 g2 g3 →
  cleared_where (λ p, S1 p || S2 p) g1 g3.
Proof.
  intros H12 H23. split; [destruct H12, H23; by eapply same_but_fonts_trans|].
  intros p. pose proof (cleared_where_faces _ _ _ p H12) as Hface.
  destruct H12 as [_ H12], H23 as [_ H23]. rewrite H23, Hface, H12.
  destruct (S1 p), (S2 p), (bool_decide _); cbn; try done.
  apply clear_sprite_map_idemp.
Qed.

Lemma cleared_where_ext S S' g g' :
  (∀ p, is_Some (face (fonts g p)) → S p = S' p) →
  cleared_where S g g' → cleared_where S' g g'.
Proof.
  intros Hext [Hsame H]. split; [done|]. intros p. rewrite H.
  destruct (bool_decide (is_Some (face (fonts g p)))) eqn:Hf.
  - apply bool_decide_eq_true in Hf. by rewrite (Hext p Hf).
  - by rewrite !andb_false_r.
Qed.

(** [CALL] fails without writing, or clears the font it is applied to. *)
Lemma CALL_run p g g' r :
  Fonts.CALL set_size_for_face p g = (g', r) →
  (r = inl FreeTypeError ∧ g' = g)
  ∨ (r = inr tt ∧ cleared_where (λ q, bool_decide (q = p)) g g').
Proof.
  unfold Fonts.CALL, mbind, M_bind, get. cbn.
  destruct (face (fonts g p)) as [fc|] eqn:Hface.
  - destruct (set_size_for_face fc); cbn; intros [= <- <-]; [right|left; done].
    split; [done|]. split; [by split|]. intros q. cbn.
    destruct (decide (q = p)) as [->|Hne].
    + rewrite fn_lookup_insert, bool_decide_eq_true_2 by done.
      rewrite Hface. done.
    + rewrite fn_lookup_insert_ne by done. by rewrite bool_decide_eq_false_2.
  - cbn. intros [= <- <-]. right. split; [done|]. split; [by split|].
    intros q. destruct (decide (q = p)) as [->|Hne].
    + by rewrite Hface, andb_false_r.
    + by rewrite bool_decide_eq_false_2.
Qed.

Lemma cleared_where_same S g g' : cleared_where S g g' → same_but_fonts g g'.
Proof. by intros []. Qed.

Lemma forallb_pointwise {A : Type} (h h' : A → bool) (l : list A) :
  (∀ a, h a = h' a) → forallb h l = forallb h' l.
Proof. intros Hh. induction l as [|a l IH]; cbn; [done|]. by rewrite Hh, IH. Qed.

Lemma fallback_reached_none g i n k :
  face (fonts g (fallback_fonts i)) = None → fallback_reached g i n k = false.
Proof.
  intros Hnone. unfold fallback_reached.
  destruct (bool_decide (i ≤ k < i + n)%nat) eqn:Hr; [|done].
  apply bool_decide_eq_true in Hr. cbn [andb].
  replace (S k - i)%nat with (S (k - i)) by lia. cbn [seq forallb].
  rewrite Hnone. rewrite bool_decide_eq_false_2; [done|]. by intros [].
Qed.

Lemma fallback_reached_step g g1 i n k :
  is_Some (face (fonts g (fallback_fonts i))) →
  (∀ p, face (fonts g1 p) = face (fonts g p)) →
  fallback_reached g i (S n) k
  = bool_decide (fallback_fonts k = fallback_fonts i) || fallback_reached g1 (S i) n k.
Proof.
  intros Hface Hfaces. unfold fallback_reached.
  destruct (decide (k < i)%nat) as [Hlt|Hge].
  - rewrite !bool_decide_eq_false_2; [done|lia|intros [=]; lia|lia].
  - destruct (decide (k = i)) as [->|Hne].
    + rewrite (bool_decide_eq_true_2 (fallback_fonts i = fallback_fonts i)) by done.
      rewrite bool_decide_eq_true_2 by lia. cbn [andb orb].
      replace (S i - i)%nat with 1%nat by lia. cbn.
      by rewrite bool_decide_eq_true_2.
    + rewrite (bool_decide_eq_false_2 (fallback_fonts k = fallback_fonts i))
        by (intros [=]; lia).
      cbn [orb]. f_equal; [apply bool_decide_ext; lia|].
      replace (S k - i)%nat with (S (S k - S i)) by lia. cbn [seq forallb].
      rewrite bool_decide_eq_true_2 by done. cbn [andb].
      apply forallb_pointwise. intros j. by rewrite Hfaces.
Qed.

(** A loop over [fallback_fonts] that succeeds has cleared the elements it
    reached. *)
Lemma for_fallback_fonts_run (fuel : nat) :
  ∀ i g g' r,
  for_fallback_fonts fuel i (Fonts.CALL set_size_for_face) g = (g', r) →
  same_but_fonts g g'
  ∧ (r = inl FreeTypeError
     ∨ r = inr tt
       ∧ cleared_where (λ q, match q with
                             | fallback_fonts k => fallback_reached g i fuel k
                             | _ => false
                             end) g g').
Proof.
  induction fuel as [|fuel IH]; intros i g g' r; cbn [for_fallback_fonts].
  - intros [= <- <-]. split; [apply same_but_fonts_refl|]. right. split; [done|].
    eapply cleared_where_ext; [|apply cleared_where_none].
    intros [] _; try done. unfold fallback_reached.
    rewrite bool_decide_eq_false_2; [done|lia].
  - unfold mbind, M_bind, get at 1. cbn beta iota.
    destruct (face (fonts g (fallback_fonts i))) as [fc|] eqn:Hface.
    + destruct (Fonts.CALL set_size_for_face (fallback_fonts i) g) as [g1 r1] eqn:Hcall.
      apply CALL_run in Hcall as [(-> & ->)|(-> & Hc1)].
      * intros [= <- <-]. split; [apply same_but_fonts_refl|by left].
      * intros Hrest. apply IH in Hrest as [Hsame [->|(-> & Hc2)]].
        -- split; [|by left].
           eapply same_but_fonts_trans; [by eapply cleared_where_same|done].
        -- split; [eapply same_but_fonts_trans; [by eapply cleared_where_same|done]|].
           right. split; [done|].
           eapply cleared_where_ext; [|eapply cleared_where_trans; [exact Hc1|exact Hc2]].
           intros [] _; cbn; try done; try by rewrite bool_decide_eq_false_2.
           symmetry. apply fallback_reached_step; [by rewrite Hface|].
           intros p. by eapply cleared_where_faces.
    + intros [= <- <-]. split; [apply same_but_fonts_refl|]. right. split; [done|].
      eapply cleared_where_ext; [|apply cleared_where_none].
      intros [] _; try done. symmetry. by apply fallback_reached_none.
Qed.

(** A loop over [symbol_map_fonts] that succeeds has cleared the elements
    of its range. *)
Lemma for_symbol_map_fonts_run (n : nat) :
  ∀ i g g' r,
  for_symbol_map_fonts n i (Fonts.CALL set_size_for_face) g = (g', r) →
  same_but_fonts g g'
  ∧ (r = inl FreeTypeError
     ∨ r = inr tt
       ∧ cleared_where (λ q, match q with
                             | symbol_map_fonts k => bool_decide (i ≤ k < i + n)%nat
                             | _ => false
                             end) g g').
Proof.
  induction n as [|n IH]; intros i g g' r; cbn [for_symbol_map_fonts].
  - intros [= <- <-]. split; [apply same_but_fonts_refl|]. right. split; [done|].
    eapply cleared_where_ext; [|apply cleared_where_none].
    intros [] _; try done. rewrite bool_decide_eq_false_2; [done|lia].
  - unfold mbind, M_bind. cbn beta iota.
    destruct (Fonts.CALL set_size_for_face (symbol_map_fonts i) g) as [g1 r1] eqn:Hcall.
    apply CALL_run in Hcall as [(-> & ->)|(-> & Hc1)].
    + intros [= <- <-]. split; [apply same_but_fonts_refl|by left].
    + intros Hrest. apply IH in Hrest as [Hsame [->|(-> & Hc2)]].
      * split; [|by left].
        eapply same_but_fonts_trans; [by eapply cleared_where_same|done].
      * split; [eapply same_but_fonts_trans; [by eapply cleared_where_same|done]|].
        right. split; [done|].
        eapply cleared_where_ext; [|eapply cleared_where_trans; [exact Hc1|exact Hc2]].
        intros [] _; cbn; try done; try by rewrite bool_decide_eq_false_2.
        destruct (decide (i0 = i)) as [->|Hne].
        -- rewrite (bool_decide_eq_true_2 (symbol_map_fonts i = symbol_map_fonts i)) by done.
           cbn. rewrite bool_decide_eq_true_2; [done|lia].
        -- rewrite (bool_decide_eq_false_2 (symbol_map_fonts i0 = symbol_map_fonts i))
             by (intros [=]; lia).
           cbn. apply bool_decide_ext. lia.
Qed.

Lemma resize_footprint_refl (g : Globals) : resize_footprint g g.
Proof. split; auto. Qed.

Lemma resize_footprint_trans (g1 g2 g3 : Globals) :
  resize_footprint g1 g2 → resize_footprint g2 g3 → resize_footprint g1 g3.
Proof.
  intros [? ? ? ? H12] [? ? ? ? H23]. split; try congruence.
  intros p. destruct (H23 p) as [E23|(Hs & Hf' & E23)]; rewrite E23; [apply H12|].
  destruct (H12 p) as [E12|(_ & Hf & E12)]; rewrite E12 in *; right.
  - auto.
  - rewrite clear_sprite_map_idemp. auto.
Qed.

Lemma footprint_bind {A B : Type} (c : M A) (k : A → M B) :
  footprint_ok c → (∀ a, footprint_ok (k a)) → footprint_ok (c ≫= k).
Proof.
  intros Hc Hk g g' r. unfold mbind, M_bind.
  destruct (c g) as [g1 [e|a]] eqn:Hcg.
  - intros [= <- <-]. eauto.
  - intros Hka. eapply resize_footprint_trans; eauto. by eapply Hk.
Qed.

Lemma footprint_ret {A : Type} (a : A) : footprint_ok (mret a : M A).
Proof. intros g g' r [= <- <-]. apply resize_footprint_refl. Qed.

Lemma footprint_raise {A : Type} (e : PyErr) : footprint_ok (raise e : M A).
Proof. intros g g' r [= <- <-]. apply resize_footprint_refl. Qed.

Lemma footprint_get : footprint_ok get.
Proof. intros g g' r [= <- <-]. apply resize_footprint_refl. Qed.

Lemma footprint_modify (h : Globals → Globals) :
  (∀ g, resize_footprint g (h g)) → footprint_ok (modify h).
Proof. intros Hh g g' r [= <- <-]. apply Hh. Qed.

Lemma footprint_CALL p : is_sentinel p = false → footprint_ok (Fonts.CALL set_size_for_face p).
Proof.
  intros Hs g g' r [(-> & ->)|(-> & [[] Hfonts])]%CALL_run;
    [apply resize_footprint_refl|]. split; try done.
  intros q. rewrite Hfonts.
  destruct (bool_decide (q = p)) eqn:Hq; [|by left].
  apply bool_decide_eq_true in Hq as ->.
  destruct (bool_decide (is_Some _)) eqn:Hf; [|by left].
  apply bool_decide_eq_true in Hf. right. auto.
Qed.

Lemma footprint_for_fallback_fonts (fuel : nat) :
  ∀ i, footprint_ok (for_fallback_fonts fuel i (Fonts.CALL set_size_for_face)).
Proof.
  induction fuel as [|fuel IH]; intros i; cbn [for_fallback_fonts];
    [apply footprint_ret|].
  apply footprint_bind; [apply footprint_get|]. intros g.
  destruct (face _); [|apply footprint_ret].
  apply footprint_bind; [by apply footprint_CALL|]. intros _. apply IH.
Qed.

Lemma footprint_for_symbol_map_fonts (n : nat) :
  ∀ i, footprint_ok (for_symbol_map_fonts n i (Fonts.CALL set_size_for_face)).
Proof.
  induction n as [|n IH]; intros i; cbn [for_symbol_map_fonts]; [apply footprint_ret|].
  apply footprint_bind; [by apply footprint_CALL|]. intros _. apply IH.
Qed.

Lemma footprint_update_cell_metrics :
  footprint_ok (update_cell_metrics set_size_for_face cell_metrics
                  adjust_line_height_px adjust_line_height_frac malloc_ok).
Proof.
  unfold update_cell_metrics.
  repeat first
    [ apply footprint_CALL; reflexivity
    | apply footprint_for_fallback_fonts
    | apply footprint_for_symbol_map_fonts
    | apply footprint_get
    | apply footprint_ret
    | apply footprint_raise
    | apply footprint_modify; intros ?; by split; auto
    | match goal with
      | |- footprint_ok (let '(_, _) := ?x in _) => destruct x
      | |- footprint_ok (if ?c then _ else _) => destruct c
      | |- footprint_ok (match ?c with Some _ => _ | None => _ end) => destruct c
      end
    | apply footprint_bind; [|intros ?] ].
Qed.

(** A run of [update_cell_metrics] by cases: a font could not be resized;
    or all could, and then the cell is rejected, or [malloc] fails, or the
    call succeeds. *)
Lemma update_cell_metrics_run g g' r :
  update_cell_metrics set_size_for_face cell_metrics
    adjust_line_height_px adjust_line_height_frac malloc_ok g = (g', r) →
  ∃ g6, same_but_fonts g g6
  ∧ ((r = inl FreeTypeError ∧ g' = g6)
     ∨ (cleared_where (resized g) g g6
        ∧ let '(cw, ch, bl, up, ut) := cell_metrics (face (fonts g medium_font)) in
          let ch1 := if adjust_line_height_px =? 0 then ch
                     else uint (ch + adjust_line_height_px) in
          let ch2 := match adjust_line_height_frac with
                     | None => ch1
                     | Some mul => mul ch1
                     end in
          let up2 := MIN (uint (ch2 - 1)) up in
          let t2 := ST.sprite_tracker_set_layout cw ch2 (sprite_tracker g) in
          if cw =? 0
          then r = inl ValueError_NoCellWidth ∧ g' = set_metrics cw ch bl up ut g6
          else if ch2 <? 4
          then r = inl ValueError_LineHeightTooSmall
               ∧ g' = set_metrics cw ch2 bl up ut g6
          else if ch2 >? 1000
          then r = inl ValueError_LineHeightTooLarge
               ∧ g' = set_metrics cw ch2 bl up ut g6
          else if malloc_ok
          then r = inr (cw, ch2, bl, up2, ut)
               ∧ g' = set_canvas (Some (uint (cw * ch2)))
                        (set_sprite_tracker t2 (set_metrics cw ch2 bl up2 ut g6))
          else r = inl MemoryError
               ∧ g' = set_canvas None
                        (set_sprite_tracker t2 (set_metrics cw ch2 bl up2 ut g6)))).
Proof.
  unfold update_cell_metrics. unfold mbind, M_bind.
  destruct (Fonts.CALL set_size_for_face medium_font g) as [g1 r1] eqn:H1.
  apply CALL_run in H1 as [(-> & ->)|(-> & H1)];
    [intros [= <- <-]; exists g; split; [apply same_but_fonts_refl|by left]|].
  destruct (Fonts.CALL set_size_for_face bold_font g1) as [g2 r2] eqn:H2.
  apply CALL_run in H2 as [(-> & ->)|(-> & H2)];
    [intros [= <- <-]; exists g1; split; [by eapply cleared_where_same|by left]|].
  pose proof (cleared_where_trans _ _ _ _ _ H1 H2) as H12. clear H1 H2.
  destruct (Fonts.CALL set_size_for_face italic_font g2) as [g3 r3] eqn:H3.
  apply CALL_run in H3 as [(-> & ->)|(-> & H3)];
    [intros [= <- <-]; exists g2; split; [by eapply cleared_where_same|by left]|].
  pose proof (cleared_where_trans _ _ _ _ _ H12 H3) as H13. clear H12 H3.
  destruct (Fonts.CALL set_size_for_face bi_font g3) as [g4 r4] eqn:H4.
  apply CALL_run in H4 as [(-> & ->)|(-> & H4)];
    [intros [= <- <-]; exists g3; split; [by eapply cleared_where_same|by left]|].
  pose proof (cleared_where_trans _ _ _ _ _ H13 H4) as H14. clear H13 H4.
  destruct (for_fallback_fonts 256 0 (Fonts.CALL set_size_for_face) g4) as [g5 r5] eqn:H5.
  apply for_fallback_fonts_run in H5 as [Hs5 [->|(-> & H5)]].
  { intros [= <- <-]. exists g5. split; [|by left].
    eapply same_but_fonts_trans; [by eapply cleared_where_same|done]. }
  pose proof (cleared_where_trans _ _ _ _ _ H14 H5) as H15. clear H5 Hs5.
  unfold get at 1. cbn beta iota.
  destruct (for_symbol_map_fonts (symbol_map_fonts_count g5) 0
              (Fonts.CALL set_size_for_face) g5) as [g6 r6] eqn:H6.
  apply for_symbol_map_fonts_run in H6 as [Hs6 [->|(-> & H6)]].
  { intros [= <- <-]. exists g6. split; [|by left].
    eapply same_but_fonts_trans; [by eapply cleared_where_same|done]. }
  pose proof (cleared_where_trans _ _ _ _ _ H15 H6) as H16. clear H6 Hs6.
  assert (cleared_where (resized g) g g6) as Hc.
  { eapply cleared_where_ext; [|exact H16].
    pose proof (cleared_where_same _ _ _ H15) as [].
    intros [] _; cbn; rewrite ?orb_false_r; try done.
    - rewrite !(bool_decide_eq_false_2 (fallback_fonts _ = _)) by done. cbn.
      unfold fallback_reached. f_equal. apply forallb_pointwise.
      intros j. by rewrite (cleared_where_faces _ _ _ _ H14).
    - rewrite !(bool_decide_eq_false_2 (symbol_map_fonts _ = _)) by done. cbn.
      apply bool_decide_ext. lia. }
  clear H14 H15 H16.
  intros Hrun. exists g6. split; [by eapply cleared_where_same|]. right.
  split; [done|].
  revert Hrun. unfold get, modify, raise, mret, M_ret. cbn beta iota.
  rewrite (cleared_where_faces _ _ _ medium_font Hc).
  pose proof (cleared_where_same _ _ _ Hc) as [Htr _ _ _ _ _ _ _ _ _ _].
  destruct (cell_metrics (face (fonts g medium_font))) as [[[[cw ch] bl] up] ut].
  cbn beta iota zeta.
  destruct (cw =? 0); [by intros [= <- <-]|].
  destruct (adjust_line_height_px =? 0), adjust_line_height_frac as [mul|];
    cbn [set_cell_height set_metrics set_underline_position set_sprite_tracker
         set_canvas cell_height cell_width baseline underline_position
         underline_thickness sprite_tracker];
    rewrite ?Htr;
    repeat match goal with |- context [if ?c then _ else _] => destruct c end;
    intros [= <- <-]; (split; [reflexivity|]);
    unfold set_canvas, set_sprite_tracker, set_underline_position, set_cell_height,
      set_metrics;
    cbn [cell_height cell_width baseline underline_position underline_thickness
         sprite_tracker fonts symbol_maps symbol_map_fonts_count canvas gpu spf_calls];
    rewrite ?Htr; reflexivity.
Qed.

End MetricsFacts.

(** X10: whatever its outcome, a call of [update_cell_metrics] leaves the
    symbol maps, the sprites sent to the GPU and every sentinel font
    ([box_font], [missing_font], [blank_font]) as they were; any other font
    is either untouched or, if it has a face, has had its sprite cache
    cleared. *)
Theorem X10_update_cell_metrics_footprint
    (set_size_for_face : Fonts.Face → bool)
    (cell_metrics : option Fonts.Face → Z * Z * Z * Z * Z)
    (adjust_line_height_px : Z) (adjust_line_height_frac : option (Z → Z))
    (malloc_ok : bool) (g : Fonts.Globals) :
  Fonts.resize_footprint g
    (Fonts.update_cell_metrics set_size_for_face cell_metrics
       adjust_line_height_px adjust_line_height_frac malloc_ok g).1.
Proof.
  destruct (Fonts.update_cell_metrics _ _ _ _ _ g) as [g' r] eqn:Hrun.
  by eapply footprint_update_cell_metrics.
Qed.

(** X11: a call of [update_cell_metrics] that succeeds returns the five
    metrics it has stored; the cell is not 0 wide and between 4 and 1000
    high, the underline lies inside the cell, the sprite tracker is the old
    one laid out anew for this cell size, with its cursor on [(0, 0, 0)],
    and the canvas has [cell_width × cell_height] bytes (as an
    [unsigned int] product). *)
Theorem X11_update_cell_metrics_success
    (set_size_for_face : Fonts.Face → bool)
    (cell_metrics : option Fonts.Face → Z * Z * Z * Z * Z)
    (adjust_line_height_px : Z) (adjust_line_height_frac : option (Z → Z))
    (malloc_ok : bool) (g g' : Fonts.Globals) (m : Z * Z * Z * Z * Z) :
  Fonts.update_cell_metrics set_size_for_face cell_metrics
    adjust_line_height_px adjust_line_height_frac malloc_ok g = (g', inr m) →
  m = (Fonts.cell_width g', Fonts.cell_height g', Fonts.baseline g',
       Fonts.underline_position g', Fonts.underline_thickness g')
  ∧ Fonts.cell_width g' ≠ 0
  ∧ 4 <= Fonts.cell_height g' <= 1000
  ∧ Fonts.underline_position g' <= Fonts.cell_height g' - 1
  ∧ Fonts.sprite_tracker g'
    = ST.sprite_tracker_set_layout (Fonts.cell_width g') (Fonts.cell_height g')
        (Fonts.sprite_tracker g)
  ∧ ST.cursor (Fonts.sprite_tracker g') = (0, 0, 0)
  ∧ Fonts.canvas g' = Some (uint (Fonts.cell_width g' * Fonts.cell_height g')).
Proof.
  intros (g6 & Hsame & [(? & _)|(_ & Hrun)])%update_cell_metrics_run; [done|].
  destruct (cell_metrics _) as [[[[cw ch] bl] up] ut]. cbv zeta in Hrun.
  set (ch2 := match adjust_line_height_frac with Some _ => _ | None => _ end) in Hrun.
  destruct (Z.eqb_spec cw 0); [by destruct Hrun|].
  destruct (Z.ltb_spec ch2 4); [by destruct Hrun|].
  rewrite Z.gtb_ltb in Hrun. destruct (Z.ltb_spec 1000 ch2); [by destruct Hrun|].
  destruct malloc_ok; [|by destruct Hrun]. destruct Hrun as [[= ->] ->].
  unfold Fonts.set_canvas, Fonts.set_sprite_tracker, Fonts.set_metrics.
  cbn [Fonts.cell_height Fonts.cell_width Fonts.baseline Fonts.underline_position
       Fonts.underline_thickness Fonts.sprite_tracker Fonts.canvas].
  split; [reflexivity|]. split; [assumption|]. split; [lia|].
  split; [|split; [reflexivity|split; reflexivity]].
  rewrite MIN_spec, (uint_small (ch2 - 1)) by (unfold UINT_MAX; lia). lia.
Qed.

(** Cells 8 x 16 for the globals that hold two cached glyphs. *)
Lemma X11_update_cell_metrics_success_witness :
  (8, 16, 14, 15, 1)
  = (Fonts.cell_width Examples.globals_resized, Fonts.cell_height Examples.globals_resized,
     Fonts.baseline Examples.globals_resized,
     Fonts.underline_position Examples.globals_resized,
     Fonts.underline_thickness Examples.globals_resized)
  ∧ Fonts.cell_width Examples.globals_resized ≠ 0
  ∧ 4 <= Fonts.cell_height Examples.globals_resized <= 1000
  ∧ Fonts.underline_position Examples.globals_resized
    <= Fonts.cell_height Examples.globals_resized - 1
  ∧ Fonts.sprite_tracker Examples.globals_resized
    = ST.sprite_tracker_set_layout (Fonts.cell_width Examples.globals_resized)
        (Fonts.cell_height Examples.globals_resized)
        (Fonts.sprite_tracker Examples.globals_two_caches)
  ∧ ST.cursor (Fonts.sprite_tracker Examples.globals_resized) = (0, 0, 0)
  ∧ Fonts.canvas Examples.globals_resized
    = Some (uint (Fonts.cell_width Examples.globals_resized
                  * Fonts.cell_height Examples.globals_resized)).
Proof.
  apply (X11_update_cell_metrics_success (λ _, true) (λ _, (8, 16, 16 - 2, 16 - 1, 1))
           0 None true Examples.globals_two_caches Examples.globals_resized
           (8, 16, 14, 15, 1)).
  vm_compute. reflexivity.
Defined.

(** X12: after a call of [update_cell_metrics] that succeeds, the sprite
    cache of a font is cleared if the font is one of the four styled fonts,
    an element of [fallback_fonts] before the first one without a face, or
    one of the first [symbol_map_fonts_count] elements of
    [symbol_map_fonts], and has a face; every other font is exactly as it
    was. *)
Theorem X12_update_cell_metrics_clears
    (set_size_for_face : Fonts.Face → bool)
    (cell_metrics : option Fonts.Face → Z * Z * Z * Z * Z)
    (adjust_line_height_px : Z) (adjust_line_height_frac : option (Z → Z))
    (malloc_ok : bool) (g g' : Fonts.Globals) (m : Z * Z * Z * Z * Z)
    (p : Fonts.FontPtr) :
  Fonts.update_cell_metrics set_size_for_face cell_metrics
    adjust_line_height_px adjust_line_height_frac malloc_ok g = (g', inr m) →
  Fonts.fonts g' p = Fonts.font_after_resize g p.
Proof.
  intros (g6 & Hsame & [(? & _)|([_ Hfonts] & Hrun)])%update_cell_metrics_run; [done|].
  destruct (cell_metrics _) as [[[[cw ch] bl] up] ut]. cbv zeta in Hrun.
  repeat match type of Hrun with (if ?c then _ else _) => destruct c end;
    destruct Hrun as [[=] ->].
  unfold Fonts.set_canvas, Fonts.set_sprite_tracker, Fonts.set_metrics.
  cbn [Fonts.fonts]. apply Hfonts.
Qed.

(** The medium font of the globals that hold two cached glyphs. *)
Lemma X12_update_cell_metrics_clears_witness :
  Fonts.fonts Examples.globals_resized Fonts.medium_font
  = Fonts.font_after_resize Examples.globals_two_caches Fonts.medium_font.
Proof.
  apply (X12_update_cell_metrics_clears (λ _, true) (λ _, (8, 16, 16 - 2, 16 - 1, 1))
           0 None true Examples.globals_two_caches Examples.globals_resized
           (8, 16, 14, 15, 1)).
  vm_compute. reflexivity.
Defined.

(** X13: a call of [update_cell_metrics] that fails for another reason
    than memory has not touched the sprite tracker nor the canvas; if FreeType
    refused a size, the cell metrics are untouched as well; if the cell was
    rejected, the rejected width or height is what the globals now hold. *)
Theorem X13_update_cell_metrics_failure
    (set_size_for_face : Fonts.Face → bool)
    (cell_metrics : option Fonts.Face → Z * Z * Z * Z * Z)
    (adjust_line_height_px : Z) (adjust_line_height_frac : option (Z → Z))
    (malloc_ok : bool) (g g' : Fonts.Globals) (e : Fonts.PyErr) :
  Fonts.update_cell_metrics set_size_for_face cell_metrics
    adjust_line_height_px adjust_line_height_frac malloc_ok g = (g', inl e) →
  e ≠ Fonts.MemoryError →
  Fonts.sprite_tracker g' = Fonts.sprite_tracker g
  ∧ Fonts.canvas g' = Fonts.canvas g
  ∧ (e = Fonts.FreeTypeError ∧ Fonts.same_but_fonts g g'
     ∨ e = Fonts.ValueError_NoCellWidth ∧ Fonts.cell_width g' = 0
     ∨ e = Fonts.ValueError_LineHeightTooSmall ∧ Fonts.cell_height g' < 4
     ∨ e = Fonts.ValueError_LineHeightTooLarge ∧ 1000 < Fonts.cell_height g').
Proof.
  intros (g6 & Hsame & [([= ->] & ->)|(_ & Hrun)])%update_cell_metrics_run Hmem.
  { destruct Hsame. split_and!; auto. left. by split. }
  destruct Hsame as [Htr _ _ _ _ _ _ _ Hcv _ _].
  destruct (cell_metrics _) as [[[[cw ch] bl] up] ut]. cbv zeta in Hrun.
  set (ch2 := match adjust_line_height_frac with Some _ => _ | None => _ end) in Hrun.
  destruct (Z.eqb_spec cw 0);
    [destruct Hrun as [[= ->] ->]; cbn [Fonts.set_metrics Fonts.sprite_tracker
       Fonts.canvas Fonts.cell_width Fonts.cell_height]; auto 10|].
  destruct (Z.ltb_spec ch2 4);
    [destruct Hrun as [[= ->] ->]; cbn [Fonts.set_metrics Fonts.sprite_tracker
       Fonts.canvas Fonts.cell_width Fonts.cell_height]; auto 10|].
  rewrite Z.gtb_ltb in Hrun.
  destruct (Z.ltb_spec 1000 ch2);
    [destruct Hrun as [[= ->] ->]; cbn [Fonts.set_metrics Fonts.sprite_tracker
       Fonts.canvas Fonts.cell_width Fonts.cell_height]; auto 10|].
  destruct malloc_ok; destruct Hrun as [[=] _]. by subst.
Qed.

(** A medium face whose cells come out 0 wide. *)
Lemma X13_update_cell_metrics_failure_witness :
  Fonts.sprite_tracker Examples.globals_rejected
  = Fonts.sprite_tracker Examples.globals_two_caches
  ∧ Fonts.canvas Examples.globals_rejected = Fonts.canvas Examples.globals_two_caches
  ∧ (Fonts.ValueError_NoCellWidth = Fonts.FreeTypeError
       ∧ Fonts.same_but_fonts Examples.globals_two_caches Examples.globals_rejected
     ∨ Fonts.ValueError_NoCellWidth = Fonts.ValueError_NoCellWidth
       ∧ Fonts.cell_width Examples.globals_rejected = 0
     ∨ Fonts.ValueError_NoCellWidth = Fonts.ValueError_LineHeightTooSmall
       ∧ Fonts.cell_height Examples.globals_rejected < 4
     ∨ Fonts.ValueError_NoCellWidth = Fonts.ValueError_LineHeightTooLarge
       ∧ 1000 < Fonts.cell_height Examples.globals_rejected).
Proof.
  apply (X13_update_cell_metrics_failure (λ _, true) (λ _, (0, 16, 16 - 2, 16 - 1, 1))
           0 None true Examples.globals_two_caches Examples.globals_rejected
           Fonts.ValueError_NoCellWidth).
  - vm_compute. reflexivity.
  - discriminate.
Defined.

(** ** The line renderer: what it writes *)

Section RenderFacts.

Import SP Fonts.

Variable WIDTH_MASK : Z.
Variable styled_or_fallback_font : Globals → Cell → FontPtr * Globals.
Variable box_drawing_function : Z → option Z.
Variable calloc_succeeds : nat → bool.

Lemma alter_set_sprite_text (x y z : Z) (i : nat) (line : Line) :
  cell_text <$> alter (set_sprite x y z) i line = cell_text <$> line.
Proof.
  unfold Line in *. apply list_eq. intros j.
  rewrite !list_lookup_fmap, list_lookup_alter.
  case_decide; [subst|done]. by destruct (line !! j).
Qed.

Lemma render_box_cell_text (g : Globals) (line : Line) (i : nat) :
  cell_text <$> (render_box_cell box_drawing_function calloc_succeeds g line i).2
  = cell_text <$> line.
Proof.
  unfold render_box_cell. destruct (line !! i) as [cell|]; [|done].
  cbv zeta.
  repeat match goal with
         | |- context [match ?c with Some _ => _ | None => _ end] => destruct c
         | |- context [if ?c then _ else _] => destruct c
         end; cbn [snd]; apply alter_set_sprite_text.
Qed.

Lemma for_cells_text (body : Globals → Line → nat → Globals * Line) (n : nat) :
  (∀ g line i, cell_text <$> (body g line i).2 = cell_text <$> line) →
  ∀ first g line,
  cell_text <$> (for_cells n first body g line).2 = cell_text <$> line.
Proof.
  intros Hbody. induction n as [|n IH]; intros first g line; [done|].
  cbn [for_cells]. specialize (Hbody g line first).
  destruct (body g line first) as [g1 line1]. cbn [snd] in Hbody.
  by rewrite IH.
Qed.

Lemma render_run_text (g : Globals) (line : Line) (first_cell num_cells : Z)
    (font : FontPtr) :
  cell_text <$> (render_run box_drawing_function calloc_succeeds g line
                   first_cell num_cells font).2
  = cell_text <$> line.
Proof.
  unfold render_run. destruct (face (fonts g font)); [done|].
  repeat case_decide; apply for_cells_text; intros; cbn [snd];
    try apply alter_set_sprite_text; apply render_box_cell_text.
Qed.

Lemma render_line_step_text (st : LoopState) (i : Z) :
  cell_text <$> cells (render_line_step WIDTH_MASK styled_or_fallback_font
                         box_drawing_function calloc_succeeds st i)
  = cell_text <$> cells st.
Proof.
  unfold render_line_step. destruct (prev_width st =? 2); [done|].
  destruct (cells st !! Z.to_nat i) as [cell|]; [|done].
  destruct (font_for_cell _ _ _) as [cell_font g]. case_decide; [done|].
  destruct (run_font st) as [rf|]; [|done].
  destruct (i >? first_cell_in_run st); [|done].
  pose proof (render_run_text g (cells st) i (i - first_cell_in_run st) rf) as Hrun.
  destruct (render_run _ _ _ _ _ _ _) as [g1 line1]. done.
Qed.

Lemma render_line_loop_text (n : nat) :
  ∀ (i : Z) (st : LoopState),
  cell_text <$> cells (render_line_loop WIDTH_MASK styled_or_fallback_font
                         box_drawing_function calloc_succeeds n i st)
  = cell_text <$> cells st.
Proof.
  induction n as [|n IH]; intros i st; [done|].
  cbn [render_line_loop]. by rewrite IH, render_line_step_text.
Qed.

Lemma render_line_text (g : Globals) (line : Line) :
  cell_text <$> cells (Fonts.render_line WIDTH_MASK styled_or_fallback_font
                         box_drawing_function calloc_succeeds g line)
  = cell_text <$> line.
Proof.
  unfold Fonts.render_line. cbv zeta.
  set (st := render_line_loop _ _ _ _ _ _ _).
  assert (cell_text <$> cells st = cell_text <$> line) as Hst
    by apply render_line_loop_text.
  destruct (run_font st) as [rf|]; [|done].
  destruct (_ >? _); [|done].
  pose proof (render_run_text (globals st) (cells st) (first_cell_in_run st)
                (xnum line - first_cell_in_run st) rf) as Hrun.
  destruct (render_run _ _ _ _ _ _ _) as [g1 line1]. cbn in *. congruence.
Qed.

End RenderFacts.

(** X14: [render_line] only ever writes sprite coordinates: whatever the
    fonts, the box painter and the allocator do, the line it leaves has as
    many cells as before and every cell has kept its [ch], [cc] and
    [attrs]. *)
Theorem X14_render_line_keeps_text
    (WIDTH_MASK : Z)
    (styled_or_fallback_font : Fonts.Globals → Fonts.Cell → Fonts.FontPtr * Fonts.Globals)
    (box_drawing_function : Z → option Z) (calloc_succeeds : nat → bool)
    (g : Fonts.Globals) (line : Fonts.Line) :
  Fonts.cell_text <$> Fonts.cells
      (Fonts.render_line WIDTH_MASK styled_or_fallback_font box_drawing_function
         calloc_succeeds g line)
  = Fonts.cell_text <$> line.
Proof. apply render_line_text. Qed.

Section RunFacts.

Import SP Fonts.

Lemma for_cells_alter (h : Cell → Cell) (n : nat) :
  ∀ (first : nat) (g : Globals) (line : Line),
  (for_cells n first (λ g line i, (g, alter h i line)) g line).1 = g ∧
  ∀ i : nat,
    (for_cells n first (λ g line i, (g, alter h i line)) g line).2 !! i
    = if bool_decide (first ≤ i < first + n)%nat then h <$> line !! i else line !! i.
Proof.
  unfold Line. induction n as [|n IH]; intros first g line.
  - split; [done|]. intros i. rewrite bool_decide_eq_false_2; [done|lia].
  - cbn [for_cells]. destruct (IH (S first) g (alter h first line)) as [Hg Hl].
    split; [done|]. intros i. rewrite Hl, list_lookup_alter.
    case_decide as Hi; subst.
    + rewrite bool_decide_eq_false_2 by lia. by rewrite bool_decide_eq_true_2 by lia.
    + destruct (decide (S first ≤ i < S first + n)%nat).
      * by rewrite !bool_decide_eq_true_2 by lia.
      * by rewrite !bool_decide_eq_false_2 by lia.
Qed.

Context (WIDTH_MASK : Z)
  (styled_or_fallback_font : Globals → Cell → FontPtr * Globals)
  (box_drawing_function : Z → option Z) (calloc_succeeds : nat → bool).

Local Abbreviation step := (render_line_step WIDTH_MASK styled_or_fallback_font
                    box_drawing_function calloc_succeeds).
Local Abbreviation loop := (render_line_loop WIDTH_MASK styled_or_fallback_font
                    box_drawing_function calloc_succeeds).

Lemma fonted_cells_app (tr1 tr2 : list Event) :
  fonted_cells (tr1 ++ tr2) = fonted_cells tr1 ++ fonted_cells tr2.
Proof. apply omap_app. Qed.

Lemma rendered_runs_app (tr1 tr2 : list Event) :
  rendered_runs (tr1 ++ tr2) = rendered_runs tr1 ++ rendered_runs tr2.
Proof. apply omap_app. Qed.

Lemma seqZ_snoc (i : nat) : seqZ 0 (Z.of_nat (S i)) = seqZ 0 (Z.of_nat i) ++ [Z.of_nat i].
Proof.
  by rewrite seqZ_S, Z.add_0_l.
Qed.

Lemma scanned_step (line : Line) (i : nat) (st : LoopState) :
  narrow WIDTH_MASK line → (i < length line)%nat → scanned line i st →
  scanned line (S i) (step st (Z.of_nat i)).
Proof.
  intros Hnarrow Hi [Hw Ht Hf].
  pose proof (render_line_step_text WIDTH_MASK styled_or_fallback_font
                box_drawing_function calloc_succeeds st (Z.of_nat i)) as Htext.
  revert Htext. unfold render_line_step.
  destruct (prev_width st =? 2) eqn:Hpw; [lia|]. rewrite Nat2Z.id.
  assert (length (cells st) = length line) as Hlen.
  { apply (f_equal length) in Ht. by rewrite !length_fmap in Ht. }
  destruct (cells st !! i) as [cell|] eqn:Hcell;
    [|apply lookup_ge_None in Hcell; lia].
  assert (Z.land (attrs cell) WIDTH_MASK ≠ 2) as Hcw.
  { destruct (lookup_lt_is_Some_2 line i) as [cell0 Hcell0]; [lia|].
    assert (cell_text cell = cell_text cell0) as Heq.
    { apply (f_equal (λ l, l !! i)) in Ht. rewrite !list_lookup_fmap in Ht.
      unfold Line in *. rewrite Hcell, Hcell0 in Ht.
      cbv [fmap option_fmap option_map] in Ht. congruence. }
    unfold narrow in Hnarrow. rewrite Forall_lookup in Hnarrow.
    specialize (Hnarrow i cell0 Hcell0). cbn in Hnarrow.
    unfold cell_text in Heq. simplify_eq. congruence. }
  destruct (font_for_cell _ _ _) as [cell_font g].
  assert (fonted_cells (trace st ++ [FontForCell (Z.of_nat i)])
          = seqZ 0 (Z.of_nat (S i))) as Hf'.
  { rewrite fonted_cells_app, Hf, seqZ_snoc. done. }
  case_decide.
  { intros _. split; cbn [prev_width cells trace]; done. }
  destruct (run_font st) as [rf|].
  - destruct (_ >? _).
    + destruct (render_run _ _ _ _ _ _ _) as [g1 line1].
      cbn [cells]. intros Htext. split; cbn [prev_width cells trace].
      * done.
      * congruence.
      * rewrite fonted_cells_app, Hf'. cbn. by rewrite app_nil_r.
    + intros _. split; cbn [prev_width cells trace]; done.
  - intros _. split; cbn [prev_width cells trace]; done.
Qed.

Lemma scanned_loop (line : Line) (n : nat) :
  narrow WIDTH_MASK line →
  ∀ (i : nat) (st : LoopState),
  (i + n ≤ length line)%nat → scanned line i st →
  scanned line (i + n) (loop n (Z.of_nat i) st).
Proof.
  intros Hnarrow. induction n as [|n IH]; intros i st Hi Hst.
  - by rewrite Nat.add_0_r.
  - cbn [render_line_loop].
    replace (Z.of_nat i + 1) with (Z.of_nat (S i)) by lia.
    replace (i + S n)%nat with (S i + n)%nat by lia.
    apply IH; [lia|]. apply scanned_step; [done|lia|done].
Qed.

Lemma render_line_fonted (g : Globals) (line : Line) :
  narrow WIDTH_MASK line →
  fonted_cells (trace (Fonts.render_line WIDTH_MASK styled_or_fallback_font
                         box_drawing_function calloc_succeeds g line))
  = seqZ 0 (xnum line).
Proof.
  intros Hnarrow. unfold Fonts.render_line. cbv zeta.
  pose proof (scanned_loop line (length line) Hnarrow 0 (mkLoop None 0 0 g line [])) as Hst.
  cbn [Nat.add Z.of_nat] in Hst.
  destruct Hst as [_ _ Hf]; [done|split; done|].
  set (st := render_line_loop _ _ _ _ _ _ _) in *.
  destruct (run_font st) as [rf|]; [|done].
  destruct (_ >? _); [|done].
  destruct (render_run _ _ _ _ _ _ _) as [g1 line1]. cbn [trace].
  rewrite fonted_cells_app, Hf. cbn. by rewrite app_nil_r.
Qed.

Lemma in_first_run_step (g : Globals) (line : Line) (f : FontPtr)
    (st : LoopState) (i : Z) :
  uniform styled_or_fallback_font f line →
  in_first_run g line f st → in_first_run g line f (step st i).
Proof.
  intros Hu [Hf H0 Hg Hc Hr]. unfold render_line_step.
  destruct (prev_width st =? 2); [by split|].
  destruct (cells st !! Z.to_nat i) as [cell|] eqn:Hcell; [|by split].
  unfold uniform in Hu. rewrite Forall_lookup in Hu.
  rewrite Hc in Hcell. rewrite (Hu _ _ Hcell (globals st)).
  rewrite decide_True by done.
  split; cbn [run_font first_cell_in_run globals cells trace]; try done.
  rewrite rendered_runs_app, Hr. done.
Qed.

Lemma in_first_run_loop (g : Globals) (line : Line) (f : FontPtr) (n : nat) :
  uniform styled_or_fallback_font f line →
  ∀ (i : Z) (st : LoopState),
  in_first_run g line f st → in_first_run g line f (loop n i st).
Proof.
  intros Hu. induction n as [|n IH]; intros i st Hst; [done|].
  cbn [render_line_loop]. by apply IH, in_first_run_step.
Qed.

Lemma render_line_uniform (g : Globals) (line : Line) (f : FontPtr) :
  uniform styled_or_fallback_font f line → line ≠ [] →
  let st := Fonts.render_line WIDTH_MASK styled_or_fallback_font
              box_drawing_function calloc_succeeds g line in
  rendered_runs (trace st) = [(0, xnum line, f)] ∧
  (globals st, cells st)
  = render_run box_drawing_function calloc_succeeds g line 0 (xnum line) f.
Proof.
  intros Hu Hne. destruct line as [|cell line']; [done|].
  assert (in_first_run g (cell :: line') f
            (loop (length (cell :: line')) 0
               (mkLoop None 0 0 g (cell :: line') []))) as Hst.
  { cbn [length render_line_loop]. apply in_first_run_loop; [done|].
    unfold render_line_step.
    cbn [prev_width cells globals run_font first_cell_in_run trace].
    change (0 =? 2) with false. change (Z.to_nat 0) with 0%nat.
    change ((cell :: line') !! 0%nat) with (Some cell). cbv iota.
    pose proof (Forall_inv Hu) as Hcell. cbn beta in Hcell. rewrite (Hcell g).
    rewrite decide_False by done. by split. }
  cbv zeta. unfold Fonts.render_line. cbv zeta.
  set (st := render_line_loop _ _ _ _ _ _ _) in *.
  destruct Hst as [Hf H0 Hg Hc Hr]. rewrite Hf, H0, Hg, Hc.
  assert ((xnum (cell :: line') >? 0) = true) as ->.
  { apply Z.gtb_lt. unfold xnum. cbn [length]. lia. }
  rewrite Z.sub_0_r.
  destruct (render_run _ _ _ _ _ _ _) as [g1 line1].
  cbn [trace globals cells]. split; [|done].
  rewrite rendered_runs_app, Hr. done.
Qed.

End RunFacts.

(** X15: a run of the blank font or of the missing font (neither has a
    face) gives the cells from [first_cell] up to, not including,
    [first_cell + num_cells] the sprite (0,0,0), respectively
    ([MISSING_GLYPH],0,0); it writes no other cell, and it touches neither
    the sprite maps nor the tracker. *)
Theorem X15_render_run_sentinels
    (box_drawing_function : Z → option Z) (calloc_succeeds : nat → bool)
    (g : Fonts.Globals) (line : Fonts.Line) (first_cell num_cells : Z)
    (font : Fonts.FontPtr) (i : nat) :
  0 ≤ first_cell → 0 ≤ num_cells →
  Fonts.face (Fonts.fonts g font) = None →
  font = Fonts.blank_font ∨ font = Fonts.missing_font →
  let r := Fonts.render_run box_drawing_function calloc_succeeds g line
             first_cell num_cells font in
  r.1 = g ∧
  r.2 !! i
  = if bool_decide (first_cell ≤ Z.of_nat i < first_cell + num_cells)
    then Fonts.set_sprite
           match font with Fonts.blank_font => 0 | _ => Fonts.MISSING_GLYPH end 0 0
         <$> line !! i
    else line !! i.
Proof.
  intros Hfirst Hnum Hface Hfont. cbv zeta. unfold Fonts.render_run.
  rewrite Hface.
  assert (bool_decide (first_cell ≤ Z.of_nat i < first_cell + num_cells)
          = bool_decide (Z.to_nat first_cell ≤ i
                         < Z.to_nat first_cell + Z.to_nat num_cells)%nat) as ->.
  { apply bool_decide_ext. lia. }
  destruct Hfont as [->| ->].
  - rewrite decide_True by done.
    destruct (for_cells_alter (Fonts.set_sprite 0 0 0) (Z.to_nat num_cells)
                (Z.to_nat first_cell) g line) as [Hg Hl].
    split; [exact Hg|apply Hl].
  - rewrite decide_False by done. rewrite decide_True by done.
    destruct (for_cells_alter (Fonts.set_sprite Fonts.MISSING_GLYPH 0 0)
                (Z.to_nat num_cells) (Z.to_nat first_cell) g line) as [Hg Hl].
    split; [exact Hg|apply Hl].
Qed.

Lemma X15_render_run_sentinels_witness :
  let g := Examples.globals_medium in
  let line := [Examples.cell_of 0 0; Examples.cell_of 0 0; Examples.cell_of 0 0] in
  let r := Fonts.render_run Examples.box_painter (λ _, true) g line 1 1
             Fonts.missing_font in
  r.1 = g ∧
  r.2 !! 1%nat
  = if bool_decide (1 ≤ Z.of_nat 1 < 1 + 1)
    then Fonts.set_sprite
           match Fonts.missing_font with
           | Fonts.blank_font => 0
           | _ => Fonts.MISSING_GLYPH
           end 0 0
         <$> line !! 1%nat
    else line !! 1%nat.
Proof.
  apply (X15_render_run_sentinels Examples.box_painter (λ _, true)
           Examples.globals_medium
           [Examples.cell_of 0 0; Examples.cell_of 0 0; Examples.cell_of 0 0]
           1 1 Fonts.missing_font 1%nat).
  - lia.
  - lia.
  - reflexivity.
  - right. reflexivity.
Defined.

(** X16: on a line without a cell of width 2, [render_line] selects a
    font for every cell exactly once, in the order of the cells. *)
Theorem X16_render_line_scans_every_cell
    (WIDTH_MASK : Z)
    (styled_or_fallback_font : Fonts.Globals → Fonts.Cell → Fonts.FontPtr * Fonts.Globals)
    (box_drawing_function : Z → option Z) (calloc_succeeds : nat → bool)
    (g : Fonts.Globals) (line : Fonts.Line) :
  Forall (λ cell, Z.land (Fonts.attrs cell) WIDTH_MASK ≠ 2) line →
  Fonts.fonted_cells
    (Fonts.trace (Fonts.render_line WIDTH_MASK styled_or_fallback_font
                    box_drawing_function calloc_succeeds g line))
  = seqZ 0 (Fonts.xnum line).
Proof. apply render_line_fonted. Qed.

Lemma X16_render_line_scans_every_cell_witness :
  Fonts.fonted_cells
    (Fonts.trace (Fonts.render_line Examples.WIDTH_MASK Examples.medium_for_text
                    Examples.box_painter (λ _, true) Examples.globals_medium
                    Examples.line_box_then_text))
  = seqZ 0 (Fonts.xnum Examples.line_box_then_text).
Proof.
  apply (X16_render_line_scans_every_cell Examples.WIDTH_MASK
           Examples.medium_for_text Examples.box_painter (λ _, true)
           Examples.globals_medium Examples.line_box_then_text).
  repeat constructor; vm_compute; discriminate.
Defined.

(** X17: a line whose cells all select one font is rendered as a single
    run: [render_run] is called once, by the call after the loop, from
    cell 0 and over all [xnum] cells, and the line and the state
    [render_line] leaves are the ones this call returns.  Cells of width 2
    do not split the run. *)
Theorem X17_render_line_single_run
    (WIDTH_MASK : Z)
    (styled_or_fallback_font : Fonts.Globals → Fonts.Cell → Fonts.FontPtr * Fonts.Globals)
    (box_drawing_function : Z → option Z) (calloc_succeeds : nat → bool)
    (g : Fonts.Globals) (line : Fonts.Line) (f : Fonts.FontPtr) :
  Forall (λ cell, ∀ g', Fonts.font_for_cell styled_or_fallback_font g' cell = (f, g'))
    line →
  line ≠ [] →
  let st := Fonts.render_line WIDTH_MASK styled_or_fallback_font
              box_drawing_function calloc_succeeds g line in
  Fonts.rendered_runs (Fonts.trace st) = [(0, Fonts.xnum line, f)] ∧
  (Fonts.globals st, Fonts.cells st)
  = Fonts.render_run box_drawing_function calloc_succeeds g line 0
      (Fonts.xnum line) f.
Proof. apply render_line_uniform. Qed.

Lemma X17_render_line_single_run_witness :
  let line := [Examples.cell_of 0 2; Examples.cell_of 0 0; Examples.cell_of 0 1] in
  let st := Fonts.render_line Examples.WIDTH_MASK Examples.medium_for_text
              Examples.box_painter (λ _, true) Examples.globals_medium line in
  Fonts.rendered_runs (Fonts.trace st) = [(0, Fonts.xnum line, Fonts.blank_font)] ∧
  (Fonts.globals st, Fonts.cells st)
  = Fonts.render_run Examples.box_painter (λ _, true) Examples.globals_medium
      line 0 (Fonts.xnum line) Fonts.blank_font.
Proof.
  apply (X17_render_line_single_run Examples.WIDTH_MASK Examples.medium_for_text
           Examples.box_painter (λ _, true) Examples.globals_medium
           [Examples.cell_of 0 2; Examples.cell_of 0 0; Examples.cell_of 0 1]
           Fonts.blank_font).
  - repeat constructor.
  - discriminate.
Defined.

(** ** Font selection *)

Section SelectionFacts.

Import Fonts.

Lemma in_symbol_maps_first (maps : list SymbolMap) (c : Z) (p : FontPtr) :
  in_symbol_maps maps c = Some p ↔
  ∃ (i : nat) (m : SymbolMap),
    maps !! i = Some m ∧ left m ≤ c ≤ right m ∧
    p = symbol_map_fonts (Z.to_nat (font_idx m)) ∧
    ∀ (j : nat) (m' : SymbolMap),
      (j < i)%nat → maps !! j = Some m' → ¬ (left m' ≤ c ≤ right m').
Proof.
  induction maps as [|m0 maps IH]; cbn [in_symbol_maps].
  - split; [done|]. intros (i & m & Hi & _). by destruct i.
  - destruct ((left m0 <=? c) && (c <=? right m0)) eqn:Hin.
    + apply andb_true_iff in Hin as [?%Z.leb_le ?%Z.leb_le]. split.
      * intros [= <-]. exists 0%nat, m0. split_and!; [done|lia|lia|done|lia].
      * intros (i & m & Hi & Hm & -> & Hmin). destruct i as [|i].
        -- by simplify_eq/=.
        -- exfalso. apply (Hmin 0%nat m0); [lia|done|lia].
    + apply andb_false_iff in Hin. rewrite IH. split.
      * intros (i & m & Hi & Hm & -> & Hmin). exists (S i), m.
        split_and!; [done|lia|lia|done|].
        intros [|j] m' Hj Hm'; simplify_eq/=.
        -- destruct Hin as [?%Z.leb_gt|?%Z.leb_gt]; lia.
        -- apply (Hmin j m'); [lia|done].
      * intros (i & m & Hi & Hm & -> & Hmin). destruct i as [|i]; simplify_eq/=.
        -- destruct Hin as [?%Z.leb_gt|?%Z.leb_gt]; lia.
        -- exists i, m. split_and!; [done|lia|lia|done|].
           intros j m' Hj Hm'. apply (Hmin (S j) m'); [lia|done].
Qed.

Lemma box_glyph_id_range (c : Z) : box_case c → 0 ≤ box_glyph_id c < 0x82.
Proof.
  unfold box_case, box_glyph_id. intros Hc.
  repeat match goal with
         | |- context [if ?b then _ else _] => destruct b eqn:?
         end; lia.
Qed.

Lemma box_glyph_id_inj (c1 c2 : Z) :
  box_case c1 → box_case c2 → box_glyph_id c1 = box_glyph_id c2 → c1 = c2.
Proof.
  unfold box_case, box_glyph_id. intros H1 H2.
  repeat match goal with
         | |- context [if ?b then _ else _] => destruct b eqn:?
         end; lia.
Qed.

Lemma box_slot (c : Z) :
  box_case c → slot_of (uint16 (box_glyph_id c)) = Z.to_nat (box_glyph_id c).
Proof.
  intros Hc%box_glyph_id_range. unfold slot_of, uint16. f_equal.
  change 0x3ff with (Z.ones 10). rewrite Z.land_ones by lia.
  change (2 ^ 16) with 65536. change (2 ^ 10) with 1024.
  rewrite (Z.mod_small _ 65536) by lia. rewrite Z.mod_small by lia. done.
Qed.

End SelectionFacts.

(** X18: [in_symbol_maps] answers with the font of the first symbol map,
    in the order of the array, whose range [left..right] (both ends
    included) holds the character; maps after it are not consulted, and
    it answers NULL exactly when no map holds the character. *)
Theorem X18_in_symbol_maps_first_match
    (maps : list Fonts.SymbolMap) (c : Z) (p : Fonts.FontPtr) :
  Fonts.in_symbol_maps maps c = Some p ↔
  ∃ (i : nat) (m : Fonts.SymbolMap),
    maps !! i = Some m ∧ Fonts.left m ≤ c ≤ Fonts.right m ∧
    p = Fonts.symbol_map_fonts (Z.to_nat (Fonts.font_idx m)) ∧
    ∀ (j : nat) (m' : Fonts.SymbolMap),
      (j < i)%nat → maps !! j = Some m' → ¬ (Fonts.left m' ≤ c ≤ Fonts.right m').
Proof. apply in_symbol_maps_first. Qed.

(** X19: the characters [font_for_cell] gives to the box font get glyph
    ids below 0x82 from [box_glyph_id], a different id for each character,
    and each id is the index of its own slot of the sprite map: two box
    characters never meet in one bucket.  The catch-all id 0x82 is not
    the id of any of them. *)
Theorem X19_box_glyph_ids_distinct
    (styled_or_fallback_font : Fonts.Globals → Fonts.Cell → Fonts.FontPtr * Fonts.Globals)
    (g : Fonts.Globals) (cell1 cell2 : Fonts.Cell) :
  Fonts.box_case (Fonts.ch cell1) → Fonts.box_case (Fonts.ch cell2) →
  Fonts.font_for_cell styled_or_fallback_font g cell1 = (Fonts.box_font, g) ∧
  0 ≤ Fonts.box_glyph_id (Fonts.ch cell1) < 0x82 ∧
  (Fonts.slot_of (uint16 (Fonts.box_glyph_id (Fonts.ch cell1)))
   = Fonts.slot_of (uint16 (Fonts.box_glyph_id (Fonts.ch cell2))) →
   Fonts.ch cell1 = Fonts.ch cell2).
Proof.
  intros H1 H2. split_and!.
  - unfold Fonts.font_for_cell. unfold Fonts.box_case in H1.
    destruct (Fonts.ch cell1 =? 0) eqn:H0; [lia|].
    match goal with
    | |- (if ?b then _ else _) = _ => assert (b = true) as ->; [|done]
    end.
    rewrite !orb_true_iff, !andb_true_iff. lia.
  - by apply box_glyph_id_range.
  - by apply box_glyph_id_range.
  - rewrite (box_slot _ H1), (box_slot _ H2). intros Heq. apply box_glyph_id_inj; [done..|].
    pose proof (box_glyph_id_range _ H1). pose proof (box_glyph_id_range _ H2). lia.
Qed.

Lemma X19_box_glyph_ids_distinct_witness :
  let cell1 := Examples.cell_of 0x2500 1 in
  let cell2 := Examples.cell_of 0xe0b2 1 in
  Fonts.font_for_cell Examples.medium_for_text Examples.globals_medium cell1
  = (Fonts.box_font, Examples.globals_medium) ∧
  0 ≤ Fonts.box_glyph_id (Fonts.ch cell1) < 0x82 ∧
  (Fonts.slot_of (uint16 (Fonts.box_glyph_id (Fonts.ch cell1)))
   = Fonts.slot_of (uint16 (Fonts.box_glyph_id (Fonts.ch cell2))) →
   Fonts.ch cell1 = Fonts.ch cell2).
Proof.
  apply (X19_box_glyph_ids_distinct Examples.medium_for_text Examples.globals_medium
           (Examples.cell_of 0x2500 1) (Examples.cell_of 0xe0b2 1)).
  - unfold Fonts.box_case. cbn. lia.
  - unfold Fonts.box_case. cbn. lia.
Defined.

(** ** Box cells and the cache of the box font *)

Section BoxFacts.

Import SP Fonts.

Variable box_drawing_function : Z → option Z.
Variable calloc_succeeds : nat → bool.

Lemma deref_store (f : Font) (r : SlotRef) (s c : SpritePosition) :
  deref f r = Some s → deref (store f r c) r = Some c.
Proof.
  unfold deref, store. destruct (sprite_map f !! r.1) as [b|] eqn:Hb; [|done].
  cbn. intros Hs. rewrite list_lookup_insert_eq by (by eapply lookup_lt_Some). cbn.
  apply entry_set_entry_eq with s. by rewrite <- entry_entries.
Qed.

Lemma fonts_send (x y z buf : Z) (g : Globals) :
  fonts (send_sprite_to_gpu x y z buf g) = fonts g.
Proof. done. Qed.

Lemma fonts_set_font_at (p : FontPtr) (f : Font) (g : Globals) :
  fonts (set_font_at p f g) p = f.
Proof. apply fn_lookup_insert. Qed.

Lemma cached_find_slot (f : Font) gl ex sec d p :
  cached f gl ex sec d p → find_slot f gl ex sec = CacheHit d.
Proof. intros (b & Hb & Hw & _). unfold find_slot. by rewrite Hb. Qed.

Lemma render_box_cell_caches (g : Globals) (line : Line) (i : nat) (cell : Cell) :
  line !! i = Some cell →
  sprite_map_ok (fonts g box_font) →
  calloc_succeeds (spf_calls g) = true →
  let glyph := uint16 (box_glyph_id (ch cell)) in
  let r := render_box_cell box_drawing_function calloc_succeeds g line i in
  ∃ (d : nat) (s : SpritePosition),
    find_slot (fonts r.1 box_font) glyph 0 false = CacheHit d ∧
    deref (fonts r.1 box_font) (slot_of glyph, d) = Some s ∧
    rendered s = true ∧
    r.2 = alter (set_sprite (SP.x s) (SP.y s) (SP.z s)) i line.
Proof.
  intros Hcell Hok Hcalloc. cbv zeta. unfold render_box_cell. rewrite Hcell. cbv zeta.
  set (glyph := uint16 (box_glyph_id (ch cell))).
  set (r := sprite_position_for (fonts g box_font) (sprite_tracker g) glyph 0 false
              (calloc_succeeds (spf_calls g)) 0).
  destruct (spf_ret r) as [ref|] eqn:Hret.
  2:{ apply sprite_position_for_null in Hret as [_ Hc]. congruence. }
  destruct (cached_after_call _ _ _ _ _ _ _ _ Hok Hret) as (d & s & -> & Hs & Hc).
  fold r in Hs, Hc.
  set (g1 := count_spf_call _).
  assert (fonts g1 box_font = spf_font r) as Hg1 by apply fn_lookup_insert.
  rewrite Hg1, Hs. change (default zeroed (Some s)) with s.
  destruct (rendered s) eqn:Hr.
  - exists d, s. cbn [fst snd]. rewrite Hg1.
    split_and!; [by eapply cached_find_slot|done..].
  - assert (cached (store (spf_font r) (slot_of glyph, d) (set_rendered true s))
              glyph 0 false d (position s)) as Hc'.
    { eapply cached_step; [exact Hc|]. by apply step_rendered. }
    pose proof (deref_store _ _ _ (set_rendered true s) Hs) as Hs'.
    exists d, (set_rendered true s).
    destruct (box_drawing_function (ch cell)); cbn [fst snd];
      rewrite ?fonts_send, fonts_set_font_at;
      (split_and!; [by eapply cached_find_slot|done..]).
Qed.

Lemma render_box_cell_cached (g : Globals) (line : Line) (j : nat) (cell : Cell)
    (d : nat) (s : SpritePosition) :
  line !! j = Some cell →
  let glyph := uint16 (box_glyph_id (ch cell)) in
  find_slot (fonts g box_font) glyph 0 false = CacheHit d →
  deref (fonts g box_font) (slot_of glyph, d) = Some s →
  rendered s = true →
  let r := render_box_cell box_drawing_function calloc_succeeds g line j in
  r.2 = alter (set_sprite (SP.x s) (SP.y s) (SP.z s)) j line ∧
  gpu r.1 = gpu g ∧ sprite_tracker r.1 = sprite_tracker g ∧
  (∀ p, fonts r.1 p = fonts g p) ∧ spf_calls r.1 = S (spf_calls g).
Proof.
  intros Hcell glyph Hfind Hs Hr. cbv zeta. unfold render_box_cell.
  rewrite Hcell. cbv zeta. fold glyph.
  pose proof (sprite_position_for_find (fonts g box_font) (sprite_tracker g) glyph 0
                false (calloc_succeeds (spf_calls g)) 0) as Hspf.
  cbv zeta in Hspf. rewrite Hfind in Hspf. rewrite Hspf.
  cbn [spf_ret spf_font spf_tracker].
  set (g1 := count_spf_call _).
  assert (fonts g1 box_font = fonts g box_font) as Hg1 by apply fn_lookup_insert.
  rewrite Hg1, Hs. change (default zeroed (Some s)) with s. rewrite Hr.
  cbn [fst snd]. split_and!; try done.
  intros p. subst g1. unfold count_spf_call, set_sprite_tracker, set_font_at.
  cbn [fonts]. destruct (decide (p = box_font)) as [->|Hne].
  - by rewrite fn_lookup_insert.
  - by rewrite fn_lookup_insert_ne.
Qed.

End BoxFacts.

(** X20: when [render_box_cell] gets a slot from [sprite_position_for]
    (the allocation, if one is needed, succeeds), it leaves the glyph of
    the cell's character in the cache of the box font, marked rendered,
    whether or not the Python painter raised, and the cell carries the
    coordinates stored in that entry; no other cell of the line is
    written. *)
Theorem X20_render_box_cell_caches
    (box_drawing_function : Z → option Z) (calloc_succeeds : nat → bool)
    (g : Fonts.Globals) (line : Fonts.Line) (i : nat) (cell : Fonts.Cell) :
  line !! i = Some cell →
  Fonts.sprite_map_ok (Fonts.fonts g Fonts.box_font) →
  calloc_succeeds (Fonts.spf_calls g) = true →
  let glyph := uint16 (Fonts.box_glyph_id (Fonts.ch cell)) in
  let r := Fonts.render_box_cell box_drawing_function calloc_succeeds g line i in
  ∃ (d : nat) (s : SP.SpritePosition),
    Fonts.find_slot (Fonts.fonts r.1 Fonts.box_font) glyph 0 false = Fonts.CacheHit d ∧
    Fonts.deref (Fonts.fonts r.1 Fonts.box_font) (Fonts.slot_of glyph, d) = Some s ∧
    SP.rendered s = true ∧
    r.2 = alter (Fonts.set_sprite (SP.x s) (SP.y s) (SP.z s)) i line.
Proof. apply render_box_cell_caches. Qed.

Lemma X20_render_box_cell_caches_witness :
  let g := Examples.globals_8x8 in
  let line := [Examples.cell_of 0x2502 1] in
  let glyph := uint16 (Fonts.box_glyph_id (Fonts.ch (Examples.cell_of 0x2502 1))) in
  let r := Fonts.render_box_cell (λ _, None) (λ _, true) g line 0%nat in
  ∃ (d : nat) (s : SP.SpritePosition),
    Fonts.find_slot (Fonts.fonts r.1 Fonts.box_font) glyph 0 false = Fonts.CacheHit d ∧
    Fonts.deref (Fonts.fonts r.1 Fonts.box_font) (Fonts.slot_of glyph, d) = Some s ∧
    SP.rendered s = true ∧
    r.2 = alter (Fonts.set_sprite (SP.x s) (SP.y s) (SP.z s)) 0%nat line.
Proof.
  apply (X20_render_box_cell_caches (λ _, None) (λ _, true) Examples.globals_8x8
           [Examples.cell_of 0x2502 1] 0%nat (Examples.cell_of 0x2502 1)).
  - reflexivity.
  - vm_compute. reflexivity.
  - reflexivity.
Defined.

(** X21: a box cell whose glyph is in the cache of the box font and
    marked rendered is only given the cached coordinates: the painter is
    not called, nothing is sent to the GPU, the tracker does not advance
    and no font changes.  Together with X20: a box character is painted
    at most once for as long as it stays in the cache. *)
Theorem X21_render_box_cell_paints_once
    (box_drawing_function : Z → option Z) (calloc_succeeds : nat → bool)
    (g : Fonts.Globals) (line : Fonts.Line) (j : nat) (cell : Fonts.Cell)
    (d : nat) (s : SP.SpritePosition) :
  line !! j = Some cell →
  Fonts.find_slot (Fonts.fonts g Fonts.box_font)
    (uint16 (Fonts.box_glyph_id (Fonts.ch cell))) 0 false = Fonts.CacheHit d →
  Fonts.deref (Fonts.fonts g Fonts.box_font)
    (Fonts.slot_of (uint16 (Fonts.box_glyph_id (Fonts.ch cell))), d) = Some s →
  SP.rendered s = true →
  let r := Fonts.render_box_cell box_drawing_function calloc_succeeds g line j in
  r.2 = alter (Fonts.set_sprite (SP.x s) (SP.y s) (SP.z s)) j line ∧
  Fonts.gpu r.1 = Fonts.gpu g ∧
  Fonts.sprite_tracker r.1 = Fonts.sprite_tracker g ∧
  (∀ p, Fonts.fonts r.1 p = Fonts.fonts g p) ∧
  Fonts.spf_calls r.1 = S (Fonts.spf_calls g).
Proof. apply render_box_cell_cached. Qed.

Lemma X21_render_box_cell_paints_once_witness :
  let g := Examples.globals_box_rendered in
  let line := [Examples.cell_of 0x41 1; Examples.cell_of 0x2500 1] in
  let s := SP.mkSP true true false 0 0 0 0 0 in
  let r := Fonts.render_box_cell Examples.box_painter (λ _, true) g line 1%nat in
  r.2 = alter (Fonts.set_sprite (SP.x s) (SP.y s) (SP.z s)) 1%nat line ∧
  Fonts.gpu r.1 = Fonts.gpu g ∧
  Fonts.sprite_tracker r.1 = Fonts.sprite_tracker g ∧
  (∀ p, Fonts.fonts r.1 p = Fonts.fonts g p) ∧
  Fonts.spf_calls r.1 = S (Fonts.spf_calls g).
Proof.
  apply (X21_render_box_cell_paints_once Examples.box_painter (λ _, true)
           Examples.globals_box_rendered
           [Examples.cell_of 0x41 1; Examples.cell_of 0x2500 1] 1%nat
           (Examples.cell_of 0x2500 1) 0%nat (SP.mkSP true true false 0 0 0 0 0)).
  - reflexivity.
  - vm_compute. reflexivity.
  - vm_compute. reflexivity.
  - reflexivity.
Defined.

(** ** Load flags, once more *)

(** X22: the hinting bits [get_load_flags] adds do not depend on the base
    flags: the flags [load_glyph] renders with are the flags [_shape]
    gives HarfBuzz (base [FT_LOAD_DEFAULT]) with [FT_LOAD_RENDER] added. *)
Theorem X22_render_flags_extend_shape_flags (hinting hintstyle base : Z) (self : FreeType.Face) :
  FreeType.get_load_flags hinting hintstyle base
  = Z.lor base (FreeType.get_load_flags hinting hintstyle FreeType.FT_LOAD_DEFAULT)
  ∧ FreeType.load_glyph_flags self
    = Z.lor FreeType.FT_LOAD_RENDER
        (FreeType.get_load_flags (FreeType.hinting self) (FreeType.hintstyle self)
           FreeType.FT_LOAD_DEFAULT).
Proof.
  assert (∀ h hs b, FreeType.get_load_flags h hs b
                    = Z.lor b (FreeType.get_load_flags h hs FreeType.FT_LOAD_DEFAULT)) as Hgen.
  { intros h hs b. unfold FreeType.get_load_flags, FreeType.FT_LOAD_DEFAULT. cbv zeta.
    repeat match goal with |- context [if ?c then _ else _] => destruct c end;
      rewrite ?Z.lor_0_l, ?Z.lor_0_r; done. }
  split; [apply Hgen|]. unfold FreeType.load_glyph_flags. apply Hgen.
Qed.

(** ** The face after [render_bitmap] *)

(** X23: [render_bitmap] gives the face back at the size it had, with one
    exception: when it has reduced the size to make the glyph fit and then
    fails (the glyph does not load at the reduced size, or the old size is
    refused), the face stays at the reduced size.  In particular a call
    that returns true, and any call with [rescale] false, leaves the face
    as it was. *)
Theorem X23_render_bitmap_restores_face
    (FT_Load_Glyph : FreeType.Face → Z → Z → option FreeType.FT_Bitmap)
    (FT_Set_Char_Size : FreeType.Face → Z → Z → Z → Z → bool)
    (scaled : Z → Z → Z → Z)
    (self : FreeType.Face) (glyph_id : Z) (ans : FreeType.ProcessedBitmap)
    (cell_width num_cells bold italic : Z) (rescale : bool) :
  let r := FreeType.render_bitmap FT_Load_Glyph FT_Set_Char_Size scaled self glyph_id ans
             cell_width num_cells bold italic rescale in
  r.2 = self ∨
  (r.1.1 = false ∧ rescale = true ∧
   ∃ bitmap : FreeType.FT_Bitmap,
     FT_Load_Glyph self glyph_id (FreeType.load_glyph_flags self) = Some bitmap ∧
     r.2 = FreeType.mkFace (FreeType.hinting self) (FreeType.hintstyle self)
             (FreeType.is_scalable self)
             (scaled (FreeType.char_width self) (uint (cell_width * num_cells))
                (FreeType.ft_width bitmap))
             (scaled (FreeType.char_height self) (uint (cell_width * num_cells))
                (FreeType.ft_width bitmap))
             (FreeType.xdpi self) (FreeType.ydpi self)).
Proof.
  cbv zeta.
  set (r := FreeType.render_bitmap _ _ _ _ _ _ _ _ _ _ _).
  assert (r = FreeType.render_bitmap FT_Load_Glyph FT_Set_Char_Size scaled self glyph_id
                ans cell_width num_cells bold italic rescale) as Hr by done.
  clearbody r. unfold FreeType.render_bitmap in Hr.
  unfold FreeType.render_bitmap_body at 1 in Hr.
  destruct (FT_Load_Glyph self glyph_id (FreeType.load_glyph_flags self))
    as [bitmap|] eqn:Hload; [|subst r; by left].
  cbv zeta in Hr. cbn [FreeType.width] in Hr.
  destruct (FreeType.ft_width bitmap >? uint (cell_width * num_cells));
    [|subst r; by left].
  destruct (negb (italic =? 0) && _); [subst r; by left|].
  destruct rescale; cbn [andb] in Hr; [|subst r; by left].
  destruct (FreeType.is_scalable self && _); [|subst r; by left].
  unfold FreeType.set_font_size at 1 in Hr.
  destruct (FT_Set_Char_Size self _ _ _ _); [|subst r; by left].
  set (self1 := FreeType.mkFace _ _ _ _ _ _ _) in Hr.
  set (ans1 := FreeType.mkPB _ _ _ _ _) in Hr.
  assert (∃ b a, FreeType.render_bitmap_body FT_Load_Glyph FT_Set_Char_Size scaled
                   (λ self ans, (false, ans, self)) self1 glyph_id ans1
                   cell_width num_cells bold italic false = (b, a, self1))
    as (b & a & Hinner).
  { unfold FreeType.render_bitmap_body.
    destruct (FT_Load_Glyph self1 _ _); [|by eauto]. cbv zeta. cbn [andb].
    repeat match goal with |- context [if ?c then _ else _] => destruct c end;
      eauto. }
  rewrite Hinner in Hr. destruct b.
  - unfold FreeType.set_font_size in Hr.
    destruct (FT_Set_Char_Size self1 _ _ _ _); subst r.
    + left. cbn. by destruct self.
    + right. cbn. split_and!; [done..|]. by exists bitmap.
  - subst r. right. cbn. split_and!; [done..|]. by exists bitmap.
Qed.

(** ** What [place_bitmap_in_cell] stores *)

Section BlitValues.

Import FreeType.

Lemma blit_row_mem (W : Z) (bm : ProcessedBitmap) (n : nat) :
  ∀ (sr dr sc dc : Z) (cell : Canvas) (off : Z),
  0 <= dr * W → dr * W + W <= SIZE_MAX → 0 <= dc →
  0 <= sr * stride bm → 0 <= sc →
  (n = 0%nat ∨ sr * stride bm + sc + Z.of_nat n <= SIZE_MAX + 1) →
  mem (blit_row n bm W sr dr sc dc cell) off
  = if (dr * W + dc <=? off) && (off <? dr * W + dc + Z.min (Z.of_nat n) (W - dc))
    then (mem cell off + buf bm (sr * stride bm + sc + (off - (dr * W + dc)))) `mod` 256
    else mem cell off.
Proof.
  induction n as [|n IH]; intros sr dr sc dc cell off HdrW Hfit Hdc Hsr Hsc Hsrc.
  - cbn [blit_row].
    destruct (Z.leb_spec (dr * W + dc) off), (Z.ltb_spec off (dr * W + dc + Z.min (Z.of_nat 0) (W - dc)));
      cbn [andb]; try done; lia.
  - cbn [blit_row]. destruct Hsrc as [|Hsrc]; [done|].
    destruct (Z.ltb_spec dc W) as [Hlt|Hge].
    + rewrite (size_t_small (dr * W)) by lia.
      rewrite (size_t_small (dr * W + dc)) by lia.
      rewrite (size_t_small (sr * stride bm)) by lia.
      rewrite (size_t_small (sr * stride bm + sc)) by lia.
      rewrite IH; [|done|done|lia|done|lia|right; lia]. cbn [mem].
      destruct (decide (off = dr * W + dc)) as [->|Hne].
      * rewrite fn_lookup_insert.
        destruct (Z.leb_spec (dr * W + (dc + 1)) (dr * W + dc)); [lia|]. cbn [andb].
        destruct (Z.leb_spec (dr * W + dc) (dr * W + dc)); [|lia].
        destruct (Z.ltb_spec (dr * W + dc)
                    (dr * W + dc + Z.min (Z.of_nat (S n)) (W - dc))); [|lia].
        cbn [andb]. do 3 f_equal. lia.
      * rewrite fn_lookup_insert_ne by done.
        destruct (Z.leb_spec (dr * W + (dc + 1)) off),
                 (Z.ltb_spec off (dr * W + (dc + 1) + Z.min (Z.of_nat n) (W - (dc + 1)))),
                 (Z.leb_spec (dr * W + dc) off),
                 (Z.ltb_spec off (dr * W + dc + Z.min (Z.of_nat (S n)) (W - dc)));
          cbn [andb]; try done; try lia.
        do 3 f_equal. lia.
    + destruct (Z.leb_spec (dr * W + dc) off),
               (Z.ltb_spec off (dr * W + dc + Z.min (Z.of_nat (S n)) (W - dc)));
        cbn [andb]; try done; lia.
Qed.

Lemma blit_rows_mem (W H : Z) (bm : ProcessedBitmap) (ssc dsc : Z) (n : nat) :
  ∀ (sr dr : Z) (cell : Canvas) (r c : Z),
  W * H <= SIZE_MAX → 0 <= c < W → 0 <= dsc → 0 <= dr →
  0 <= stride bm → 0 <= sr → 0 <= ssc →
  (sr + Z.of_nat n) * stride bm + width bm <= SIZE_MAX →
  mem (blit_rows n bm W H ssc dsc sr dr cell) (r * W + c)
  = if (dr <=? r) && (r <? dr + Z.min (Z.of_nat n) (H - dr))
       && (dsc <=? c) && (c <? dsc + Z.min (width bm - ssc) (W - dsc))
    then (mem cell (r * W + c)
          + buf bm ((sr + (r - dr)) * stride bm + ssc + (c - dsc))) `mod` 256
    else mem cell (r * W + c).
Proof.
  induction n as [|n IH]; intros sr dr cell r c HWH Hc Hdsc Hdr Hst Hsr Hssc Hsrc.
  - cbn [blit_rows].
    destruct (Z.leb_spec dr r), (Z.ltb_spec r (dr + Z.min (Z.of_nat 0) (H - dr)));
      cbn [andb]; try done; lia.
  - cbn [blit_rows]. destruct (Z.ltb_spec dr H) as [Hlt|Hge].
    + rewrite IH; [|done|done|done|lia|done|lia|done|nia].
      assert (0 <= dr * W) by nia.
      assert (dr * W + W <= SIZE_MAX) by nia.
      assert (0 <= sr * stride bm) by nia.
      rewrite blit_row_mem; [|done|done|done|done|done|].
      2:{ destruct (decide (width bm - ssc <= 0)); [left; lia|right]. nia. }
      destruct (decide (r = dr)) as [->|Hne].
      * destruct (Z.leb_spec (dr + 1) dr); [lia|]. cbn [andb].
        destruct (Z.leb_spec dr dr); [|lia].
        destruct (Z.ltb_spec dr (dr + Z.min (Z.of_nat (S n)) (H - dr))); [|lia].
        cbn [andb].
        destruct (Z.leb_spec (dr * W + dsc) (dr * W + c)),
                 (Z.ltb_spec (dr * W + c)
                    (dr * W + dsc + Z.min (Z.of_nat (Z.to_nat (width bm - ssc))) (W - dsc))),
                 (Z.leb_spec dsc c),
                 (Z.ltb_spec c (dsc + Z.min (width bm - ssc) (W - dsc)));
          cbn [andb]; try done; try lia.
        do 3 f_equal. lia.
      * assert (r * W + c < dr * W + dsc
                ∨ dr * W + dsc + Z.min (Z.of_nat (Z.to_nat (width bm - ssc))) (W - dsc)
                  <= r * W + c) as Hout.
        { destruct (decide (r < dr)); [left|right]; nia. }
        assert ((dr * W + dsc <=? r * W + c)
                && (r * W + c <? dr * W + dsc
                      + Z.min (Z.of_nat (Z.to_nat (width bm - ssc))) (W - dsc)) = false)
          as ->.
        { destruct (Z.leb_spec (dr * W + dsc) (r * W + c)),
                   (Z.ltb_spec (r * W + c)
                      (dr * W + dsc
                       + Z.min (Z.of_nat (Z.to_nat (width bm - ssc))) (W - dsc)));
            cbn [andb]; try done; lia. }
        destruct (Z.leb_spec (dr + 1) r),
                 (Z.ltb_spec r (dr + 1 + Z.min (Z.of_nat n) (H - (dr + 1)))),
                 (Z.leb_spec dr r),
                 (Z.ltb_spec r (dr + Z.min (Z.of_nat (S n)) (H - dr)));
          cbn [andb]; try done; try lia.
        destruct ((dsc <=? c) && (c <? dsc + Z.min (width bm - ssc) (W - dsc))); [|done].
        do 3 f_equal. nia.
    + destruct (Z.leb_spec dr r), (Z.ltb_spec r (dr + Z.min (Z.of_nat (S n)) (H - dr)));
        cbn [andb]; try done; lia.
Qed.

Lemma place_bitmap_in_cell_loops (cell : Z → Z) (bm : ProcessedBitmap)
    (W H xoff yoff baseline : Z) :
  place_bitmap_in_cell cell bm W H xoff yoff baseline
  = blit_rows (Z.to_nat (rows bm)) bm W H
      (src_start_column bm xoff) (dest_start_column bm W xoff)
      0 (dest_start_row yoff baseline) (mkCanvas cell []).
Proof.
  unfold place_bitmap_in_cell, src_start_column, dest_start_column, dest_start_row.
  cbv zeta.
  destruct (xoff <? 0); destruct ((yoff >? 0) && (size_t yoff >? baseline));
    cbv beta iota; by rewrite Z.sub_0_r.
Qed.

Lemma start_bounds (bm : ProcessedBitmap) (W xoff yoff baseline : Z) :
  0 <= start_x bm →
  0 <= src_start_column bm xoff ∧ 0 <= dest_start_column bm W xoff
  ∧ 0 <= dest_start_row yoff baseline.
Proof.
  intros Hs. unfold src_start_column, dest_start_column, dest_start_row. cbv zeta.
  split_and!;
    repeat match goal with |- context [if ?c then _ else _] => destruct c end;
    first [lia | apply size_t_nonneg].
Qed.




End BlitValues.

Lemma place_bitmap_in_cell_mem
    (cell : Z → Z) (bm : FreeType.ProcessedBitmap)
    (cell_width cell_height xoff yoff baseline : Z) (r c : Z) :
  FreeType.blit_fits bm cell_width cell_height →
  0 <= c < cell_width →
  let ssc := FreeType.src_start_column bm xoff in
  let dsc := FreeType.dest_start_column bm cell_width xoff in
  let dsr := FreeType.dest_start_row yoff baseline in
  FreeType.mem
    (FreeType.place_bitmap_in_cell cell bm cell_width cell_height xoff yoff baseline)
    (r * cell_width + c)
  = if (dsr <=? r) && (r <? Z.min (dsr + FreeType.rows bm) cell_height)
       && (dsc <=? c) && (c <? Z.min (dsc + (FreeType.width bm - ssc)) cell_width)
    then (cell (r * cell_width + c)
          + FreeType.buf bm ((r - dsr) * FreeType.stride bm + ssc + (c - dsc))) `mod` 256
    else cell (r * cell_width + c).
Proof.
  intros [Hdest Hstart Hrows Hstride Hsrc] Hc. cbv zeta.
  rewrite place_bitmap_in_cell_loops.
  destruct (start_bounds bm cell_width xoff yoff baseline Hstart) as (Hssc & Hdsc & Hdsr).
  rewrite blit_rows_mem; [|done|done|done|done|done|lia|done|].
  2:{ rewrite Z2Nat.id by done. lia. }
  cbn [FreeType.mem]. rewrite Z2Nat.id by done.
  set (ssc := FreeType.src_start_column bm xoff) in *.
  set (dsc := FreeType.dest_start_column bm cell_width xoff) in *.
  set (dsr := FreeType.dest_start_row yoff baseline) in *.
  destruct (Z.leb_spec dsr r),
           (Z.ltb_spec r (dsr + Z.min (FreeType.rows bm) (cell_height - dsr))),
           (Z.ltb_spec r (Z.min (dsr + FreeType.rows bm) cell_height));
    cbn [andb]; try done; try lia.
  destruct (Z.leb_spec dsc c),
           (Z.ltb_spec c (dsc + Z.min (FreeType.width bm - ssc) (cell_width - dsc))),
           (Z.ltb_spec c (Z.min (dsc + (FreeType.width bm - ssc)) cell_width));
    cbn [andb]; try done; try lia.
Qed.

(** X24: [place_bitmap_in_cell] adds the glyph into the cell, modulo 256,
    pixel by pixel: the byte at row [r], column [c] of the cell gets the
    source byte at row [r - dest_start_row] and column
    [src_start_column + (c - dest_start_column)] added to it when [(r, c)]
    lies in the window that starts at the destination row and column and
    is cut at the edges of the cell and of the bitmap; every other byte of
    the cell keeps its value.  Source columns before [start_x], those
    [trim_borders] set aside, are never read. *)
Theorem X24_place_bitmap_in_cell_adds_glyph
    (cell : Z → Z) (bm : FreeType.ProcessedBitmap)
    (cell_width cell_height xoff yoff baseline : Z) (r c : Z) :
  FreeType.blit_fits bm cell_width cell_height →
  0 <= c < cell_width →
  let ssc := FreeType.src_start_column bm xoff in
  let dsc := FreeType.dest_start_column bm cell_width xoff in
  let dsr := FreeType.dest_start_row yoff baseline in
  FreeType.mem
    (FreeType.place_bitmap_in_cell cell bm cell_width cell_height xoff yoff baseline)
    (r * cell_width + c)
  = if (dsr <=? r) && (r <? Z.min (dsr + FreeType.rows bm) cell_height)
       && (dsc <=? c) && (c <? Z.min (dsc + (FreeType.width bm - ssc)) cell_width)
    then (cell (r * cell_width + c)
          + FreeType.buf bm ((r - dsr) * FreeType.stride bm + ssc + (c - dsc))) `mod` 256
    else cell (r * cell_width + c).
Proof. apply place_bitmap_in_cell_mem. Qed.

Lemma X24_place_bitmap_in_cell_adds_glyph_witness :
  let bm := FreeType.view Examples.bitmap_blank_right in
  let ssc := FreeType.src_start_column bm 2 in
  let dsc := FreeType.dest_start_column bm 5 2 in
  let dsr := FreeType.dest_start_row 1 1 in
  FreeType.mem (FreeType.place_bitmap_in_cell Examples.blank_canvas bm 5 3 2 1 1)
    (1 * 5 + 2)
  = if (dsr <=? 1) && (1 <? Z.min (dsr + FreeType.rows bm) 3)
       && (dsc <=? 2) && (2 <? Z.min (dsc + (FreeType.width bm - ssc)) 5)
    then (Examples.blank_canvas (1 * 5 + 2)
          + FreeType.buf bm ((1 - dsr) * FreeType.stride bm + ssc + (2 - dsc))) `mod` 256
    else Examples.blank_canvas (1 * 5 + 2).
Proof.
  apply (X24_place_bitmap_in_cell_adds_glyph Examples.blank_canvas
           (FreeType.view Examples.bitmap_blank_right) 5 3 2 1 1 1 2).
  - split; vm_compute; congruence.
  - lia.
Defined.


(** ** The prerendered sprites *)

Section PrerenderedFacts.

Import Fonts ST.

Lemma do_increment_silent (t : GPUSpriteTracker) (m error : Z) :
  fresh_layout t → 0 <= m → m + 1 < capacity t →
  do_increment (at_slot t m) error = (at_slot t (m + 1), error).
Proof.
  intros Hf Hm Hcap. rewrite do_increment_at_slot by (try done; lia).
  destruct (Z.eqb_spec ((m + 1) mod (xnum t * max_y t)) 0); [|done].
  destruct Hf as [Hx Hy _ _]. unfold capacity in Hcap. unfold UINT16_MAX in *.
  destruct (Z.leb_spec (layer_cap t) ((m + 1) / (xnum t * max_y t))); [|done].
  assert ((m + 1) / (xnum t * max_y t) < layer_cap t); [|lia].
  apply Z.div_lt_upper_bound; nia.
Qed.

Lemma do_increment_full (t : GPUSpriteTracker) (m error : Z) :
  fresh_layout t → 0 <= m → m + 1 = capacity t →
  do_increment (at_slot t m) error = (at_slot t (m + 1), 2).
Proof.
  intros Hf Hm Hcap. rewrite do_increment_at_slot by (try done; lia).
  destruct Hf as [Hx Hy _ _]. unfold UINT16_MAX in *. rewrite Hcap.
  assert (capacity t mod (xnum t * max_y t) = 0) as ->.
  { unfold capacity. rewrite Z.mul_comm. apply Z.mod_mul. nia. }
  assert (capacity t / (xnum t * max_y t) = layer_cap t) as ->.
  { unfold capacity. rewrite Z.mul_comm. apply Z.div_mul. nia. }
  change (0 =? 0) with true. cbv iota. by rewrite Z.leb_refl.
Qed.

Lemma at_slot_sprite_index (t : GPUSpriteTracker) (m : Z) :
  fresh_layout t → 0 <= m < capacity t →
  SP.sprite_index (x (at_slot t m)) = x (at_slot t m)
  ∧ SP.sprite_index (y (at_slot t m)) = y (at_slot t m)
  ∧ SP.sprite_index (z (at_slot t m)) = z (at_slot t m).
Proof.
  intros Hf Hm. pose proof (at_slot_in_layout t m Hf Hm) as [Hx Hy _ Hz _ _].
  pose proof Hf as [Hxn Hmy _ _]. unfold UINT16_MAX in *.
  assert (z (at_slot t m) < 65535).
  { cbn [at_slot z]. destruct Hm as [Hm0 Hcap]. unfold capacity, layer_cap in Hcap.
    rewrite MIN_spec in Hcap. unfold UINT16_MAX in Hcap.
    apply Z.div_lt_upper_bound; nia. }
  cbn [at_slot xnum max_y] in Hx, Hy.
  unfold SP.sprite_index, uint16. change (2 ^ 16) with 65536.
  rewrite !Z.mod_small; [done|lia..].
Qed.

Lemma send_sprites_fit (t : GPUSpriteTracker) (args : list Z) :
  fresh_layout t →
  ∀ (m x0 : Z) (g : Globals),
  1 <= m → m + Z.of_nat (length args) < capacity t →
  sprite_tracker g = at_slot t m →
  let r := send_sprites args x0 0 g in
  r.2 = inr (if args is [] then x0 else x (at_slot t (m + Z.of_nat (length args) - 1)))
  ∧ sprite_tracker r.1 = at_slot t (m + Z.of_nat (length args))
  ∧ gpu r.1 = gpu g ++ imap (λ k buf, sprite_at t (m + Z.of_nat k) buf) args
  ∧ fonts r.1 = fonts g.
Proof.
  intros Hf. induction args as [|buf args IH]; intros m x0 g Hm Hcap Ht; cbv zeta.
  - cbn [send_sprites length imap fst snd]. rewrite Z.add_0_r, app_nil_r. done.
  - cbn [send_sprites]. cbn [length] in Hcap. rewrite Ht.
    rewrite do_increment_silent by (try done; lia).
    change (negb (0 =? 0)) with false. cbv iota.
    destruct (at_slot_sprite_index t m Hf ltac:(lia)) as (-> & -> & ->).
    specialize (IH (m + 1) (x (at_slot t m))
                  (send_sprite_to_gpu (x (at_slot t m)) (y (at_slot t m))
                     (z (at_slot t m)) buf (set_sprite_tracker (at_slot t (m + 1)) g))).
    cbv zeta in IH. destruct IH as (Hr & Htr & Hgpu & Hfonts); [lia|lia|done|].
    split_and!.
    + rewrite Hr. cbn [length]. destruct args as [|buf' args']; f_equal.
      * cbn [length]. f_equal. f_equal. lia.
      * cbn [length]. f_equal. f_equal. lia.
    + rewrite Htr. cbn [length]. f_equal. lia.
    + rewrite Hgpu. cbn [gpu send_sprite_to_gpu set_sprite_tracker imap].
      rewrite <- app_assoc. cbn [app]. f_equal. f_equal.
      * unfold sprite_at. by rewrite Z.add_0_r.
      * apply imap_ext. intros k b _. cbn. f_equal. lia.
    + rewrite Hfonts. done.
Qed.

Lemma send_sprites_full (t : GPUSpriteTracker) (args : list Z) :
  fresh_layout t →
  ∀ (m x0 : Z) (g : Globals),
  1 <= m < capacity t → capacity t <= m + Z.of_nat (length args) →
  sprite_tracker g = at_slot t m →
  let r := send_sprites args x0 0 g in
  r.2 = inl RuntimeError_OutOfTextureSpace
  ∧ gpu r.1
    = gpu g ++ imap (λ k buf, sprite_at t (m + Z.of_nat k) buf)
                 (take (Z.to_nat (capacity t - 1 - m)) args)
  ∧ fonts r.1 = fonts g.
Proof.
  intros Hf. induction args as [|buf args IH]; intros m x0 g Hm Hcap Ht; cbv zeta.
  - cbn [length] in Hcap. lia.
  - cbn [send_sprites]. cbn [length] in Hcap. rewrite Ht.
    destruct (decide (m + 1 = capacity t)) as [Heq|Hne].
    + rewrite do_increment_full by (try done; lia).
      change (negb (2 =? 0)) with true. cbv iota. cbn [fst snd].
      replace (capacity t - 1 - m) with 0 by lia.
      cbn [Z.to_nat take imap gpu set_sprite_tracker fonts]. by rewrite app_nil_r.
    + rewrite do_increment_silent by (try done; lia).
      change (negb (0 =? 0)) with false. cbv iota.
      destruct (at_slot_sprite_index t m Hf ltac:(lia)) as (-> & -> & ->).
      specialize (IH (m + 1) (x (at_slot t m))
                    (send_sprite_to_gpu (x (at_slot t m)) (y (at_slot t m))
                       (z (at_slot t m)) buf
                       (set_sprite_tracker (at_slot t (m + 1)) g))).
      cbv zeta in IH. destruct IH as (Hr & Hgpu & Hfonts); [lia|lia|done|].
      split_and!; [done| |by rewrite Hfonts].
      rewrite Hgpu. cbn [gpu send_sprite_to_gpu set_sprite_tracker].
      replace (Z.to_nat (capacity t - 1 - m))
        with (S (Z.to_nat (capacity t - 1 - (m + 1)))) by lia.
      cbn [take imap]. rewrite <- app_assoc. cbn [app]. f_equal. f_equal.
      * unfold sprite_at. by rewrite Z.add_0_r.
      * apply imap_ext. intros k b _. cbn. f_equal. lia.
Qed.

End PrerenderedFacts.

Lemma send_prerendered_sprites_fit
    (canvas_ptr : Z) (args : list Z) (g : Fonts.Globals) :
  let t := Fonts.sprite_tracker g in
  let n := Z.of_nat (length args) in
  ST.fresh_layout t → n + 1 < ST.capacity t →
  let r := Fonts.send_prerendered_sprites canvas_ptr args g in
  r.2 = inr (ST.x (ST.at_slot t n))
  ∧ Fonts.sprite_tracker r.1 = ST.at_slot t (n + 1)
  ∧ Fonts.gpu r.1
    = Fonts.gpu g ++ (0, 0, 0, canvas_ptr)
        :: imap (λ k buf, Fonts.sprite_at t (Z.of_nat k + 1) buf) args
  ∧ Fonts.fonts r.1 = Fonts.fonts g.
Proof.
  cbv zeta. intros Hf Hcap.
  assert (Fonts.send_prerendered_sprites canvas_ptr args g
          = Fonts.send_sprites args 0 0
              (Fonts.set_sprite_tracker (ST.at_slot (Fonts.sprite_tracker g) (0 + 1))
                 (Fonts.send_sprite_to_gpu 0 0 0 canvas_ptr g))) as ->.
  { unfold Fonts.send_prerendered_sprites. cbv zeta.
    cbn [Fonts.sprite_tracker Fonts.send_sprite_to_gpu].
    rewrite <- (at_slot_0 _ Hf) at 1.
    rewrite do_increment_silent by (try done; lia). done. }
  pose proof (send_sprites_fit (Fonts.sprite_tracker g) args Hf 1 0
                (Fonts.set_sprite_tracker (ST.at_slot (Fonts.sprite_tracker g) (0 + 1))
                   (Fonts.send_sprite_to_gpu 0 0 0 canvas_ptr g))) as Hloop.
  cbv zeta in Hloop. destruct Hloop as (Hr & Htr & Hgpu & Hfonts); [lia|lia|done|].
  split_and!.
  - rewrite Hr. destruct args as [|buf args]; f_equal.
    f_equal. f_equal. lia.
  - rewrite Htr. f_equal. lia.
  - rewrite Hgpu. cbn [Fonts.gpu Fonts.send_sprite_to_gpu Fonts.set_sprite_tracker].
    rewrite <- app_assoc. cbn [app]. f_equal. f_equal.
    apply imap_ext. intros k b _. cbn. f_equal. lia.
  - by rewrite Hfonts.
Qed.

(** X26: on a layout as [sprite_tracker_set_layout] leaves it, with more
    than [n + 1] slots for [n] prerendered cells,
    [send_prerendered_sprites] sends the blank canvas for slot 0 and the
    k-th cell (from 1) for slot k, in this order and with the coordinates
    of these slots, leaves the cursor on slot [n + 1], touches no font,
    and returns the column of the last slot it used (0 without
    arguments). *)
Theorem X26_send_prerendered_sprites_slots
    (canvas_ptr : Z) (args : list Z) (g : Fonts.Globals) :
  let t := Fonts.sprite_tracker g in
  let n := Z.of_nat (length args) in
  ST.fresh_layout t → n + 1 < ST.capacity t →
  let r := Fonts.send_prerendered_sprites canvas_ptr args g in
  r.2 = inr (ST.x (ST.at_slot t n))
  ∧ Fonts.sprite_tracker r.1 = ST.at_slot t (n + 1)
  ∧ Fonts.gpu r.1
    = Fonts.gpu g ++ (0, 0, 0, canvas_ptr)
        :: imap (λ k buf, Fonts.sprite_at t (Z.of_nat k + 1) buf) args
  ∧ Fonts.fonts r.1 = Fonts.fonts g.
Proof. apply send_prerendered_sprites_fit. Qed.

Lemma X26_send_prerendered_sprites_slots_witness :
  let g := Examples.globals_8x8 in
  let t := Fonts.sprite_tracker g in
  let args := [4096; 8192] in
  let r := Fonts.send_prerendered_sprites 1024 args g in
  r.2 = inr (ST.x (ST.at_slot t 2))
  ∧ Fonts.sprite_tracker r.1 = ST.at_slot t (2 + 1)
  ∧ Fonts.gpu r.1
    = Fonts.gpu g ++ (0, 0, 0, 1024)
        :: imap (λ k buf, Fonts.sprite_at t (Z.of_nat k + 1) buf) args
  ∧ Fonts.fonts r.1 = Fonts.fonts g.
Proof.
  apply (X26_send_prerendered_sprites_slots 1024 [4096; 8192] Examples.globals_8x8).
  - split; vm_compute; (reflexivity || (split; congruence)).
  - vm_compute. reflexivity.
Defined.

(** X27: the tracker signals a full atlas when the cursor leaves the last
    slot, not when a slot is missing.  On a fresh layout of [c] slots,
    [send_prerendered_sprites] with [c - 1] cells or more fails with the
    out-of-texture-space error after sending the blank canvas and the
    first [c - 2] cells only: the cell for the last slot is not sent (and
    with a single slot even the call without cells fails, after the blank
    canvas went out). *)
Theorem X27_send_prerendered_sprites_full
    (canvas_ptr : Z) (args : list Z) (g : Fonts.Globals) :
  let t := Fonts.sprite_tracker g in
  ST.fresh_layout t → 0 < ST.capacity t <= Z.of_nat (length args) + 1 →
  let r := Fonts.send_prerendered_sprites canvas_ptr args g in
  r.2 = inl Fonts.RuntimeError_OutOfTextureSpace
  ∧ Fonts.gpu r.1
    = Fonts.gpu g ++ (0, 0, 0, canvas_ptr)
        :: imap (λ k buf, Fonts.sprite_at t (Z.of_nat k + 1) buf)
             (take (Z.to_nat (ST.capacity t - 2)) args)
  ∧ Fonts.fonts r.1 = Fonts.fonts g.
Proof.
  cbv zeta. intros Hf Hcap.
  destruct (decide (ST.capacity (Fonts.sprite_tracker g) = 1)) as [Hone|Hmore].
  - assert (Fonts.send_prerendered_sprites canvas_ptr args g
            = (Fonts.set_sprite_tracker (ST.at_slot (Fonts.sprite_tracker g) (0 + 1))
                 (Fonts.send_sprite_to_gpu 0 0 0 canvas_ptr g),
               inl Fonts.RuntimeError_OutOfTextureSpace)) as ->.
    { unfold Fonts.send_prerendered_sprites. cbv zeta.
      cbn [Fonts.sprite_tracker Fonts.send_sprite_to_gpu].
      rewrite <- (at_slot_0 _ Hf) at 1.
      rewrite do_increment_full by (try done; lia). done. }
    rewrite Hone. done.
  - assert (Fonts.send_prerendered_sprites canvas_ptr args g
            = Fonts.send_sprites args 0 0
                (Fonts.set_sprite_tracker (ST.at_slot (Fonts.sprite_tracker g) (0 + 1))
                   (Fonts.send_sprite_to_gpu 0 0 0 canvas_ptr g))) as ->.
    { unfold Fonts.send_prerendered_sprites. cbv zeta.
      cbn [Fonts.sprite_tracker Fonts.send_sprite_to_gpu].
      rewrite <- (at_slot_0 _ Hf) at 1.
      rewrite do_increment_silent by (try done; lia). done. }
    pose proof (send_sprites_full (Fonts.sprite_tracker g) args Hf 1 0
                  (Fonts.set_sprite_tracker (ST.at_slot (Fonts.sprite_tracker g) (0 + 1))
                     (Fonts.send_sprite_to_gpu 0 0 0 canvas_ptr g))) as Hloop.
    cbv zeta in Hloop. destruct Hloop as (Hr & Hgpu & Hfonts); [lia|lia|done|].
    split_and!; [done| |by rewrite Hfonts].
    rewrite Hgpu. cbn [Fonts.gpu Fonts.send_sprite_to_gpu Fonts.set_sprite_tracker].
    rewrite <- app_assoc. cbn [app]. f_equal. f_equal.
    replace (ST.capacity (Fonts.sprite_tracker g) - 1 - 1)
      with (ST.capacity (Fonts.sprite_tracker g) - 2) by lia.
    apply imap_ext. intros k b _. cbn. f_equal. lia.
Qed.

Lemma X27_send_prerendered_sprites_full_witness :
  let g := Fonts.set_sprite_tracker Examples.atlas_16_2 Examples.globals_medium in
  let t := Fonts.sprite_tracker g in
  let args := [4096; 8192; 12288; 16384; 20480; 24576; 28672] in
  let r := Fonts.send_prerendered_sprites 1024 args g in
  r.2 = inl Fonts.RuntimeError_OutOfTextureSpace
  ∧ Fonts.gpu r.1
    = Fonts.gpu g ++ (0, 0, 0, 1024)
        :: imap (λ k buf, Fonts.sprite_at t (Z.of_nat k + 1) buf)
             (take (Z.to_nat (ST.capacity t - 2)) args)
  ∧ Fonts.fonts r.1 = Fonts.fonts g.
Proof.
  apply (X27_send_prerendered_sprites_full 1024
           [4096; 8192; 12288; 16384; 20480; 24576; 28672]
           (Fonts.set_sprite_tracker Examples.atlas_16_2 Examples.globals_medium)).
  - split; vm_compute; (reflexivity || (split; congruence)).
  - vm_compute. split; [reflexivity|congruence].
Defined.

(** ** [split_cells] *)

Section CopyFacts.

Import FreeType.

Variable memory0 : Z → Z.
Variable D : Z → Prop.
Variable tgt : Z → Z → Prop.
Hypothesis tgt_dest : ∀ d s, tgt d s → D d.
Hypothesis tgt_src : ∀ d s, tgt d s → ¬ D s.
Hypothesis tgt_fun : ∀ d s s', tgt d s → tgt d s' → s = s'.

Lemma copied_store (A : Z → Prop) (memory : Z → Z) (d s : Z) :
  copied memory0 D tgt A memory → tgt d s →
  copied memory0 D tgt (λ a, A a ∨ a = d) (<[d := memory s]> memory).
Proof.
  intros [Hframe Hdone] Hds. split.
  - intros a Ha. rewrite fn_lookup_insert_ne; [by apply Hframe|].
    intros <-. apply Ha. by eapply tgt_dest.
  - intros d' s' Hd' Hts. destruct (decide (d' = d)) as [->|Hne].
    + rewrite fn_lookup_insert, (tgt_fun _ _ _ Hts Hds).
      apply Hframe. by eapply tgt_src.
    + rewrite fn_lookup_insert_ne by done. destruct Hd' as [Hd'|Hd']; [|done].
      by apply Hdone.
Qed.

Lemma copied_weaken (A A' : Z → Prop) (memory : Z → Z) :
  copied memory0 D tgt A memory → (∀ a, A' a → A a) →
  copied memory0 D tgt A' memory.
Proof. intros [Hframe Hdone] HA. split; [done|]. intros d s Hd. apply Hdone. auto. Qed.

Lemma split_x_copied (src dest row : Z) (n : nat) :
  ∀ (x0 : Z) (A : Z → Prop) (memory : Z → Z),
  copied memory0 D tgt A memory →
  (∀ x, x0 <= x < x0 + Z.of_nat n → tgt (dest + x) (src + size_t (row + x))) →
  copied memory0 D tgt (λ a, A a ∨ ∃ x, x0 <= x < x0 + Z.of_nat n ∧ a = dest + x)
    (split_x n x0 src dest row memory).
Proof.
  induction n as [|n IH]; intros x0 A memory Hc Ht; cbn [split_x].
  - eapply copied_weaken; [exact Hc|]. intros a [Ha|(x & Hx & _)]; [done|lia].
  - eapply copied_weaken.
    + apply (IH (x0 + 1) (λ a, A a ∨ a = dest + x0)).
      * apply copied_store; [done|]. apply Ht. lia.
      * intros x Hx. apply Ht. lia.
    + cbn beta. intros a [Ha|(x & Hx & ->)]; [by left; left|].
      destruct (decide (x = x0)) as [->|Hne]; [by left; right|].
      right. exists x. split; [lia|done].
Qed.

End CopyFacts.

Section SplitFacts.

Import FreeType.

Variables (W H src : Z) (cells : list Z) (memory0 : Z → Z).
Hypothesis apart : split_apart W H src cells.

Local Abbreviation N := (Z.of_nat (length cells)).
Local Abbreviation D := (in_cells W H cells).
Local Abbreviation tgt := (split_target W H src cells).

Lemma split_target_dest (d s : Z) : tgt d s → D d.
Proof.
  intros (i & c & y & x & Hc & Hy & Hx & -> & _). exists i, c. split; [done|]. nia.
Qed.

Lemma split_target_src (d s : Z) : tgt d s → ¬ D s.
Proof.
  destruct apart as [HW HH Hsize _ Hsrc].
  intros (i & c & y & x & Hc & Hy & Hx & _ & ->) (j & cj & Hj & Hin).
  pose proof (lookup_lt_Some _ _ _ Hc) as Hi.
  assert (0 <= y * (Z.of_nat (length cells) * W) + Z.of_nat i * W + x
          < Z.of_nat (length cells) * W * H) as Hidx by nia.
  destruct (Hsrc j cj Hj); lia.
Qed.

Lemma split_target_fun (d s s' : Z) : tgt d s → tgt d s' → s = s'.
Proof.
  destruct apart as [HW HH _ Hcells _].
  intros (i & c & y & x & Hc & Hy & Hx & -> & ->)
         (i' & c' & y' & x' & Hc' & Hy' & Hx' & Heq & ->).
  destruct (decide (i = i')) as [<-|Hne].
  - simplify_eq. assert (y = y') as <- by nia. assert (x = x') as <- by lia. done.
  - destruct (Hcells i i' c c' Hne Hc Hc'); nia.
Qed.

Lemma split_i_copied (y : Z) (rest : list Z) :
  0 <= y < H →
  ∀ (k : nat) (A : Z → Prop) (memory : Z → Z),
  (∀ (j : nat) (c : Z), rest !! j = Some c → cells !! (k + j)%nat = Some c) →
  copied memory0 D tgt A memory →
  copied memory0 D tgt
    (λ a, A a ∨ ∃ (j : nat) (c x : Z),
            rest !! j = Some c ∧ 0 <= x < W ∧ a = c + (y * W + x))
    (split_i rest (Z.of_nat k) src y (size_t (N * W)) W memory).
Proof.
  intros Hy. destruct apart as [HW HH Hsize _ _].
  induction rest as [|c rest IH]; intros k A memory Hsub Hc; cbn [split_i].
  - eapply copied_weaken; [exact Hc|]. intros a [Ha|(j & c & x & Hj & _)]; done.
  - cbv zeta.
    pose proof (Hsub 0%nat c eq_refl) as Hk. rewrite Nat.add_0_r in Hk.
    pose proof (lookup_lt_Some _ _ _ Hk) as Hlt.
    assert (0 <= N * W <= SIZE_MAX) as HNW by nia.
    assert (size_t (size_t (y * size_t (N * W)) + size_t (Z.of_nat k * W))
            = y * (N * W) + Z.of_nat k * W) as ->.
    { rewrite (size_t_small (N * W)) by done.
      rewrite (size_t_small (y * (N * W))) by nia.
      rewrite (size_t_small (Z.of_nat k * W)) by nia.
      apply size_t_small. nia. }
    rewrite (size_t_small (y * W)) by nia.
    eapply copied_weaken.
    + replace (Z.of_nat k + 1) with (Z.of_nat (S k)) by lia.
      apply (IH (S k) (λ a, A a ∨ ∃ x, 0 <= x < 0 + Z.of_nat (Z.to_nat W)
                                       ∧ a = c + y * W + x)).
      * intros j cj Hj. replace (S k + j)%nat with (k + S j)%nat by lia.
        by apply Hsub.
      * apply (split_x_copied memory0 D tgt split_target_dest split_target_src
                 split_target_fun); [done|].
        intros x Hx. exists k, c, y, x.
        rewrite size_t_small by nia.
        split_and!; try done; try lia; lia.
    + cbn beta. intros a [Ha|(j & cj & x & Hj & Hx & ->)]; [by left; left|].
      destruct j as [|j]; cbn in Hj.
      * simplify_eq. left. right. exists x. split; [lia|lia].
      * right. exists j, cj, x. done.
Qed.

Lemma split_y_copied (n : nat) :
  ∀ (y : Z) (A : Z → Prop) (memory : Z → Z),
  0 <= y → y + Z.of_nat n <= H →
  copied memory0 D tgt A memory →
  copied memory0 D tgt
    (λ a, A a ∨ ∃ (j : nat) (c y' x : Z),
            cells !! j = Some c ∧ y <= y' < y + Z.of_nat n ∧ 0 <= x < W
            ∧ a = c + (y' * W + x))
    (split_y n y cells src (size_t (N * W)) W memory).
Proof.
  induction n as [|n IH]; intros y A memory Hy Hn Hc; cbn [split_y].
  - eapply copied_weaken; [exact Hc|].
    intros a [Ha|(j & c & y' & x & _ & Hy' & _)]; [done|lia].
  - eapply copied_weaken.
    + apply (IH (y + 1) (λ a, A a ∨ ∃ (j : nat) (c x : Z),
                           cells !! j = Some c ∧ 0 <= x < W ∧ a = c + (y * W + x)));
        [lia|lia|].
      apply (split_i_copied y cells ltac:(lia) 0%nat); [done|done].
    + cbn beta. intros a [Ha|(j & c & y' & x & Hj & Hy' & Hx & ->)]; [by left; left|].
      destruct (decide (y' = y)) as [->|Hne].
      * left. right. by exists j, c, x.
      * right. exists j, c, y', x. split_and!; try done; lia.
Qed.

End SplitFacts.

(** X28: [split_cells] cuts the image at [src], which is [num_cells]
    cells wide, into its cells.  When the cells overlap neither each other
    nor the image, the byte at column [x] of row [y] of the [i]-th cell is
    afterwards the byte the image had at column [i * cell_width + x] of
    row [y], and no byte outside the cells has changed.  With more than
    ten cells nothing is copied and the call raises. *)
Theorem X28_split_cells_cuts_image
    (cell_width cell_height src : Z) (cells : list Z) (memory : Z → Z) :
  FreeType.split_apart cell_width cell_height src cells →
  (length cells ≤ 10)%nat →
  ∃ memory' : Z → Z,
    FreeType.split_cells cell_width cell_height src cells memory = Some memory'
    ∧ (∀ (i : nat) (c y x : Z),
         cells !! i = Some c → 0 <= y < cell_height → 0 <= x < cell_width →
         memory' (c + (y * cell_width + x))
         = memory (src + (y * (Z.of_nat (length cells) * cell_width)
                          + Z.of_nat i * cell_width + x)))
    ∧ (∀ a : Z, ¬ FreeType.in_cells cell_width cell_height cells a →
         memory' a = memory a).
Proof.
  intros Hapart Hlen. unfold FreeType.split_cells. cbv zeta.
  destruct (Z.gtb_spec (Z.of_nat (length cells)) 10) as [|_]; [lia|].
  eexists. split; [done|].
  pose proof (split_y_copied cell_width cell_height src cells memory Hapart
                (Z.to_nat cell_height) 0 (λ _, False) memory) as Hcopied.
  destruct Hapart as [HW HH Hsize Hcells Hsrc].
  destruct Hcopied as [Hframe Hdone]; [lia|lia|by split|].
  split; [|exact Hframe].
  intros i c y x Hc Hy Hx. apply Hdone.
  - right. exists i, c, y, x. split_and!; try done; lia.
  - exists i, c, y, x. done.
Qed.

Lemma X28_split_cells_cuts_image_witness :
  ∃ memory' : Z → Z,
    FreeType.split_cells 2 2 0 [100; 200] (λ a, a) = Some memory'
    ∧ (∀ (i : nat) (c y x : Z),
         [100; 200] !! i = Some c → 0 <= y < 2 → 0 <= x < 2 →
         memory' (c + (y * 2 + x))
         = (λ a, a) (0 + (y * (Z.of_nat (length [100; 200]) * 2)
                          + Z.of_nat i * 2 + x)))
    ∧ (∀ a : Z, ¬ FreeType.in_cells 2 2 [100; 200] a → memory' a = (λ a, a) a).
Proof.
  apply (X28_split_cells_cuts_image 2 2 0 [100; 200] (λ a, a)).
  - split; [lia|lia|vm_compute; congruence| |].
    + intros [|[|i]] [|[|j]] ci cj Hne Hi Hj; simplify_eq/=; lia.
    + intros [|[|i]] c Hi; simplify_eq/=; lia.
  - simpl. lia.
Defined.

(** ** A trimmed glyph in its cell *)

(** X29: a bitmap exactly as wide as the cell, as [render_bitmap] leaves
    an italic glyph after [trim_borders], is drawn from column 0 of the
    cell whatever the bearing to the right is, and from its column
    [start_x] on.  As the copy loop ends at source column [width] and not
    [start_x + width], the last [start_x] columns of the cell receive
    nothing. *)
Theorem X29_cell_wide_bitmap_drawn_from_start_x
    (cell : Z → Z) (bm : FreeType.ProcessedBitmap)
    (cell_width cell_height xoff yoff baseline : Z) (r c : Z) :
  FreeType.blit_fits bm cell_width cell_height →
  FreeType.width bm = cell_width →
  0 <= xoff → xoff + cell_width <= SIZE_MAX →
  Z.max 0 (cell_width - FreeType.start_x bm) <= c < cell_width →
  FreeType.dest_start_column bm cell_width xoff = 0
  ∧ FreeType.src_start_column bm xoff = FreeType.start_x bm
  ∧ FreeType.mem
      (FreeType.place_bitmap_in_cell cell bm cell_width cell_height xoff yoff baseline)
      (r * cell_width + c)
    = cell (r * cell_width + c).
Proof.
  intros Hfits Hw Hxoff Hsum Hc.
  assert (FreeType.dest_start_column bm cell_width xoff = 0) as Hdsc.
  { unfold FreeType.dest_start_column. cbv zeta.
    destruct (Z.ltb_spec xoff 0); [lia|].
    destruct Hfits as [_ Hstart _ _ _].
    rewrite (size_t_small xoff) by lia. rewrite Hw.
    rewrite (size_t_small (xoff + cell_width)) by lia.
    destruct (Z.gtb_spec xoff 0); cbn [andb]; [|lia].
    destruct (Z.gtb_spec (xoff + cell_width) cell_width); [|lia].
    replace (xoff + cell_width - cell_width) with xoff by lia.
    rewrite (size_t_small xoff) by lia.
    destruct (Z.gtb_spec xoff xoff); [lia|].
    rewrite Z.sub_diag. done. }
  assert (FreeType.src_start_column bm xoff = FreeType.start_x bm) as Hssc.
  { unfold FreeType.src_start_column. destruct (Z.ltb_spec xoff 0); [lia|done]. }
  split_and!; [done|done|].
  pose proof (FreeType.bf_start _ _ _ Hfits) as Hstart.
  pose proof (place_bitmap_in_cell_mem cell bm cell_width cell_height xoff yoff baseline r c
                Hfits ltac:(lia)) as Hmem.
  cbv zeta in Hmem. rewrite Hmem, Hdsc, Hssc, Hw.
  destruct (Z.ltb_spec c (Z.min (0 + (cell_width - FreeType.start_x bm)) cell_width));
    [lia|].
  by rewrite andb_false_r.
Qed.

(** The italic glyph 5 wide whose last column is inked, rendered for a
    cell 4 wide ([start_x] is 1) and placed with a bearing of one pixel:
    the last column of the cell is not written. *)
Lemma X29_cell_wide_bitmap_drawn_from_start_x_witness :
  let bm := (Examples.render_bitmap Examples.bitmap_inked_right 4 1 1).1.2 in
  FreeType.dest_start_column bm 4 1 = 0
  ∧ FreeType.src_start_column bm 1 = FreeType.start_x bm
  ∧ FreeType.mem (FreeType.place_bitmap_in_cell Examples.blank_canvas bm 4 2 1 0 0)
      (0 * 4 + 3)
    = Examples.blank_canvas (0 * 4 + 3).
Proof.
  apply (X29_cell_wide_bitmap_drawn_from_start_x Examples.blank_canvas
           (Examples.render_bitmap Examples.bitmap_inked_right 4 1 1).1.2
           4 2 1 0 0 0 3).
  - split; vm_compute; congruence.
  - reflexivity.
  - lia.
  - unfold SIZE_MAX. lia.
  - vm_compute. split; congruence.
Defined.

(** ** Prerendered sprites after a resize *)

Lemma update_cell_metrics_tracker
    (set_size_for_face : Fonts.Face → bool)
    (cell_metrics : option Fonts.Face → Z * Z * Z * Z * Z)
    (adjust_line_height_px : Z) (adjust_line_height_frac : option (Z → Z))
    (malloc_ok : bool) (g g' : Fonts.Globals) (m : Z * Z * Z * Z * Z) :
  Fonts.update_cell_metrics set_size_for_face cell_metrics
    adjust_line_height_px adjust_line_height_frac malloc_ok g = (g', inr m) →
  Fonts.sprite_tracker g'
  = ST.sprite_tracker_set_layout (Fonts.cell_width g') (Fonts.cell_height g')
      (Fonts.sprite_tracker g).
Proof.
  intros (g6 & Hsame & [(? & _)|(_ & Hrun)])%update_cell_metrics_run; [done|].
  destruct (cell_metrics _) as [[[[cw ch] bl] up] ut]. cbv zeta in Hrun.
  set (ch2 := match adjust_line_height_frac with Some _ => _ | None => _ end) in Hrun.
  destruct (Z.eqb_spec cw 0); [by destruct Hrun|].
  destruct (Z.ltb_spec ch2 4); [by destruct Hrun|].
  rewrite Z.gtb_ltb in Hrun. destruct (Z.ltb_spec 1000 ch2); [by destruct Hrun|].
  destruct malloc_ok; [|by destruct Hrun]. destruct Hrun as [[= ->] ->].
  reflexivity.
Qed.

(** X30: [send_prerendered_sprites] called after a successful
    [update_cell_metrics] meets a fresh layout: if the new layout has more
    than [n + 1] slots, the blank canvas and the [n] cells are sent for
    the slots 0 to [n] of the layout for the new cell size, after
    whatever was sent before the resize, and the call succeeds. *)
Theorem X30_prerendered_sprites_after_resize
    (set_size_for_face : Fonts.Face → bool)
    (cell_metrics : option Fonts.Face → Z * Z * Z * Z * Z)
    (adjust_line_height_px : Z) (adjust_line_height_frac : option (Z → Z))
    (malloc_ok : bool) (g g' : Fonts.Globals) (m : Z * Z * Z * Z * Z)
    (canvas_ptr : Z) (args : list Z) :
  Fonts.update_cell_metrics set_size_for_face cell_metrics
    adjust_line_height_px adjust_line_height_frac malloc_ok g = (g', inr m) →
  let t := ST.sprite_tracker_set_layout (Fonts.cell_width g') (Fonts.cell_height g')
             (Fonts.sprite_tracker g) in
  let n := Z.of_nat (length args) in
  n + 1 < ST.capacity t →
  let r := Fonts.send_prerendered_sprites canvas_ptr args g' in
  r.2 = inr (ST.x (ST.at_slot t n))
  ∧ Fonts.sprite_tracker r.1 = ST.at_slot t (n + 1)
  ∧ Fonts.gpu r.1
    = Fonts.gpu g ++ (0, 0, 0, canvas_ptr)
        :: imap (λ k buf, Fonts.sprite_at t (Z.of_nat k + 1) buf) args.
Proof.
  intros Hrun t n Hcap r.
  pose proof (update_cell_metrics_tracker _ _ _ _ _ _ _ _ Hrun) as Ht. fold t in Ht.
  pose proof (footprint_update_cell_metrics _ _ _ _ _ _ _ _ Hrun) as Hfoot.
  pose proof (send_prerendered_sprites_fit canvas_ptr args g') as Hsend.
  cbv zeta in Hsend. rewrite Ht in Hsend.
  destruct Hsend as (Hr & Htr & Hgpu & _); [apply set_layout_fresh|done|].
  subst r n. rewrite Hr, Htr, Hgpu. rewrite (Fonts.rf_gpu _ _ Hfoot). done.
Qed.

Lemma X30_prerendered_sprites_after_resize_witness :
  let g := Examples.globals_two_caches in
  let g' := Examples.globals_resized in
  let args := [4096; 8192; 12288] in
  let t := ST.sprite_tracker_set_layout (Fonts.cell_width g') (Fonts.cell_height g')
             (Fonts.sprite_tracker g) in
  let r := Fonts.send_prerendered_sprites 1024 args g' in
  r.2 = inr (ST.x (ST.at_slot t 3))
  ∧ Fonts.sprite_tracker r.1 = ST.at_slot t (3 + 1)
  ∧ Fonts.gpu r.1
    = Fonts.gpu g ++ (0, 0, 0, 1024)
        :: imap (λ k buf, Fonts.sprite_at t (Z.of_nat k + 1) buf) args.
Proof.
  apply (X30_prerendered_sprites_after_resize
           (λ _, true) (λ _, (8, 16, 14, 15, 1)) 0 None true
           Examples.globals_two_caches Examples.globals_resized (8, 16, 14, 15, 1)
           1024 [4096; 8192; 12288]).
  - vm_compute. reflexivity.
  - vm_compute. reflexivity.
Defined.
